(** * lspschema: the meta-model catalog, its reference resolver and its
      declaration emitter (cmd/lspschema/gen.go)

    The Go program decodes a meta-model document into a [Model], looks a
    structure up by name, resolves every reference reachable from its
    properties and prints Go struct declarations.

    Conventions of the embedding:
    - a Go pointer [*T] that may be nil is an [option];
    - the catalog is the store: it is threaded through every call of the
      resolver, which writes the looked-up handle into reference nodes;
    - [Model.Structure] returns a pointer to a copy of a catalog entry
      ([found = &s]); the copy shares the [Properties] backing array, and
      with it every schema node, with the catalog.  Such a pointer is
      modelled as the index of the entry in the store, so that reading
      through the handle reads the store.  The same holds for [&e] and [&a]
      in [Model.AnyRef];
    - a call that has not returned within the given fuel is [Diverge]
      (in Go: unbounded recursion). *)

From Stdlib Require Import Ascii String Arith Lia.
From stdpp Require Import base option list strings.


(** ** Values of the input document *)

(** A parsed JSON value.  Object members are kept in document order,
    duplicates included; a number is kept as its literal. *)
Unset Elimination Schemes.
Inductive JSON : Type :=
| JNull
| JBool (b : bool)
| JNumber (literal : string)
| JString (s : string)
| JArray (elements : list JSON)
| JObject (members : list (string * JSON)).
Set Elimination Schemes.

(** ** Data model (gen.go 127-134, 186-191, 241-359) *)

Record MetaData := { MetaData_Version : string }.

Record BaseElement := {
  Since : option string;
  Proposed : bool;
  Deprecated : option string;
  Documentation : option string;
  SinceTags : list string }.

(** [AnyRef]: what a reference resolved to.  The three pointers are
    indices into [Structures], [Enumerations] and [TypeAliases]. *)
Record AnyRef := {
  AnyRef_Name : string;
  AnyRef_Structure : option nat;
  AnyRef_Enumeration : option nat;
  AnyRef_TypeAlias : option nat }.

Record BaseSchema := {
  BaseSchema_Kind : string;
  BaseSchema_Name : string }.

Record ReferenceSchema := {
  ReferenceSchema_Kind : string;
  ReferenceSchema_Name : string;
  Found : option AnyRef }.

Record StringLiteralSchema := {
  StringLiteralSchema_Kind : string;
  StringLiteralSchema_Value : string }.

(** [Value interface{}]: whatever the document holds, never inspected. *)
Record LiteralSchema := {
  LiteralSchema_Kind : string;
  LiteralSchema_Value : option JSON }.

(** The variants with children, over the type [S] of schema nodes. *)
Record ArraySchemaOf (S : Type) := {
  ArraySchema_Kind : string;
  Element : option S }.

(** [OrSchema], [AndSchema] and [TupleSchema] have the same two fields. *)
Record ItemsSchemaOf (S : Type) := {
  ItemsSchema_Kind : string;
  Items : list (option S) }.

Record MapSchemaOf (S : Type) := {
  MapSchema_Kind : string;
  Key : option S;
  Value : option S }.

Arguments ArraySchema_Kind {S} _.
Arguments Element {S} _.
Arguments ItemsSchema_Kind {S} _.
Arguments Items {S} _.
Arguments MapSchema_Kind {S} _.
Arguments Key {S} _.
Arguments Value {S} _.

(** [Schema]: the embedded [BaseElement], the discriminator and one
    pointer per variant, exactly as the Go struct has them; nothing in the
    type ties [Kind] to the pointer that is set. *)
Unset Elimination Schemes.
Inductive Schema : Type := mkSchema {
  Schema_BaseElement : BaseElement;
  Schema_Kind : string;
  Schema_Base : option BaseSchema;
  Schema_Reference : option ReferenceSchema;
  Schema_Array : option (ArraySchemaOf Schema);
  Schema_Or : option (ItemsSchemaOf Schema);
  Schema_And : option (ItemsSchemaOf Schema);
  Schema_Map : option (MapSchemaOf Schema);
  Schema_StringLiteral : option StringLiteralSchema;
  Schema_Literal : option LiteralSchema;
  Schema_Tuple : option (ItemsSchemaOf Schema) }.
Set Elimination Schemes.

Definition ArraySchema := ArraySchemaOf Schema.
Definition OrSchema := ItemsSchemaOf Schema.
Definition AndSchema := ItemsSchemaOf Schema.
Definition TupleSchema := ItemsSchemaOf Schema.
Definition MapSchema := MapSchemaOf Schema.

Record TypeAlias := {
  TypeAlias_BaseElement : BaseElement;
  TypeAlias_Name : string;
  TypeAlias_Type : option Schema }.

Record Property := {
  Property_BaseElement : BaseElement;
  Property_Name : string;
  Property_Type : option Schema;
  Optional : bool }.

Record Structure := {
  Structure_BaseElement : BaseElement;
  Structure_Name : string;
  Properties : list Property;
  Documentations : string;
  Extends : list (option Schema);
  Mixins : list (option Schema) }.

Record Enumeration := {
  Enumeration_BaseElement : BaseElement;
  Enumeration_Name : string;
  Enumeration_Type : option Schema;
  Values : list (option JSON);
  SupportsCustomValues : bool }.

Record Request := {
  Request_BaseElement : BaseElement;
  Method : string;
  TypeName : string;
  Result : option Schema;
  MessageDirection : string;
  Params : option Schema;
  PartialResult : option Schema;
  RegistrationOptions : option Schema;
  RegistrationMethod : string;
  ErrorData : option Schema }.

Record Model := {
  Model_MetaData : MetaData;
  Requests : list Request;
  Structures : list Structure;
  Enumerations : list Enumeration;
  Notifications : list Request;
  TypeAliases : list TypeAlias }.

(** ** Outcomes of a call *)

(** The two errors the resolver makes with [fmt.Errorf]. *)
Inductive error : Type :=
| RefNotFound (name : string)          (* "ref not found: %s" *)
| StructureNotFound (name : string).   (* "structure not found: %s" *)

Definition Error (e : error) : string :=
  match e with
  | RefNotFound name => "ref not found: " +:+ name
  | StructureNotFound name => "structure not found: " +:+ name
  end.

Inductive panic : Type :=
| NilDereference                 (* a nil pointer is read through *)
| PanicMsg (msg : string).       (* panic(msg) *)

Inductive outcome (A : Type) : Type :=
| Ok (a : A)          (* the call returns a value (and a nil error) *)
| Err (e : error)     (* the call returns the error e *)
| Panic (p : panic)   (* the call panics *)
| Diverge.            (* the call has not returned within the fuel *)

Arguments Ok {A} _.
Arguments Err {A} _.
Arguments Panic {A} _.
Arguments Diverge {A}.

(** ** The store *)

(** [for i, x := range l { if x.Name == name { ... } }]: the index of the
    first entry whose name is [name]. *)
Fixpoint scan {A : Type} (name_of : A → string) (l : list A) (name : string)
  : option nat :=
  match l with
  | [] => None
  | x :: l' =>
      if String.eqb (name_of x) name then Some 0
      else S <$> scan name_of l' name
  end.

Definition Property_with_Type (ty : option Schema) (p : Property) : Property :=
  {| Property_BaseElement := Property_BaseElement p;
     Property_Name := Property_Name p;
     Property_Type := ty;
     Optional := Optional p |}.

Definition Structure_with_Properties (f : list Property → list Property)
    (s : Structure) : Structure :=
  {| Structure_BaseElement := Structure_BaseElement s;
     Structure_Name := Structure_Name s;
     Properties := f (Properties s);
     Documentations := Documentations s;
     Extends := Extends s;
     Mixins := Mixins s |}.

Definition Model_with_Structures (f : list Structure → list Structure)
    (m : Model) : Model :=
  {| Model_MetaData := Model_MetaData m;
     Requests := Requests m;
     Structures := f (Structures m);
     Enumerations := Enumerations m;
     Notifications := Notifications m;
     TypeAliases := TypeAliases m |}.

(** [found.Properties[k].Type] read through the handle [i]: the pointer
    held by property [k] of structure [i] of the store.  (A property that
    does not exist reads as nil; the loops below only visit the indices
    of existing properties.) *)
Definition property_type (m : Model) (i k : nat) : option Schema :=
  s ← Structures m !! i; p ← Properties s !! k; Property_Type p.

(** The node behind that pointer has been written in place: the store
    now holds [ty] under property [k] of structure [i]. *)
Definition store_property_type (i k : nat) (ty : option Schema) (m : Model)
  : Model :=
  Model_with_Structures
    (alter (Structure_with_Properties (alter (Property_with_Type ty) k)) i) m.

Definition ReferenceSchema_with_Found (found : option AnyRef)
    (r : ReferenceSchema) : ReferenceSchema :=
  {| ReferenceSchema_Kind := ReferenceSchema_Kind r;
     ReferenceSchema_Name := ReferenceSchema_Name r;
     Found := found |}.

Definition ArraySchema_with_Element (e : option Schema) (a : ArraySchema)
  : ArraySchema :=
  {| ArraySchema_Kind := ArraySchema_Kind a; Element := e |}.

Definition ItemsSchema_with_Items (items : list (option Schema))
    (o : ItemsSchemaOf Schema) : ItemsSchemaOf Schema :=
  {| ItemsSchema_Kind := ItemsSchema_Kind o; Items := items |}.

Definition Schema_with_Reference (r : option ReferenceSchema) (s : Schema)
  : Schema :=
  mkSchema (Schema_BaseElement s) (Schema_Kind s) (Schema_Base s) r
    (Schema_Array s) (Schema_Or s) (Schema_And s) (Schema_Map s)
    (Schema_StringLiteral s) (Schema_Literal s) (Schema_Tuple s).

Definition Schema_with_Array (a : option ArraySchema) (s : Schema) : Schema :=
  mkSchema (Schema_BaseElement s) (Schema_Kind s) (Schema_Base s)
    (Schema_Reference s) a (Schema_Or s) (Schema_And s) (Schema_Map s)
    (Schema_StringLiteral s) (Schema_Literal s) (Schema_Tuple s).

(** The node [s] after the children behind its [Or], [And], [Map] and
    [Tuple] pointers have been written. *)
Definition Schema_with_composites (o a : option (ItemsSchemaOf Schema))
    (mp : option MapSchema) (t : option (ItemsSchemaOf Schema)) (s : Schema)
  : Schema :=
  mkSchema (Schema_BaseElement s) (Schema_Kind s) (Schema_Base s)
    (Schema_Reference s) (Schema_Array s) o a mp
    (Schema_StringLiteral s) (Schema_Literal s) t.

(** ** Reference resolver (gen.go 136-184, 193-239) *)

Definition is_Ok {A : Type} (r : outcome A) : bool :=
  match r with Ok _ => true | _ => false end.

(** The same outcome, with [f] applied to the value if there is one. *)
Definition outcome_map {A B : Type} (f : A → B) (r : outcome A) : outcome B :=
  match r with
  | Ok a => Ok (f a)
  | Err e => Err e
  | Panic p => Panic p
  | Diverge => Diverge
  end.

Section ResolveRefs.

(** [m.AnyRef], the way back into the catalog; tied to
    [Model_Structure] below. *)
Variable AnyRef_ : string → Model → Model * outcome AnyRef.

(** What a call on a node yields: the store, the node as the call left
    it, and the error (or nil). *)
Definition resolved (A : Type) : Type := Model * A * outcome unit.

(** A call through a pointer: nil is dereferenced at [s.Reference]. *)
Definition through (f : Schema → Model → resolved Schema)
    (p : option Schema) (m : Model) : resolved (option Schema) :=
  match p with
  | None => (m, None, Panic NilDereference)
  | Some s => let '(m', s', r) := f s m in (m', Some s', r)
  end.

(** [for _, item := range items { if err := m.ResolveRefs(item);
    err != nil { return err } }] *)
Fixpoint each (f : Schema → Model → resolved Schema)
    (items : list (option Schema)) (m : Model)
  : resolved (list (option Schema)) :=
  match items with
  | [] => (m, [], Ok ())
  | item :: rest =>
      let '(m1, item', r) := through f item m in
      if is_Ok r then
        let '(m2, rest', r2) := each f rest m1 in (m2, item' :: rest', r2)
      else (m1, item' :: rest, r)
  end.

Definition each_of (f : Schema → Model → resolved Schema)
    (o : option (ItemsSchemaOf Schema)) (m : Model)
  : resolved (option (ItemsSchemaOf Schema)) :=
  match o with
  | None => (m, None, Ok ())
  | Some o =>
      let '(m1, items, r) := each f (Items o) m in
      (m1, Some (ItemsSchema_with_Items items o), r)
  end.

Definition key_value (f : Schema → Model → resolved Schema)
    (mp : option MapSchema) (m : Model) : resolved (option MapSchema) :=
  match mp with
  | None => (m, None, Ok ())
  | Some mp =>
      let '(m1, k, r) := through f (Key mp) m in
      if is_Ok r then
        let '(m2, v, r2) := through f (Value mp) m1 in
        (m2, Some {| MapSchema_Kind := MapSchema_Kind mp;
                     Key := k; Value := v |}, r2)
      else
        (m1, Some {| MapSchema_Kind := MapSchema_Kind mp;
                     Key := k; Value := Value mp |}, r)
  end.

(** The body of [func (m *Model) ResolveRefs(s *Schema) error], with
    [ResolveRefs_] for its calls of itself. *)
Definition ResolveRefs_body (ResolveRefs_ : Schema → Model → resolved Schema)
    (s : Schema) (m : Model) : resolved Schema :=
  match Schema_Reference s with
  | Some ref =>
      let '(m1, found) := AnyRef_ (ReferenceSchema_Name ref) m in
      match found with
      | Ok found =>
          (m1,
           Schema_with_Reference
             (Some (ReferenceSchema_with_Found (Some found) ref)) s,
           Ok ())
      | _ => (m1, s, outcome_map (λ _, ()) found)
      end
  | None =>
  match Schema_Array s with
  | Some a =>
      let '(m1, e, r) := through ResolveRefs_ (Element a) m in
      (m1, Schema_with_Array (Some (ArraySchema_with_Element e a)) s, r)
  | None =>
      let '(m1, o, r1) := each_of ResolveRefs_ (Schema_Or s) m in
      if is_Ok r1 then
        let '(m2, a, r2) := each_of ResolveRefs_ (Schema_And s) m1 in
        if is_Ok r2 then
          let '(m3, mp, r3) := key_value ResolveRefs_ (Schema_Map s) m2 in
          if is_Ok r3 then
            let '(m4, t, r4) :=
              each_of ResolveRefs_ (Schema_Tuple s) m3 in
            (m4, Schema_with_composites o a mp t s, r4)
          else (m3, Schema_with_composites o a mp (Schema_Tuple s) s, r3)
        else
          (m2,
           Schema_with_composites o a (Schema_Map s) (Schema_Tuple s) s, r2)
      else
        (m1,
         Schema_with_composites o (Schema_And s) (Schema_Map s)
           (Schema_Tuple s) s,
         r1)
  end
  end.

Fixpoint Model_ResolveRefs (s : Schema) (m : Model) {struct s}
  : resolved Schema :=
  ResolveRefs_body Model_ResolveRefs s m.

(** One turn of [for _, prop := range found.Properties]: the node
    behind [prop.Type] is resolved where it lies in the store.  The node
    is taken out, resolved and put back; a nested call cannot have
    written the same node in between and returned, since it would have
    to resolve structure [i] again and so repeat this very call. *)
Definition resolve_property (i k : nat) (m : Model) : Model * outcome unit :=
  let '(m1, ty, r) := through Model_ResolveRefs (property_type m i k) m in
  (store_property_type i k ty m1, r).

(** The turns [k], [k+1], ..., [k+n-1], stopping at the first error. *)
Fixpoint resolve_properties (i k n : nat) (m : Model)
  : Model * outcome unit :=
  match n with
  | 0 => (m, Ok ())
  | S n' =>
      let '(m1, r) := resolve_property i k m in
      if is_Ok r then resolve_properties i (S k) n' m1 else (m1, r)
  end.

End ResolveRefs.

(** [len(found.Properties)] *)
Definition property_count (m : Model) (i : nat) : nat :=
  from_option (λ s, length (Properties s)) 0 (Structures m !! i).

Section AnyRef.

(** [m.Structure], as [Model_AnyRef] calls it. *)
Variable Structure_ : string → Model → Model * outcome nat.

Definition Model_AnyRef (name : string) (m : Model)
  : Model * outcome AnyRef :=
  match scan Structure_Name (Structures m) name with
  | Some _ =>
      let '(m1, r) := Structure_ name m in
      (m1,
       outcome_map
         (λ structure,
            {| AnyRef_Name := name; AnyRef_Structure := Some structure;
               AnyRef_Enumeration := None; AnyRef_TypeAlias := None |})
         r)
  | None =>
  match scan Enumeration_Name (Enumerations m) name with
  | Some e =>
      (m, Ok {| AnyRef_Name := name; AnyRef_Structure := None;
                AnyRef_Enumeration := Some e; AnyRef_TypeAlias := None |})
  | None =>
  match scan TypeAlias_Name (TypeAliases m) name with
  | Some a =>
      (m, Ok {| AnyRef_Name := name; AnyRef_Structure := None;
                AnyRef_Enumeration := None; AnyRef_TypeAlias := Some a |})
  | None => (m, Err (RefNotFound name))
  end
  end
  end.

End AnyRef.

(** [m.Structure(name)]; each nested call of it takes one unit of fuel. *)
Fixpoint Model_Structure (fuel : nat) (name : string) (m : Model)
  : Model * outcome nat :=
  match fuel with
  | 0 => (m, Diverge)
  | S fuel' =>
      match scan Structure_Name (Structures m) name with
      | None => (m, Err (StructureNotFound name))
      | Some found =>
          let '(m1, r) :=
            resolve_properties (Model_AnyRef (Model_Structure fuel'))
              found 0 (property_count m found) m in
          (m1, outcome_map (λ _, found) r)
      end
  end.

(** ** Declaration emitter (gen.go 51-97) *)

Definition quote : string := String "034"%char EmptyString.
Definition newline : string := String "010"%char EmptyString.
Definition tab : string := String "009"%char EmptyString.

(** [fmt.Sprintf("%s %s `json:\"%s,omitempty\"", key, typeName, name)] *)
Definition field (key typeName name : string) : string :=
  key +:+ " " +:+ typeName +:+ " `json:" +:+ quote +:+ name +:+ ",omitempty"
  +:+ quote.

(** The three writes that end [PrintStruct]: the header, one line per
    entry of [types], the closing brace. *)
Definition declaration (name : string) (types : list string) : string :=
  "type " +:+ name +:+ " struct {" +:+ newline
  +:+ String.concat EmptyString (map (λ t, tab +:+ t +:+ newline) types)
  +:+ "}" +:+ newline.

Section PrintStruct.

(** [strcase.ToGoPascal] of github.com/ettle/strcase, which is not part
    of this repository. *)
Variable ToGoPascal : string → string.

Variable m : Model.

(** [p.PrintStruct], as the loop calls it on a referenced structure:
    from the output written so far to the output after the call. *)
Variable PrintStruct_ : nat → string → string * outcome unit.

(** The [switch prop.Type.Kind] of one turn of the loop: the output
    after it and the type name it chose. *)
Definition type_name (prop : Property) (out : string)
  : string * outcome string :=
  match Property_Type prop with
  | None => (out, Panic NilDereference)
  | Some ty =>
      if String.eqb (Schema_Kind ty) "reference" then
        match Schema_Reference ty with
        | None => (out, Panic NilDereference)
        | Some reference =>
        match Found reference with
        | None =>
            (out,
             Panic (PanicMsg
                      ("ref not found: " +:+ ReferenceSchema_Name reference)))
        | Some ref =>
        match AnyRef_Structure ref with
        | Some structure =>
            let '(out1, r) := PrintStruct_ structure out in
            (out1,
             match r with
             | Ok _ =>
                 match Structures m !! structure with
                 | Some s => Ok ("*" +:+ Structure_Name s)
                 | None => Panic NilDereference
                 end
             | _ => outcome_map (λ _, EmptyString) r
             end)
        | None =>
        match AnyRef_Enumeration ref with
        | Some enumeration =>
            (out,
             match Enumerations m !! enumeration with
             | Some e => Ok (Enumeration_Name e)
             | None => Panic NilDereference
             end)
        | None =>
        match AnyRef_TypeAlias ref with
        | Some alias =>
            (out,
             match TypeAliases m !! alias with
             | Some a => Ok (TypeAlias_Name a)
             | None => Panic NilDereference
             end)
        | None => (out, Panic (PanicMsg "not implemented"))
        end
        end
        end
        end
        end
      else if String.eqb (Schema_Kind ty) "base" then
        match Schema_Base ty with
        | None => (out, Panic NilDereference)
        | Some base =>
            if String.eqb (BaseSchema_Name base) "string"
            then (out, Ok "string")
            else (out, Ok EmptyString)
        end
      else (out, Ok EmptyString)
  end.

(** [for _, prop := range s.Properties { ...; types = append(types, ...) }] *)
Fixpoint fields (props : list Property) (types : list string) (out : string)
  : string * outcome (list string) :=
  match props with
  | [] => (out, Ok types)
  | prop :: rest =>
      let key := ToGoPascal (Property_Name prop) in
      let '(out1, r) := type_name prop out in
      match r with
      | Ok typeName =>
          fields rest (types ++ [field key typeName (Property_Name prop)])
            out1
      | _ => (out1, outcome_map (λ _, types) r)
      end
  end.

(** The body of [PrintStruct] on the structure behind the handle [s]. *)
Definition PrintStruct_body (s : nat) (out : string) : string * outcome unit :=
  match Structures m !! s with
  | None => (out, Panic NilDereference)
  | Some st =>
      let '(out1, r) := fields (Properties st) [] out in
      match r with
      | Ok types => (out1 +:+ declaration (Structure_Name st) types, Ok ())
      | _ => (out1, outcome_map (λ _, ()) r)
      end
  end.

End PrintStruct.

(** [p.PrintStruct(s)]: the text on the output stream goes from [out] to
    the first component; each nested call takes one unit of fuel.  The
    writes themselves are taken to succeed. *)
Fixpoint PrintStruct (ToGoPascal : string → string) (fuel : nat) (m : Model)
    (s : nat) (out : string) : string * outcome unit :=
  match fuel with
  | 0 => (out, Diverge)
  | S fuel' =>
      PrintStruct_body ToGoPascal m (PrintStruct ToGoPascal fuel' m) s out
  end.

(** [run], from the fetched model on, for the structure called [name]
    (the program asks for "Diagnostic"): the model after resolution, the
    text written to the output, and how the run ended. *)
Definition run (ToGoPascal : string → string) (fuel : nat) (name : string)
    (model : Model) : Model * string * outcome unit :=
  let '(m1, r) := Model_Structure fuel name model in
  match r with
  | Ok diag =>
      let '(out, r') := PrintStruct ToGoPascal fuel m1 diag EmptyString in
      (m1, out, r')
  | _ => (m1, EmptyString, outcome_map (λ _, ()) r)
  end.

(** ** Schema Node decoder (gen.go 361-412)

    [encoding/json] is modelled on parsed values, as far as the decoder of
    schema nodes needs it: an object fills a struct member by member, in
    document order; a member's name selects a field when the two are equal
    up to case; a member that selects no field is ignored, or, under
    [DisallowUnknownFields], recorded as an error; a value of the wrong
    JSON type is recorded as an error and leaves the field as it is; null
    clears a pointer, a slice or an interface and leaves a string as it is.
    A recorded error is returned when the value has been read to its end;
    the error of a nested [UnmarshalJSON] is returned at once.

    Two things are left out, and a document that needs them is
    [Unmodelled] unless it is rejected anyway: a [Found] member of a
    reference (the field is exported, so the library would fill it with
    definitions that are not entries of the catalog), and a member that
    fills again a pointer or slice of schema nodes that an earlier member
    of the same object has filled (the library would decode into the
    nodes already there). *)

Inductive decode_error : Type :=
| JsonError                          (* an error of encoding/json itself *)
| UnknownSchemaKind (kind : string)  (* "unknown schema kind: %s" *)
| UnmarshalSchemaType (kind : string).
    (* "unmarshal schema type %s: %w"; the wrapped cause is not kept *)

Inductive decoded (A : Type) : Type :=
| Decoded (a : A)
| DecodeError (e : decode_error)
| Unmodelled.

Arguments Decoded {A} _.
Arguments DecodeError {A} _.
Arguments Unmodelled {A}.

(** What one decoding pass remembers besides the value. *)
Record flags := {
  saved_error : bool;     (* d.saveError has been called *)
  unmodelled : bool }.    (* the document left the model *)

Definition clean : flags := {| saved_error := false; unmodelled := false |}.
Definition save_error (fl : flags) : flags :=
  {| saved_error := true; unmodelled := unmodelled fl |}.
Definition leave_model (fl : flags) : flags :=
  {| saved_error := saved_error fl; unmodelled := true |}.

(** A member has been read: go on, or return the error at once. *)
Inductive step (A : Type) : Type :=
| Next (a : A) (fl : flags)
| Abort (e : decode_error).

Arguments Next {A} _ _.
Arguments Abort {A} _.

Definition finish {A : Type} (r : step A) : decoded A :=
  match r with
  | Abort e => DecodeError e
  | Next a fl =>
      if saved_error fl then DecodeError JsonError
      else if unmodelled fl then Unmodelled
      else Decoded a
  end.

(** The name of a member as the library compares it with the names of
    the fields: ASCII letters in upper case; the long s (U+017F) and the
    Kelvin sign (U+212A), in UTF-8, are the only other characters that
    fold to an ASCII letter. *)
Definition upper (c : ascii) : ascii :=
  let n := nat_of_ascii c in
  if (97 <=? n)%nat && (n <=? 122)%nat then ascii_of_nat (n - 32) else c.

Fixpoint foldName (s : string) : string :=
  match s with
  | EmptyString => EmptyString
  | String "197"%char (String "191"%char rest) => String "S"%char (foldName rest)
  | String "226"%char (String "132"%char (String "170"%char rest)) =>
      String "K"%char (foldName rest)
  | String c rest => String (upper c) (foldName rest)
  end.

Section Struct.

Context {T : Type}.

(** The fields of the struct: what the member named [name] (folded)
    with value [v] does to the struct, or [None] if no field has that
    name. *)
Variable field : string → JSON → T → flags → option (step T).

(** [DisallowUnknownFields] *)
Variable strict : bool.

Fixpoint decode_members (members : list (string * JSON)) (t : T)
    (fl : flags) : step T :=
  match members with
  | [] => Next t fl
  | (name, v) :: rest =>
      match field (foldName name) v t fl with
      | Some (Next t' fl') => decode_members rest t' fl'
      | Some (Abort e) => Abort e
      | None => decode_members rest t (if strict then save_error fl else fl)
      end
  end.

Definition decode_struct (b : JSON) (t : T) : decoded T :=
  finish
    match b with
    | JObject members => decode_members members t clean
    | JNull => Next t clean
    | _ => Next t (save_error clean)
    end.

End Struct.

Definition set_string (v : JSON) (current : string) (fl : flags) : step string :=
  match v with
  | JString s => Next s fl
  | JNull => Next current fl
  | _ => Next current (save_error fl)
  end.

Definition set_interface (v : JSON) (fl : flags) : step (option JSON) :=
  match v with
  | JNull => Next None fl
  | _ => Next (Some v) fl
  end.

Definition set_Found (v : JSON) (current : option AnyRef) (fl : flags)
  : step (option AnyRef) :=
  match v with
  | JNull => Next None fl
  | _ => Next current (leave_model fl)
  end.

(** [Schema{}] *)
Definition no_BaseElement : BaseElement :=
  {| Since := None; Proposed := false; Deprecated := None;
     Documentation := None; SinceTags := [] |}.

Definition new_Schema : Schema :=
  mkSchema no_BaseElement EmptyString None None None None None None None None
    None.

Section Nodes.

(** [Schema.UnmarshalJSON], as the library calls it on the schema
    nodes below the one being decoded. *)
Variable UnmarshalJSON_ : Schema → JSON → decoded Schema.

(** A member for a field of type [*Schema]. *)
Definition set_Schema (v : JSON) (current : option Schema) (fl : flags)
  : step (option Schema) :=
  match v with
  | JNull => Next None fl
  | _ =>
      match current with
      | Some _ => Next current (leave_model fl)
      | None =>
          match UnmarshalJSON_ new_Schema v with
          | Decoded s => Next (Some s) fl
          | DecodeError e => Abort e
          | Unmodelled => Next None (leave_model fl)
          end
      end
  end.

Fixpoint set_elements (elements : list JSON) (fl : flags)
  : step (list (option Schema)) :=
  match elements with
  | [] => Next [] fl
  | v :: rest =>
      match set_Schema v None fl with
      | Next s fl1 =>
          match set_elements rest fl1 with
          | Next items fl2 => Next (s :: items) fl2
          | Abort e => Abort e
          end
      | Abort e => Abort e
      end
  end.

(** A member for a field of type [[]*Schema]. *)
Definition set_Schemas (v : JSON) (current : list (option Schema))
    (fl : flags) : step (list (option Schema)) :=
  match v with
  | JNull => Next [] fl
  | JArray elements =>
      match current with
      | [] => set_elements elements fl
      | _ :: _ => Next current (leave_model fl)
      end
  | _ => Next current (save_error fl)
  end.

Definition into {A T : Type} (r : step A) (assign : A → T) : option (step T) :=
  Some match r with
       | Next a fl => Next (assign a) fl
       | Abort e => Abort e
       end.

Definition ArraySchema_field (name : string) (v : JSON) (a : ArraySchema)
    (fl : flags) : option (step ArraySchema) :=
  if String.eqb name "KIND" then
    into (set_string v (ArraySchema_Kind a) fl)
      (λ kind, {| ArraySchema_Kind := kind; Element := Element a |})
  else if String.eqb name "ELEMENT" then
    into (set_Schema v (Element a) fl)
      (λ e, {| ArraySchema_Kind := ArraySchema_Kind a; Element := e |})
  else None.

Definition ItemsSchema_field (name : string) (v : JSON)
    (o : ItemsSchemaOf Schema) (fl : flags)
  : option (step (ItemsSchemaOf Schema)) :=
  if String.eqb name "KIND" then
    into (set_string v (ItemsSchema_Kind o) fl)
      (λ kind, {| ItemsSchema_Kind := kind; Items := Items o |})
  else if String.eqb name "ITEMS" then
    into (set_Schemas v (Items o) fl)
      (λ items, {| ItemsSchema_Kind := ItemsSchema_Kind o; Items := items |})
  else None.

Definition MapSchema_field (name : string) (v : JSON) (mp : MapSchema)
    (fl : flags) : option (step MapSchema) :=
  if String.eqb name "KIND" then
    into (set_string v (MapSchema_Kind mp) fl)
      (λ kind, {| MapSchema_Kind := kind; Key := Key mp; Value := Value mp |})
  else if String.eqb name "KEY" then
    into (set_Schema v (Key mp) fl)
      (λ k, {| MapSchema_Kind := MapSchema_Kind mp; Key := k;
               Value := Value mp |})
  else if String.eqb name "VALUE" then
    into (set_Schema v (Value mp) fl)
      (λ x, {| MapSchema_Kind := MapSchema_Kind mp; Key := Key mp;
               Value := x |})
  else None.

End Nodes.

Definition ReferenceSchema_field (name : string) (v : JSON)
    (r : ReferenceSchema) (fl : flags) : option (step ReferenceSchema) :=
  if String.eqb name "KIND" then
    into (set_string v (ReferenceSchema_Kind r) fl)
      (λ kind, {| ReferenceSchema_Kind := kind;
                  ReferenceSchema_Name := ReferenceSchema_Name r;
                  Found := Found r |})
  else if String.eqb name "NAME" then
    into (set_string v (ReferenceSchema_Name r) fl)
      (λ n, {| ReferenceSchema_Kind := ReferenceSchema_Kind r;
               ReferenceSchema_Name := n; Found := Found r |})
  else if String.eqb name "FOUND" then
    into (set_Found v (Found r) fl) (λ found, ReferenceSchema_with_Found found r)
  else None.

Definition BaseSchema_field (name : string) (v : JSON) (b : BaseSchema)
    (fl : flags) : option (step BaseSchema) :=
  if String.eqb name "KIND" then
    into (set_string v (BaseSchema_Kind b) fl)
      (λ kind, {| BaseSchema_Kind := kind;
                  BaseSchema_Name := BaseSchema_Name b |})
  else if String.eqb name "NAME" then
    into (set_string v (BaseSchema_Name b) fl)
      (λ n, {| BaseSchema_Kind := BaseSchema_Kind b; BaseSchema_Name := n |})
  else None.

Definition StringLiteralSchema_field (name : string) (v : JSON)
    (l : StringLiteralSchema) (fl : flags) : option (step StringLiteralSchema) :=
  if String.eqb name "KIND" then
    into (set_string v (StringLiteralSchema_Kind l) fl)
      (λ kind, {| StringLiteralSchema_Kind := kind;
                  StringLiteralSchema_Value := StringLiteralSchema_Value l |})
  else if String.eqb name "VALUE" then
    into (set_string v (StringLiteralSchema_Value l) fl)
      (λ x, {| StringLiteralSchema_Kind := StringLiteralSchema_Kind l;
               StringLiteralSchema_Value := x |})
  else None.

Definition LiteralSchema_field (name : string) (v : JSON) (l : LiteralSchema)
    (fl : flags) : option (step LiteralSchema) :=
  if String.eqb name "KIND" then
    into (set_string v (LiteralSchema_Kind l) fl)
      (λ kind, {| LiteralSchema_Kind := kind;
                  LiteralSchema_Value := LiteralSchema_Value l |})
  else if String.eqb name "VALUE" then
    into (set_interface v fl)
      (λ x, {| LiteralSchema_Kind := LiteralSchema_Kind l;
               LiteralSchema_Value := x |})
  else None.

(** [explore := struct { Kind string `json:"kind"` }{}] *)
Definition explore_field (name : string) (v : JSON) (kind : string)
    (fl : flags) : option (step string) :=
  if String.eqb name "KIND" then Some (set_string v kind fl) else None.

(** [json.Unmarshal(b, &explore)], then [explore.Kind] *)
Definition explore (b : JSON) : decoded string :=
  decode_struct explore_field false b EmptyString.

(** [unmarshalStrict(b, elem)] for the fresh [elem] of the chosen variant,
    and what [UnmarshalJSON] returns after it. *)
Definition unmarshalStrict {T : Type}
    (field : string → JSON → T → flags → option (step T)) (b : JSON)
    (elem : T) (kind : string) (assign : T → Schema) : decoded Schema :=
  match decode_struct field true b elem with
  | Decoded elem' => Decoded (assign elem')
  | DecodeError _ => DecodeError (UnmarshalSchemaType kind)
  | Unmodelled => Unmodelled
  end.

Definition Schema_with_Kind (kind : string) (s : Schema) : Schema :=
  mkSchema (Schema_BaseElement s) kind (Schema_Base s) (Schema_Reference s)
    (Schema_Array s) (Schema_Or s) (Schema_And s) (Schema_Map s)
    (Schema_StringLiteral s) (Schema_Literal s) (Schema_Tuple s).

Definition no_Items : ItemsSchemaOf Schema :=
  {| ItemsSchema_Kind := EmptyString; Items := [] |}.

(** The body of [func (s *Schema) UnmarshalJSON(b []byte) error], with
    [UnmarshalJSON_] for the calls the library makes on the nodes below:
    the node [s] after the call, or the error. *)
Definition UnmarshalJSON_body (UnmarshalJSON_ : Schema → JSON → decoded Schema)
    (s : Schema) (b : JSON) : decoded Schema :=
  match explore b with
  | DecodeError e => DecodeError e
  | Unmodelled => Unmodelled
  | Decoded kind =>
      let s := Schema_with_Kind kind s in
      if String.eqb kind "array" then
        unmarshalStrict (ArraySchema_field UnmarshalJSON_) b
          {| ArraySchema_Kind := EmptyString; Element := None |} kind
          (λ a, Schema_with_Array (Some a) s)
      else if String.eqb kind "or" then
        unmarshalStrict (ItemsSchema_field UnmarshalJSON_) b no_Items kind
          (λ o, mkSchema (Schema_BaseElement s) (Schema_Kind s) (Schema_Base s)
                  (Schema_Reference s) (Schema_Array s) (Some o) (Schema_And s)
                  (Schema_Map s) (Schema_StringLiteral s) (Schema_Literal s)
                  (Schema_Tuple s))
      else if String.eqb kind "and" then
        unmarshalStrict (ItemsSchema_field UnmarshalJSON_) b no_Items kind
          (λ a, mkSchema (Schema_BaseElement s) (Schema_Kind s) (Schema_Base s)
                  (Schema_Reference s) (Schema_Array s) (Schema_Or s) (Some a)
                  (Schema_Map s) (Schema_StringLiteral s) (Schema_Literal s)
                  (Schema_Tuple s))
      else if String.eqb kind "reference" then
        unmarshalStrict ReferenceSchema_field b
          {| ReferenceSchema_Kind := EmptyString;
             ReferenceSchema_Name := EmptyString; Found := None |} kind
          (λ r, Schema_with_Reference (Some r) s)
      else if String.eqb kind "base" then
        unmarshalStrict BaseSchema_field b
          {| BaseSchema_Kind := EmptyString; BaseSchema_Name := EmptyString |}
          kind
          (λ x, mkSchema (Schema_BaseElement s) (Schema_Kind s) (Some x)
                  (Schema_Reference s) (Schema_Array s) (Schema_Or s)
                  (Schema_And s) (Schema_Map s) (Schema_StringLiteral s)
                  (Schema_Literal s) (Schema_Tuple s))
      else if String.eqb kind "map" then
        unmarshalStrict (MapSchema_field UnmarshalJSON_) b
          {| MapSchema_Kind := EmptyString; Key := None; Value := None |} kind
          (λ mp, mkSchema (Schema_BaseElement s) (Schema_Kind s) (Schema_Base s)
                   (Schema_Reference s) (Schema_Array s) (Schema_Or s)
                   (Schema_And s) (Some mp) (Schema_StringLiteral s)
                   (Schema_Literal s) (Schema_Tuple s))
      else if String.eqb kind "stringLiteral" then
        unmarshalStrict StringLiteralSchema_field b
          {| StringLiteralSchema_Kind := EmptyString;
             StringLiteralSchema_Value := EmptyString |} kind
          (λ l, mkSchema (Schema_BaseElement s) (Schema_Kind s) (Schema_Base s)
                  (Schema_Reference s) (Schema_Array s) (Schema_Or s)
                  (Schema_And s) (Schema_Map s) (Some l) (Schema_Literal s)
                  (Schema_Tuple s))
      else if String.eqb kind "literal" then
        unmarshalStrict LiteralSchema_field b
          {| LiteralSchema_Kind := EmptyString; LiteralSchema_Value := None |}
          kind
          (λ l, mkSchema (Schema_BaseElement s) (Schema_Kind s) (Schema_Base s)
                  (Schema_Reference s) (Schema_Array s) (Schema_Or s)
                  (Schema_And s) (Schema_Map s) (Schema_StringLiteral s)
                  (Some l) (Schema_Tuple s))
      else if String.eqb kind "tuple" then
        unmarshalStrict (ItemsSchema_field UnmarshalJSON_) b no_Items kind
          (λ t, mkSchema (Schema_BaseElement s) (Schema_Kind s) (Schema_Base s)
                  (Schema_Reference s) (Schema_Array s) (Schema_Or s)
                  (Schema_And s) (Schema_Map s) (Schema_StringLiteral s)
                  (Schema_Literal s) (Some t))
      else DecodeError (UnknownSchemaKind kind)
  end.

Fixpoint Schema_UnmarshalJSON (s : Schema) (b : JSON) {struct b}
  : decoded Schema :=
  UnmarshalJSON_body Schema_UnmarshalJSON s b.

(** A recorded error stays recorded. *)
Definition keeps_error {A : Type} (fl : flags) (r : step A) : Prop :=
  match r with
  | Next _ fl' => saved_error fl = true → saved_error fl' = true
  | Abort _ => True
  end.

(** The fields of a struct, when each member keeps a recorded error. *)
Definition field_keeps_error {T : Type}
    (field : string → JSON → T → flags → option (step T)) : Prop :=
  ∀ name v t fl r, field name v t fl = Some r → keeps_error fl r.

(** The nine values of the discriminator (section 6 of the
    specification), and the names of the members of [BaseElement]. *)
Definition known_kinds : list string :=
  ["base"; "reference"; "array"; "or"; "and"; "map"; "stringLiteral";
   "literal"; "tuple"].

Definition metadata_members : list string :=
  ["since"; "proposed"; "deprecated"; "documentation"; "sinceTags"].

(** The kind of the node and of every node below it is one of the nine. *)
Fixpoint known_throughout (s : Schema) : bool :=
  bool_decide (Schema_Kind s ∈ known_kinds)
  && from_option (λ a, from_option known_throughout true (Element a)) true
       (Schema_Array s)
  && from_option
       (λ o, forallb (from_option known_throughout true) (Items o)) true
       (Schema_Or s)
  && from_option
       (λ o, forallb (from_option known_throughout true) (Items o)) true
       (Schema_And s)
  && from_option
       (λ mp, from_option known_throughout true (Key mp)
              && from_option known_throughout true (Value mp)) true
       (Schema_Map s)
  && from_option
       (λ o, forallb (from_option known_throughout true) (Items o)) true
       (Schema_Tuple s).

(** Whatever [Schema_UnmarshalJSON] decodes from [b] into a fresh node
    has known kinds throughout; for an array, so have its elements. *)
Definition decodes_known (b : JSON) : Prop :=
  ∀ s, Schema_UnmarshalJSON new_Schema b = Decoded s →
       known_throughout s = true.

Definition decodes_known_deep (b : JSON) : Prop :=
  decodes_known b
  ∧ match b with
    | JArray elements => Forall decodes_known elements
    | _ => True
    end.

(** ** What resolution leaves alone *)

(** The node with every resolution handle below it taken off: all that a
    schema node holds besides the [Found] fields of its references. *)
Fixpoint erase (s : Schema) : Schema :=
  mkSchema (Schema_BaseElement s) (Schema_Kind s) (Schema_Base s)
    (ReferenceSchema_with_Found None <$> Schema_Reference s)
    ((λ a, {| ArraySchema_Kind := ArraySchema_Kind a;
              Element := erase <$> Element a |}) <$> Schema_Array s)
    ((λ o, {| ItemsSchema_Kind := ItemsSchema_Kind o;
              Items := fmap (M:=list) (fmap (M:=option) erase) (Items o) |}) <$> Schema_Or s)
    ((λ o, {| ItemsSchema_Kind := ItemsSchema_Kind o;
              Items := fmap (M:=list) (fmap (M:=option) erase) (Items o) |}) <$> Schema_And s)
    ((λ mp, {| MapSchema_Kind := MapSchema_Kind mp;
               Key := erase <$> Key mp;
               Value := erase <$> Value mp |}) <$> Schema_Map s)
    (Schema_StringLiteral s) (Schema_Literal s)
    ((λ o, {| ItemsSchema_Kind := ItemsSchema_Kind o;
              Items := fmap (M:=list) (fmap (M:=option) erase) (Items o) |}) <$> Schema_Tuple s).

Definition erase_Property (p : Property) : Property :=
  Property_with_Type (erase <$> Property_Type p) p.

Definition erase_Structure (s : Structure) : Structure :=
  {| Structure_BaseElement := Structure_BaseElement s;
     Structure_Name := Structure_Name s;
     Properties := erase_Property <$> Properties s;
     Documentations := Documentations s;
     Extends := fmap (M:=list) (fmap (M:=option) erase) (Extends s);
     Mixins := fmap (M:=list) (fmap (M:=option) erase) (Mixins s) |}.

Definition erase_Enumeration (e : Enumeration) : Enumeration :=
  {| Enumeration_BaseElement := Enumeration_BaseElement e;
     Enumeration_Name := Enumeration_Name e;
     Enumeration_Type := erase <$> Enumeration_Type e;
     Values := Values e;
     SupportsCustomValues := SupportsCustomValues e |}.

Definition erase_TypeAlias (a : TypeAlias) : TypeAlias :=
  {| TypeAlias_BaseElement := TypeAlias_BaseElement a;
     TypeAlias_Name := TypeAlias_Name a;
     TypeAlias_Type := erase <$> TypeAlias_Type a |}.

Definition erase_Request (r : Request) : Request :=
  {| Request_BaseElement := Request_BaseElement r;
     Method := Method r;
     TypeName := TypeName r;
     Result := erase <$> Result r;
     MessageDirection := MessageDirection r;
     Params := erase <$> Params r;
     PartialResult := erase <$> PartialResult r;
     RegistrationOptions := erase <$> RegistrationOptions r;
     RegistrationMethod := RegistrationMethod r;
     ErrorData := erase <$> ErrorData r |}.

(** The catalog without its resolution handles: every field of every
    definition, and every field of every schema node but [Found]. *)
Definition erase_Model (m : Model) : Model :=
  {| Model_MetaData := Model_MetaData m;
     Requests := erase_Request <$> Requests m;
     Structures := erase_Structure <$> Structures m;
     Enumerations := erase_Enumeration <$> Enumerations m;
     Notifications := erase_Request <$> Notifications m;
     TypeAliases := erase_TypeAlias <$> TypeAliases m |}.

(** ** Name lookup, as a function of the catalog *)

(** The definitions in the order of the scan: structures, then
    enumerations, then type aliases. *)
Inductive definition : Type :=
| IsStructure (i : nat) (s : Structure)
| IsEnumeration (i : nat) (e : Enumeration)
| IsTypeAlias (i : nat) (a : TypeAlias).

Definition definition_name (d : definition) : string :=
  match d with
  | IsStructure _ s => Structure_Name s
  | IsEnumeration _ e => Enumeration_Name e
  | IsTypeAlias _ a => TypeAlias_Name a
  end.

Definition scan_order (m : Model) : list definition :=
  imap IsStructure (Structures m) ++ imap IsEnumeration (Enumerations m)
  ++ imap IsTypeAlias (TypeAliases m).

(** The first definition of the scan order that bears the name. *)
Definition first_match (m : Model) (name : string) : option definition :=
  List.find (λ d, bool_decide (definition_name d = name)) (scan_order m).

(** The handle for a definition. *)
Definition handle (name : string) (d : definition) : AnyRef :=
  match d with
  | IsStructure i _ =>
      {| AnyRef_Name := name; AnyRef_Structure := Some i;
         AnyRef_Enumeration := None; AnyRef_TypeAlias := None |}
  | IsEnumeration i _ =>
      {| AnyRef_Name := name; AnyRef_Structure := None;
         AnyRef_Enumeration := Some i; AnyRef_TypeAlias := None |}
  | IsTypeAlias i _ =>
      {| AnyRef_Name := name; AnyRef_Structure := None;
         AnyRef_Enumeration := None; AnyRef_TypeAlias := Some i |}
  end.

Definition lookup_name (m : Model) (name : string) : option AnyRef :=
  handle name <$> first_match m name.

(** ** Catalogs the resolver gets through *)

(** The lookups [Model_ResolveRefs] makes on the node [s] if none of
    them fails, in order: the names of the references it comes to,
    following the pointers the function follows.  [None] stands where it
    would read through a nil pointer. *)
Fixpoint visited (s : Schema) : list (option string) :=
  match Schema_Reference s with
  | Some ref => [Some (ReferenceSchema_Name ref)]
  | None =>
  match Schema_Array s with
  | Some a => from_option visited [None] (Element a)
  | None =>
      from_option (λ o, concat (map (from_option visited [None]) (Items o)))
        [] (Schema_Or s)
      ++ from_option (λ o, concat (map (from_option visited [None]) (Items o)))
           [] (Schema_And s)
      ++ from_option
           (λ mp, from_option visited [None] (Key mp)
                  ++ from_option visited [None] (Value mp))
           [] (Schema_Map s)
      ++ from_option (λ o, concat (map (from_option visited [None]) (Items o)))
           [] (Schema_Tuple s)
  end
  end.

(** The same for a pointer to a node. *)
Definition visited_through (p : option Schema) : list (option string) :=
  from_option visited [None] p.

(** The lookups of a list made one after the other, up to the first
    that does not return a handle. *)
Fixpoint lookups (AnyRef_ : string → Model → Model * outcome AnyRef)
    (l : list (option string)) (m : Model) : Model * outcome unit :=
  match l with
  | [] => (m, Ok ())
  | None :: _ => (m, Panic NilDereference)
  | Some name :: rest =>
      let '(m1, found) := AnyRef_ name m in
      if is_Ok found then lookups AnyRef_ rest m1
      else (m1, outcome_map (λ _, ()) found)
  end.

(** What a call on a node does to the store and how it ends is told by
    [lookups] on the references it comes to; the node it leaves differs
    from the node it found by handles only. *)
Definition told_by_lookups (AnyRef_ : string → Model → Model * outcome AnyRef)
    (s : Schema) : Prop :=
  ∀ m, let '(m', s', r) := Model_ResolveRefs AnyRef_ s m in
       (m', r) = lookups AnyRef_ (visited s) m ∧ erase s' = erase s.

(** [Kind] names a pointer that is set, for the two kinds the emitter
    reads through. *)
Definition kind_set (s : Schema) : bool :=
  (negb (String.eqb (Schema_Kind s) "reference")
   || bool_decide (is_Some (Schema_Reference s)))
  && (negb (String.eqb (Schema_Kind s) "base")
      || bool_decide (is_Some (Schema_Base s))).

(** The references that resolving structure [i] comes to nest less than
    [d] structures deep: no chain of [d] structures, each holding a
    reference to the next, starts at [i].  With [total], moreover, every
    such reference names a definition of the catalog, no pointer on the
    way is nil, and the properties' nodes have their [Kind] set as in
    [kind_set]. *)
Fixpoint within (total : bool) (d : nat) (m : Model) (i : nat) : bool :=
  match d with
  | 0 => false
  | S d' =>
      match Structures m !! i with
      | None => false
      | Some s =>
          forallb
            (λ p,
               forallb
                 (λ v,
                    match v with
                    | None => negb total
                    | Some name =>
                        match scan Structure_Name (Structures m) name with
                        | Some j => within total d' m j
                        | None =>
                            negb total
                            || bool_decide
                                 (is_Some
                                    (scan Enumeration_Name (Enumerations m)
                                       name))
                            || bool_decide
                                 (is_Some
                                    (scan TypeAlias_Name (TypeAliases m) name))
                        end
                    end)
                 (visited_through (Property_Type p))
               && (negb total
                   || from_option kind_set false (Property_Type p)))
            (Properties s)
      end
  end.

(** ** What the emitter finds after resolution *)

(** The reference at the top of property [k] of structure [i], if there
    is one, holds the handle of its name's lookup. *)
Definition linked (m : Model) (i k : nat) : Prop :=
  ∀ s ref, property_type m i k = Some s → Schema_Reference s = Some ref →
    ∃ h, Found ref = Some h ∧ lookup_name m (ReferenceSchema_Name ref) = Some h.

(** The same, with [R] on the structure the handle leads to, if it
    leads to one. *)
Definition linked_with (R : nat → Prop) (m : Model) (i k : nat) : Prop :=
  ∀ s ref, property_type m i k = Some s → Schema_Reference s = Some ref →
    ∃ h, Found ref = Some h
         ∧ lookup_name m (ReferenceSchema_Name ref) = Some h
         ∧ ∀ j, AnyRef_Structure h = Some j → R j.

(** All properties of structure [i] are linked, and so are, less than
    [d] structures deep, those of the structures their handles lead to. *)
Fixpoint ready (d : nat) (m : Model) (i : nat) : Prop :=
  match d with
  | 0 => False
  | S d' => ∀ k, linked_with (ready d' m) m i k
  end.

(** A store reached from another by resolution steps: nothing but
    handles differs, and the links that were there are still there. *)
Definition resolves_to (m m' : Model) : Prop :=
  erase_Model m' = erase_Model m ∧ ∀ i k, linked m i k → linked m' i k.

(** ** The text of a structure, as a function of the unresolved catalog *)

Section Emitted.

Variable ToGoPascal : string → string.
Variable m : Model.

(** The definition the node refers to, when its kind is reference. *)
Definition referred (ty : Schema) : option definition :=
  if String.eqb (Schema_Kind ty) "reference" then
    ref ← Schema_Reference ty; first_match m (ReferenceSchema_Name ref)
  else None.

(** The type name of a field, by the kind of the property's node. *)
Definition expected_type (ty : Schema) : string :=
  if String.eqb (Schema_Kind ty) "reference" then
    match referred ty with
    | Some (IsStructure _ s) => "*" +:+ Structure_Name s
    | Some (IsEnumeration _ e) => Enumeration_Name e
    | Some (IsTypeAlias _ a) => TypeAlias_Name a
    | None => EmptyString
    end
  else if String.eqb (Schema_Kind ty) "base" then
    match Schema_Base ty with
    | Some base =>
        if String.eqb (BaseSchema_Name base) "string" then "string"
        else EmptyString
    | None => EmptyString
    end
  else EmptyString.

(** One field per property, in the order of the properties. *)
Definition expected_fields (props : list Property) : list string :=
  map (λ p, field (ToGoPascal (Property_Name p))
              (from_option expected_type EmptyString (Property_Type p))
              (Property_Name p))
    props.

(** The declarations of the structures the properties refer to, each
    with the declarations it needs before it, and then the declaration
    of structure [i] itself. *)
Fixpoint emitted (d : nat) (i : nat) : string :=
  match d with
  | 0 => EmptyString
  | S d' =>
      match Structures m !! i with
      | None => EmptyString
      | Some s =>
          String.concat EmptyString
            (map (λ p,
                    match Property_Type p ≫= referred with
                    | Some (IsStructure j _) => emitted d' j
                    | _ => EmptyString
                    end)
               (Properties s))
          +:+ declaration (Structure_Name s) (expected_fields (Properties s))
      end
  end.

End Emitted.

(** The resolver on a node, with [Model_AnyRef] and [Model_Structure]
    tied together. *)
Definition ResolveRefs (fuel : nat) (s : Schema) (m : Model)
  : Model * Schema * outcome unit :=
  Model_ResolveRefs (Model_AnyRef (Model_Structure fuel)) s m.

(** A property's [Optional] flag set to what [f] says, everywhere. *)
Definition with_Optional (f : nat → nat → bool) (m : Model) : Model :=
  Model_with_Structures
    (imap (λ i, Structure_with_Properties
                  (imap (λ k p,
                           {| Property_BaseElement := Property_BaseElement p;
                              Property_Name := Property_Name p;
                              Property_Type := Property_Type p;
                              Optional := f i k |}))))
    m.


(** ** Sample catalogs *)

Module Sample.

Definition base (name : string) : Schema :=
  mkSchema no_BaseElement "base"
    (Some {| BaseSchema_Kind := "base"; BaseSchema_Name := name |})
    None None None None None None None None.

Definition reference (name : string) : Schema :=
  mkSchema no_BaseElement "reference" None
    (Some {| ReferenceSchema_Kind := "reference";
             ReferenceSchema_Name := name; Found := None |})
    None None None None None None None.

Definition array (element : Schema) : Schema :=
  mkSchema no_BaseElement "array" None None
    (Some {| ArraySchema_Kind := "array"; Element := Some element |})
    None None None None None None.

Definition property (name : string) (ty : Schema) (optional : bool)
  : Property :=
  {| Property_BaseElement := no_BaseElement; Property_Name := name;
     Property_Type := Some ty; Optional := optional |}.

Definition structure (name : string) (props : list Property) : Structure :=
  {| Structure_BaseElement := no_BaseElement; Structure_Name := name;
     Properties := props; Documentations := EmptyString;
     Extends := []; Mixins := [] |}.

Definition enumeration (name : string) : Enumeration :=
  {| Enumeration_BaseElement := no_BaseElement; Enumeration_Name := name;
     Enumeration_Type := Some (base "uinteger"); Values := [];
     SupportsCustomValues := false |}.

Definition alias (name : string) : TypeAlias :=
  {| TypeAlias_BaseElement := no_BaseElement; TypeAlias_Name := name;
     TypeAlias_Type := Some (base "string") |}.

Definition catalog (structures : list Structure)
    (enumerations : list Enumeration) (aliases : list TypeAlias) : Model :=
  {| Model_MetaData := {| MetaData_Version := "3.17.0" |};
     Requests := []; Structures := structures;
     Enumerations := enumerations; Notifications := [];
     TypeAliases := aliases |}.

(** The catalog of section 8 of the specification. *)
Definition position : Model :=
  catalog
    [structure "Position"
       [property "line" (base "string") false;
        property "character" (base "string") true]]
    [] [].

(** A structure with a property of a base kind that has no mapping. *)
Definition flagged : Model :=
  catalog [structure "Flagged" [property "on" (base "boolean") false]] [] [].

(** A structure with a property of array kind. *)
Definition tagged : Model :=
  catalog
    [structure "Tagged" [property "tags" (array (base "string")) true]] [] [].

(** A structure that refers to itself, as [SelectionRange] does in the
    meta-model of the protocol. *)
Definition selection : Model :=
  catalog
    [structure "SelectionRange"
       [property "parent" (reference "SelectionRange") true]]
    [] [].

(** [Range] is there; what it refers to is not. *)
Definition dangling : Model :=
  catalog
    [structure "Location" [property "range" (reference "Range") false];
     structure "Range" [property "start" (reference "Position") false]]
    [] [].

(** A part of the meta-model around [Diagnostic]. *)
Definition diagnostic : Model :=
  catalog
    [structure "Diagnostic"
       [property "range" (reference "Range") false;
        property "severity" (reference "DiagnosticSeverity") true;
        property "source" (base "string") true;
        property "data" (reference "LSPAny") true];
     structure "Range"
       [property "start" (base "string") false;
        property "end" (base "string") false]]
    [enumeration "DiagnosticSeverity"]
    [alias "LSPAny"].

(** Two structures that refer to each other. *)
Definition mutual : Model :=
  catalog
    [structure "Outer" [property "inner" (reference "Inner") false];
     structure "Inner" [property "outer" (reference "Outer") true]]
    [] [].

(** The store after [m.Structure("Diagnostic")] has returned. *)
Definition resolved : Model :=
  Eval vm_compute in (Model_Structure 2 "Diagnostic" diagnostic).1.

(** The casing of [strcase.ToGoPascal] on the names used here, which
    are single lower-case words: the first letter in upper case. *)
Definition pascal (s : string) : string :=
  match s with
  | EmptyString => EmptyString
  | String c rest => String (upper c) rest
  end.

End Sample.

Module SampleDocument.

(** [{"kind": "base", "name": "string", "since": "3.17.0"}] *)
Definition base_since : JSON :=
  JObject [("kind", JString "base"); ("name", JString "string");
           ("since", JString "3.17.0")].

(** [{"kind": "array", "element": {"kind": "base", "name": "string"},
      "documentation": "The tags."}] *)
Definition array_documented : JSON :=
  JObject [("kind", JString "array");
           ("element",
            JObject [("kind", JString "base"); ("name", JString "string")]);
           ("documentation", JString "The tags.")].

(** [{"kind": "array", "element": {"kind": "base", "name": "string"}}] *)
Definition array_of_string : JSON :=
  JObject [("kind", JString "array");
           ("element",
            JObject [("kind", JString "base"); ("name", JString "string")])].

End SampleDocument.

(** The text [out'] is the text [out] with more text after it. *)
Definition extends (out out' : string) : Prop := ∃ more, out' = out +:+ more.

(** The entries of [types] for the properties [props], given the type
    names chosen for them. *)
Definition entries (ToGoPascal : string → string) (props : list Property)
    (typeNames : list string) : list string :=
  zip_with
    (λ p typeName,
       field (ToGoPascal (Property_Name p)) typeName (Property_Name p))
    props typeNames.

(** How a call ends when the catalog is [within] the depth: with a value
    if the catalog is also total, and else in any way but by running out
    of fuel. *)
Definition good (total : bool) {A : Type} (r : outcome A) : Prop :=
  if total then is_Ok r = true else r ≠ Diverge.

(** The test [within] makes of a lookup, for the catalog [m] and the
    depth [d] left. *)
Definition lookup_within (total : bool) (d : nat) (m : Model)
    (v : option string) : bool :=
  match v with
  | None => negb total
  | Some name =>
      match scan Structure_Name (Structures m) name with
      | Some j => within total d m j
      | None =>
          negb total
          || bool_decide
               (is_Some (scan Enumeration_Name (Enumerations m) name))
          || bool_decide (is_Some (scan TypeAlias_Name (TypeAliases m) name))
      end
  end.

(** What the loop writes for one property: the declarations needed by
    the structure it refers to, that structure's included. *)
Definition emitted_for (ToGoPascal : string → string) (m : Model) (d : nat)
    (p : Property) : string :=
  match Property_Type p ≫= referred m with
  | Some (IsStructure j _) => emitted ToGoPascal m d j
  | _ => EmptyString
  end.

(** A definition without the resolution handles below it. *)
Definition erase_definition (d : definition) : definition :=
  match d with
  | IsStructure i s => IsStructure i (erase_Structure s)
  | IsEnumeration i e => IsEnumeration i (erase_Enumeration e)
  | IsTypeAlias i a => IsTypeAlias i (erase_TypeAlias a)
  end.

(** What the emitter needs of a property to write what is expected: a
    node whose kind is set, and, for a reference, the handle of its name,
    on which the nested call [PrintStruct_] writes what is expected. *)
Definition emits_as_expected (ToGoPascal : string → string) (m : Model)
    (PrintStruct_ : nat → string → string * outcome unit) (d : nat)
    (p : Property) : Prop :=
  ∃ ty, Property_Type p = Some ty
        ∧ kind_set ty = true
        ∧ (Schema_Kind ty = "reference" →
           ∀ reference, Schema_Reference ty = Some reference →
             ∃ h, Found reference = Some h
                  ∧ lookup_name m (ReferenceSchema_Name reference) = Some h
                  ∧ ∀ j out, AnyRef_Structure h = Some j →
                      PrintStruct_ j out
                      = (out +:+ emitted ToGoPascal m d j, Ok ())).

(** ** When resolution returns a structure *)

(** The test of one lookup: the pointer followed was not nil, and the
    name is that of a structure for which [resolvable_] holds or, when no
    structure bears it, that of an enumeration or of a type alias. *)
Definition lookup_resolvable (resolvable_ : nat → bool) (m : Model)
    (v : option string) : bool :=
  match v with
  | None => false
  | Some name =>
      match scan Structure_Name (Structures m) name with
      | Some j => resolvable_ j
      | None =>
          bool_decide (is_Some (scan Enumeration_Name (Enumerations m) name))
          || bool_decide (is_Some (scan TypeAlias_Name (TypeAliases m) name))
      end
  end.

(** Every lookup that resolving structure [i] comes to passes that
    test, the structures among them less than [d] deep. *)
Fixpoint resolvable (d : nat) (m : Model) (i : nat) : bool :=
  match d with
  | 0 => false
  | S d' =>
      match Structures m !! i with
      | None => false
      | Some s =>
          forallb
            (λ p, forallb (lookup_resolvable (resolvable d' m) m)
                    (visited_through (Property_Type p)))
            (Properties s)
      end
  end.

(** Structure [i] holds, at a node the resolver comes to from one of
    its properties, a reference to the name whose scan gives structure
    [j]. *)
Definition refers_to (m : Model) (i j : nat) : Prop :=
  ∃ s p name,
    Structures m !! i = Some s ∧ p ∈ Properties s
    ∧ Some name ∈ visited_through (Property_Type p)
    ∧ scan Structure_Name (Structures m) name = Some j.

(** A chain of such references, one at least, from [i] to [j]. *)
Inductive reaches (m : Model) : nat → nat → Prop :=
| reaches_once i j : refers_to m i j → reaches m i j
| reaches_more i j k : refers_to m i j → reaches m j k → reaches m i k.

(** ** What the resolver has no pointer into *)

(** The catalog with the types of the properties of its structures
    taken out: all of a structure but [Properties[k].Type], and all the
    requests, notifications, enumerations and type aliases, with the
    handles their nodes hold. *)
Definition beside_property_types (m : Model) : Model :=
  Model_with_Structures
    (fmap (Structure_with_Properties (fmap (Property_with_Type None)))) m.

(** ** More sample catalogs *)

Module MoreSamples.

(** A plain property before a reference, as in [TextEdit] of the
    meta-model. *)
Definition text_edit : Model :=
  Sample.catalog
    [Sample.structure "TextEdit"
       [Sample.property "newText" (Sample.base "string") false;
        Sample.property "range" (Sample.reference "Range") false];
     Sample.structure "Range"
       [Sample.property "start" (Sample.base "string") false;
        Sample.property "end" (Sample.base "string") false]]
    [] [].

(** [Range] of the meta-model: both ends are positions. *)
Definition range : Model :=
  Sample.catalog
    [Sample.structure "Range"
       [Sample.property "start" (Sample.reference "Position") false;
        Sample.property "end" (Sample.reference "Position") false];
     Sample.structure "Position"
       [Sample.property "line" (Sample.base "uinteger") false;
        Sample.property "character" (Sample.base "uinteger") false]]
    [] [].

(** [Location] of the meta-model, with what it refers to. *)
Definition location : Model :=
  Sample.catalog
    [Sample.structure "Location"
       [Sample.property "uri" (Sample.base "string") false;
        Sample.property "range" (Sample.reference "Range") false];
     Sample.structure "Range"
       [Sample.property "start" (Sample.reference "Position") false;
        Sample.property "end" (Sample.reference "Position") false];
     Sample.structure "Position"
       [Sample.property "line" (Sample.base "uinteger") false;
        Sample.property "character" (Sample.base "uinteger") false]]
    [] [].

(** The store after [m.Structure("Location")] has returned. *)
Definition location_resolved : Model :=
  Eval vm_compute in (Model_Structure 3 "Location" location).1.

End MoreSamples.

(** ** The store after resolution *)

(** The node [s] with, at every reference the resolver comes to from
    it, the handle of the lookup of the reference's name in the catalog
    [m].  The pointers followed are those [Model_ResolveRefs] follows: a
    reference ends the walk, an array leads to its element only, and
    else the members of [Or], [And], [Map] and [Tuple] are walked. *)
Fixpoint link (m : Model) (s : Schema) : Schema :=
  match Schema_Reference s with
  | Some ref =>
      Schema_with_Reference
        (Some (ReferenceSchema_with_Found
                 (lookup_name m (ReferenceSchema_Name ref)) ref)) s
  | None =>
  match Schema_Array s with
  | Some a =>
      Schema_with_Array
        (Some (ArraySchema_with_Element (link m <$> Element a) a)) s
  | None =>
      Schema_with_composites
        ((λ o, ItemsSchema_with_Items
                 (fmap (M:=list) (fmap (M:=option) (link m)) (Items o)) o)
           <$> Schema_Or s)
        ((λ o, ItemsSchema_with_Items
                 (fmap (M:=list) (fmap (M:=option) (link m)) (Items o)) o)
           <$> Schema_And s)
        ((λ mp, {| MapSchema_Kind := MapSchema_Kind mp;
                   Key := link m <$> Key mp;
                   Value := link m <$> Value mp |}) <$> Schema_Map s)
        ((λ o, ItemsSchema_with_Items
                 (fmap (M:=list) (fmap (M:=option) (link m)) (Items o)) o)
           <$> Schema_Tuple s)
        s
  end
  end.

(** Property [k] of structure [i] holds, at every reference the
    resolver comes to from it, the handle of the name's lookup. *)
Definition settled_at (m : Model) (i k : nat) : Prop :=
  ∀ ty, property_type m i k = Some ty → link m ty = ty.

(** So do all properties of structure [i] and, [d] references deep,
    those of the structures these references name. *)
Fixpoint settled (d : nat) (m : Model) (i : nat) : Prop :=
  match d with
  | 0 => True
  | S d' =>
      ∀ k, settled_at m i k
           ∧ ∀ name j,
               Some name ∈ visited_through (property_type m i k) →
               scan Structure_Name (Structures m) name = Some j →
               settled d' m j
  end.

(** A store reached from another by resolution: nothing but handles
    differs, and the properties that were settled still are. *)
Definition settles_to (m m' : Model) : Prop :=
  erase_Model m' = erase_Model m
  ∧ ∀ i k, settled_at m i k → settled_at m' i k.

(** A call on the node [s] that returns without error, on a store that
    differs from [m0] by handles only, leaves the node linked. *)
Definition links (AnyRef_ : string → Model → Model * outcome AnyRef)
    (m0 : Model) (s : Schema) : Prop :=
  ∀ m m' s',
    erase_Model m = erase_Model m0 →
    Model_ResolveRefs AnyRef_ s m = (m', s', Ok ()) →
    s' = link m0 s.

(** ** The shape of a decoded node *)

(** The [Kind] field of the variant struct that the node's own [Kind]
    names, if that variant is set. *)
Definition variant_kind (s : Schema) : option string :=
  let kind := Schema_Kind s in
  if String.eqb kind "array" then ArraySchema_Kind <$> Schema_Array s
  else if String.eqb kind "or" then ItemsSchema_Kind <$> Schema_Or s
  else if String.eqb kind "and" then ItemsSchema_Kind <$> Schema_And s
  else if String.eqb kind "reference" then
    ReferenceSchema_Kind <$> Schema_Reference s
  else if String.eqb kind "base" then BaseSchema_Kind <$> Schema_Base s
  else if String.eqb kind "map" then MapSchema_Kind <$> Schema_Map s
  else if String.eqb kind "stringLiteral" then
    StringLiteralSchema_Kind <$> Schema_StringLiteral s
  else if String.eqb kind "literal" then
    LiteralSchema_Kind <$> Schema_Literal s
  else if String.eqb kind "tuple" then ItemsSchema_Kind <$> Schema_Tuple s
  else None.

(** The node without its [Kind] and without the variant that [kind]
    names: the metadata and the eight other variant pointers. *)
Definition other_variants (kind : string) (s : Schema) : Schema :=
  mkSchema (Schema_BaseElement s) EmptyString
    (if String.eqb kind "base" then None else Schema_Base s)
    (if String.eqb kind "reference" then None else Schema_Reference s)
    (if String.eqb kind "array" then None else Schema_Array s)
    (if String.eqb kind "or" then None else Schema_Or s)
    (if String.eqb kind "and" then None else Schema_And s)
    (if String.eqb kind "map" then None else Schema_Map s)
    (if String.eqb kind "stringLiteral" then None else Schema_StringLiteral s)
    (if String.eqb kind "literal" then None else Schema_Literal s)
    (if String.eqb kind "tuple" then None else Schema_Tuple s).

(** What a member named [name] (folded) with value [v] makes of a
    [Kind] field that held [kind]. *)
Definition kind_after (name : string) (v : JSON) (kind : string) : string :=
  if String.eqb name "KIND" then
    match v with JString x => x | _ => kind end
  else kind.

(** The field table [field] has a [Kind] field, read by [kindof], that
    the member [kind] fills as it fills the [Kind] of [explore]. *)
Definition has_Kind {T : Type}
    (field : string → JSON → T → flags → option (step T))
    (kindof : T → string) : Prop :=
  (∀ name v t fl t' fl',
     field name v t fl = Some (Next t' fl') →
     kindof t' = kind_after name v (kindof t))
  ∧ (∀ v t fl, field "KIND" v t fl ≠ None).

(** [P] holds of the node and of every node below it. *)
Fixpoint everywhere (P : Schema → bool) (s : Schema) : bool :=
  P s
  && from_option (λ a, from_option (everywhere P) true (Element a)) true
       (Schema_Array s)
  && from_option
       (λ o, forallb (from_option (everywhere P) true) (Items o)) true
       (Schema_Or s)
  && from_option
       (λ o, forallb (from_option (everywhere P) true) (Items o)) true
       (Schema_And s)
  && from_option
       (λ mp, from_option (everywhere P) true (Key mp)
              && from_option (everywhere P) true (Value mp)) true
       (Schema_Map s)
  && from_option
       (λ o, forallb (from_option (everywhere P) true) (Items o)) true
       (Schema_Tuple s).

(** Whatever [Schema_UnmarshalJSON] decodes from [b] into a fresh node
    has [P] everywhere; for an array, so have its elements. *)
Definition decodes_with (P : Schema → bool) (b : JSON) : Prop :=
  ∀ s, Schema_UnmarshalJSON new_Schema b = Decoded s →
       everywhere P s = true.

Definition decodes_with_deep (P : Schema → bool) (b : JSON) : Prop :=
  decodes_with P b
  ∧ match b with
    | JArray elements => Forall (decodes_with P) elements
    | _ => True
    end.

(** A node with one variant: the variant that [Kind] names is set, with
    the same [Kind] in it, no other variant is set, and a reference holds
    no handle. *)
Definition just_decoded (s : Schema) : bool :=
  let kind := Schema_Kind s in
  bool_decide (variant_kind s = Some kind)
  && Bool.eqb (bool_decide (is_Some (Schema_Base s))) (String.eqb kind "base")
  && Bool.eqb (bool_decide (is_Some (Schema_Reference s)))
       (String.eqb kind "reference")
  && Bool.eqb (bool_decide (is_Some (Schema_Array s)))
       (String.eqb kind "array")
  && Bool.eqb (bool_decide (is_Some (Schema_Or s))) (String.eqb kind "or")
  && Bool.eqb (bool_decide (is_Some (Schema_And s))) (String.eqb kind "and")
  && Bool.eqb (bool_decide (is_Some (Schema_Map s))) (String.eqb kind "map")
  && Bool.eqb (bool_decide (is_Some (Schema_StringLiteral s)))
       (String.eqb kind "stringLiteral")
  && Bool.eqb (bool_decide (is_Some (Schema_Literal s)))
       (String.eqb kind "literal")
  && Bool.eqb (bool_decide (is_Some (Schema_Tuple s)))
       (String.eqb kind "tuple")
  && from_option (λ r, negb (bool_decide (is_Some (Found r)))) true
       (Schema_Reference s).

Module MoreDocuments.

(** The node that [SampleDocument.array_of_string] makes of a receiver
    that held a reference to [Range]: the reference is still there. *)
Definition array_over_reference : Schema :=
  mkSchema no_BaseElement "array" None
    (Schema_Reference (Sample.reference "Range"))
    (Schema_Array (Sample.array (Sample.base "string")))
    None None None None None None.

End MoreDocuments.

(** ** The emitter on a writer (gen.go 43-56, 58-97) *)

Section Writer.

(** An [io.Writer]: its state, its errors, and its [Write], which
    returns the error or nil (the count of bytes written is not used). *)
Variables W E : Type.
Variable Write : string → W → W * option E.

(** [func (p *pp) p(format string, args ...interface{})], on the text
    that [fmt.Sprintf] made: one [Write], and [panic(err)] if it returns
    an error.  A call ends as [inl] says, or with the panic of the
    writer's error, [inr]. *)
Definition pp_p (text : string) (w : W) : W * (outcome unit + E) :=
  let '(w', err) := Write text w in
  (w', match err with None => inl (Ok ()) | Some e => inr e end).

Variable ToGoPascal : string → string.
Variable m : Model.

(** [p.PrintStruct], as the loop calls it on a referenced structure. *)
Variable PrintStruct_ : nat → W → W * (outcome unit + E).

(** The [switch prop.Type.Kind] of one turn of the loop, with the
    writer in the place of the text. *)
Definition type_name_to (prop : Property) (w : W)
  : W * (outcome string + E) :=
  match Property_Type prop with
  | None => (w, inl (Panic NilDereference))
  | Some ty =>
      if String.eqb (Schema_Kind ty) "reference" then
        match Schema_Reference ty with
        | None => (w, inl (Panic NilDereference))
        | Some reference =>
        match Found reference with
        | None =>
            (w,
             inl (Panic (PanicMsg
                           ("ref not found: "
                            +:+ ReferenceSchema_Name reference))))
        | Some ref =>
        match AnyRef_Structure ref with
        | Some structure =>
            let '(w1, r) := PrintStruct_ structure w in
            (w1,
             match r with
             | inl (Ok _) =>
                 match Structures m !! structure with
                 | Some s => inl (Ok ("*" +:+ Structure_Name s))
                 | None => inl (Panic NilDereference)
                 end
             | inl r' => inl (outcome_map (λ _, EmptyString) r')
             | inr e => inr e
             end)
        | None =>
        match AnyRef_Enumeration ref with
        | Some enumeration =>
            (w,
             match Enumerations m !! enumeration with
             | Some e => inl (Ok (Enumeration_Name e))
             | None => inl (Panic NilDereference)
             end)
        | None =>
        match AnyRef_TypeAlias ref with
        | Some alias =>
            (w,
             match TypeAliases m !! alias with
             | Some a => inl (Ok (TypeAlias_Name a))
             | None => inl (Panic NilDereference)
             end)
        | None => (w, inl (Panic (PanicMsg "not implemented")))
        end
        end
        end
        end
        end
      else if String.eqb (Schema_Kind ty) "base" then
        match Schema_Base ty with
        | None => (w, inl (Panic NilDereference))
        | Some base =>
            if String.eqb (BaseSchema_Name base) "string"
            then (w, inl (Ok "string"))
            else (w, inl (Ok EmptyString))
        end
      else (w, inl (Ok EmptyString))
  end.

(** [for _, prop := range s.Properties { ...; types = append(types, ...) }] *)
Fixpoint fields_to (props : list Property) (types : list string) (w : W)
  : W * (outcome (list string) + E) :=
  match props with
  | [] => (w, inl (Ok types))
  | prop :: rest =>
      let key := ToGoPascal (Property_Name prop) in
      let '(w1, r) := type_name_to prop w in
      match r with
      | inl (Ok typeName) =>
          fields_to rest (types ++ [field key typeName (Property_Name prop)])
            w1
      | inl r' => (w1, inl (outcome_map (λ _, types) r'))
      | inr e => (w1, inr e)
      end
  end.

(** [for _, t := range types { p.p("\t%s\n", t) }] *)
Fixpoint lines_to (types : list string) (w : W) : W * (outcome unit + E) :=
  match types with
  | [] => (w, inl (Ok ()))
  | t :: rest =>
      let '(w1, r) := pp_p (tab +:+ t +:+ newline) w in
      match r with
      | inl (Ok _) => lines_to rest w1
      | _ => (w1, r)
      end
  end.

(** The body of [PrintStruct] on the structure behind the handle [s]:
    the loop, then the header, the lines and the closing brace, each by
    a call of [p.p]. *)
Definition PrintStruct_to_body (s : nat) (w : W) : W * (outcome unit + E) :=
  match Structures m !! s with
  | None => (w, inl (Panic NilDereference))
  | Some st =>
      let '(w1, r) := fields_to (Properties st) [] w in
      match r with
      | inl (Ok types) =>
          let '(w2, r2) :=
            pp_p ("type " +:+ Structure_Name st +:+ " struct {" +:+ newline)
              w1 in
          match r2 with
          | inl (Ok _) =>
              let '(w3, r3) := lines_to types w2 in
              match r3 with
              | inl (Ok _) => pp_p ("}" +:+ newline) w3
              | _ => (w3, r3)
              end
          | _ => (w2, r2)
          end
      | inl r' => (w1, inl (outcome_map (λ _, ()) r'))
      | inr e => (w1, inr e)
      end
  end.

End Writer.

(** [p.PrintStruct(s)] for the printer [newPrinter(out)]: the writer
    goes from [w] to the first component; each nested call takes one
    unit of fuel. *)
Fixpoint PrintStruct_to {W E : Type} (Write : string → W → W * option E)
    (ToGoPascal : string → string) (fuel : nat) (m : Model) (s : nat) (w : W)
  : W * (outcome unit + E) :=
  match fuel with
  | 0 => (w, inl Diverge)
  | S fuel' =>
      PrintStruct_to_body W E Write ToGoPascal m
        (PrintStruct_to Write ToGoPascal fuel' m) s w
  end.

(** [run], from the fetched model on, writing to the writer [w] (the
    program writes to [os.Stdout]). *)
Definition run_to {W E : Type} (Write : string → W → W * option E)
    (ToGoPascal : string → string) (fuel : nat) (name : string)
    (model : Model) (w : W) : Model * W * (outcome unit + E) :=
  let '(m1, r) := Model_Structure fuel name model in
  match r with
  | Ok diag =>
      let '(w1, r') := PrintStruct_to Write ToGoPascal fuel m1 diag w in
      (m1, w1, r')
  | _ => (m1, w, inl (outcome_map (λ _, ()) r))
  end.

(** A writer that takes everything: a buffer, to which [Write] adds the
    text; it has no errors. *)
Definition buffer_Write (text : string) (w : string)
  : string * option Empty_set :=
  (w +:+ text, None).

(** A writer that keeps the texts of the calls of [Write] it was given,
    the last one first, and accepts a call when [accepts] says so of the
    calls before it and of its text; else the call writes nothing and
    returns an error with the text refused. *)
Definition log_Write (accepts : list string → string → bool) (text : string)
    (w : list string) : list string * option string :=
  if accepts w text then (text :: w, None) else (w, Some text).

(** ** From the resolver to the emitter *)


(** ** Documents the model of the library covers *)

(** The names of the members of an object, as the library compares
    them with the names of fields. *)
Definition member_names (members : list (string * JSON)) : list string :=
  map (λ member, foldName member.1) members.

(** No object of the document, at any depth, has two members with the
    same name up to case, or a member named [found]. *)
Fixpoint plain (b : JSON) : bool :=
  match b with
  | JObject members =>
      bool_decide (NoDup (member_names members))
      && negb (bool_decide ("FOUND" ∈ member_names members))
      && forallb (λ member, plain member.2) members
  | JArray elements => forallb plain elements
  | _ => true
  end.

(** The decoder of schema nodes has an answer for the value: a node or
    an error; for an array, it has one for the elements too. *)
Definition covered (v : JSON) : Prop :=
  ∀ s, Schema_UnmarshalJSON s v ≠ Unmodelled.

Definition covered_deep (v : JSON) : Prop :=
  covered v
  ∧ match v with
    | JArray elements => Forall covered elements
    | _ => True
    end.
(** * Properties *)

(** ** The scans *)

Section Scan.

Context {A : Type} (name_of : A → string).

Lemma scan_Some (l : list A) (name : string) (i : nat) :
  scan name_of l name = Some i →
  ∃ x, l !! i = Some x ∧ name_of x = name.
Proof.
  revert i. induction l as [|x l IH]; intros i; simpl; [done|].
  destruct (String.eqb (name_of x) name) eqn:E.
  - intros [= <-]. exists x. split; [done|]. by apply String.eqb_eq.
  - destruct (scan name_of l name) as [j|]; simpl; [|done].
    intros [= <-]. destruct (IH j eq_refl) as (y & ? & ?). by exists y.
Qed.

Lemma scan_first (l : list A) (name : string) (i : nat) :
  scan name_of l name = Some i →
  ∀ j y, j < i → l !! j = Some y → name_of y ≠ name.
Proof.
  revert i. induction l as [|x l IH]; intros i; simpl; [done|].
  destruct (String.eqb (name_of x) name) eqn:E.
  - intros [= <-] j y Hj. lia.
  - destruct (scan name_of l name) as [i'|]; simpl; [|done].
    intros [= <-] [|j] y Hj; simpl.
    + intros [= <-]. by apply String.eqb_neq.
    + apply (IH i' eq_refl). lia.
Qed.

Lemma scan_None (l : list A) (name : string) :
  scan name_of l name = None → ∀ x, x ∈ l → name_of x ≠ name.
Proof.
  induction l as [|x l IH]; simpl; intros H y Hy.
  - by apply elem_of_nil in Hy.
  - destruct (String.eqb (name_of x) name) eqn:E; [done|].
    destruct (scan name_of l name) eqn:E'; [done|].
    apply elem_of_cons in Hy as [->|Hy]; [by apply String.eqb_neq | by apply IH].
Qed.

Lemma scan_fmap {B : Type} (g : B → A) (l : list B) (name : string) :
  scan name_of (g <$> l) name = scan (name_of ∘ g) l name.
Proof.
  induction l as [|x l IH]; csimpl; [done|]. by rewrite IH.
Qed.

(** The scan of one category, as a search of the tagged entries. *)
Lemma find_imap (C : nat → A → definition) (l : list A) (name : string) :
  (∀ i x, definition_name (C i x) = name_of x) →
  List.find (λ d, bool_decide (definition_name d = name)) (imap C l)
  = i ← scan name_of l name; C i <$> l !! i.
Proof.
  revert C. induction l as [|x l IH]; intros C HC; simpl; [done|].
  rewrite HC. destruct (String.eqb (name_of x) name) eqn:E.
  - apply String.eqb_eq in E. by rewrite bool_decide_eq_true_2.
  - apply String.eqb_neq in E. rewrite bool_decide_eq_false_2 by done.
    rewrite IH by (intros; apply HC).
    by destruct (scan name_of l name).
Qed.

End Scan.

Lemma find_app_or {A : Type} (P : A → bool) (l1 l2 : list A) :
  List.find P (l1 ++ l2)
  = match List.find P l1 with Some x => Some x | None => List.find P l2 end.
Proof.
  induction l1 as [|x l1 IH]; simpl; [done|]. by destruct (P x).
Qed.

(** [first_match] in terms of the three scans. *)
Lemma first_match_scans (m : Model) (name : string) :
  first_match m name
  = match scan Structure_Name (Structures m) name with
    | Some i => IsStructure i <$> Structures m !! i
    | None =>
        match scan Enumeration_Name (Enumerations m) name with
        | Some i => IsEnumeration i <$> Enumerations m !! i
        | None =>
            i ← scan TypeAlias_Name (TypeAliases m) name;
            IsTypeAlias i <$> TypeAliases m !! i
        end
    end.
Proof.
  unfold first_match, scan_order. rewrite !find_app_or.
  rewrite (find_imap Structure_Name), (find_imap Enumeration_Name),
    (find_imap TypeAlias_Name) by done.
  destruct (scan Structure_Name (Structures m) name) as [i|] eqn:E1; simpl.
  - destruct (scan_Some _ _ _ _ E1) as (x & -> & _). done.
  - destruct (scan Enumeration_Name (Enumerations m) name) as [i|] eqn:E2;
      simpl; [|done].
    destruct (scan_Some _ _ _ _ E2) as (x & -> & _). done.
Qed.

(** [m.Structure] returns the structure the scan found. *)
Lemma Model_Structure_found (fuel : nat) (name : string) (m m' : Model)
    (i : nat) :
  Model_Structure fuel name m = (m', Ok i) →
  scan Structure_Name (Structures m) name = Some i.
Proof.
  destruct fuel as [|fuel]; simpl; [done|].
  destruct (scan Structure_Name (Structures m) name) as [j|]; [|done].
  destruct (resolve_properties _ _ _ _ _) as [m1 r].
  destruct r; simpl; congruence.
Qed.

(** ** Name lookup *)

Lemma Model_ResolveRefs_unfold AnyRef_ (s : Schema) (m : Model) :
  Model_ResolveRefs AnyRef_ s m
  = ResolveRefs_body AnyRef_ (Model_ResolveRefs AnyRef_) s m.
Proof. by destruct s. Qed.

(** [m.AnyRef] by the first definition of the scan order that bears the
    name. *)
Lemma Model_AnyRef_first_match (fuel : nat) (name : string) (m : Model) :
  Model_AnyRef (Model_Structure fuel) name m
  = match first_match m name with
    | Some (IsStructure i s) =>
        let '(m1, r) := Model_Structure fuel name m in
        (m1, outcome_map (λ _, handle name (IsStructure i s)) r)
    | Some d => (m, Ok (handle name d))
    | None => (m, Err (RefNotFound name))
    end.
Proof.
  rewrite first_match_scans. unfold Model_AnyRef.
  destruct (scan Structure_Name (Structures m) name) as [i|] eqn:E1.
  - destruct (scan_Some _ _ _ _ E1) as (x & -> & _). simpl.
    destruct (Model_Structure fuel name m) as [m1 r] eqn:E.
    destruct r as [j| | |]; simpl; try done.
    apply Model_Structure_found in E. by simplify_eq.
  - destruct (scan Enumeration_Name (Enumerations m) name) as [i|] eqn:E2.
    + by destruct (scan_Some _ _ _ _ E2) as (x & -> & _).
    + destruct (scan TypeAlias_Name (TypeAliases m) name) as [i|] eqn:E3;
        simpl; [|done].
      by destruct (scan_Some _ _ _ _ E3) as (x & -> & _).
Qed.

(** C8, as amended.  Name lookup goes by the scan order structures,
    enumerations, type aliases, and by the first definition of that
    order bearing the name.  When that is an enumeration or a type alias,
    [Model_AnyRef] returns its handle at once.  When it is a structure,
    the lookup ends as [m.Structure] on that name ends, which resolves
    the structure's own properties first: the handle of that structure
    is returned if this succeeds, and else its error, its panic or no
    result; never the handle of an enumeration or alias of the same
    name.  With no match it returns the not-found error.  A name borne
    by a structure has a structure as its first match, whatever else
    bears it. *)
Theorem AnyRef_first_in_scan_order (fuel : nat) (name : string) (m : Model) :
  Model_AnyRef (Model_Structure fuel) name m
  = match first_match m name with
    | Some (IsStructure i s) =>
        let '(m1, r) := Model_Structure fuel name m in
        (m1, outcome_map (λ _, handle name (IsStructure i s)) r)
    | Some d => (m, Ok (handle name d))
    | None => (m, Err (RefNotFound name))
    end
  ∧ ((∃ s, s ∈ Structures m ∧ Structure_Name s = name) →
     ∃ i s, first_match m name = Some (IsStructure i s)).
Proof.
  split; [apply Model_AnyRef_first_match|].
  rewrite first_match_scans. intros (s & Hs & Hname).
  destruct (scan Structure_Name (Structures m) name) as [i|] eqn:E1.
  - destruct (scan_Some _ _ _ _ E1) as (x & -> & _). by exists i, x.
  - by destruct (scan_None _ _ _ E1 s Hs).
Qed.

(** C8 as stated fails: the first definition bearing the name [Range]
    is a structure of the catalog, yet the lookup does not return it,
    with whatever fuel, because [m.Structure] resolves the properties of
    [Range] first and [Position] is missing. *)
Lemma first_match_is_not_returned :
  (∃ s, first_match Sample.dangling "Range" = Some (IsStructure 1 s))
  ∧ (Model_AnyRef (Model_Structure 5) "Range" Sample.dangling).2
    = Err (RefNotFound "Position")
  ∧ ∀ fuel,
      is_Ok (Model_AnyRef (Model_Structure fuel) "Range" Sample.dangling).2
      = false.
Proof.
  split; [by eexists|]. split; [done|]. intros [|fuel]; [done|]. done.
Qed.

(** C6, as amended.  Resolving a reference node whose name no
    definition bears fails with the not-found error of that name and
    writes nothing.  When the first definition bearing the name is an
    enumeration or a type alias, it succeeds and attaches the handle.
    When it is a structure, it ends as [m.Structure] on that name ends,
    which resolves the structure's own properties first: the handle is
    attached if that succeeds, and its error is returned otherwise. *)
Theorem ResolveRefs_reference (fuel : nat) (s : Schema) (ref : ReferenceSchema)
    (m : Model) :
  Schema_Reference s = Some ref →
  ResolveRefs fuel s m
  = match first_match m (ReferenceSchema_Name ref) with
    | None => (m, s, Err (RefNotFound (ReferenceSchema_Name ref)))
    | Some (IsStructure i x) =>
        let '(m1, r) := Model_Structure fuel (ReferenceSchema_Name ref) m in
        (m1,
         if is_Ok r then
           Schema_with_Reference
             (Some (ReferenceSchema_with_Found
                      (Some (handle (ReferenceSchema_Name ref)
                               (IsStructure i x))) ref)) s
         else s,
         outcome_map (λ _, ()) r)
    | Some d =>
        (m,
         Schema_with_Reference
           (Some (ReferenceSchema_with_Found
                    (Some (handle (ReferenceSchema_Name ref) d)) ref)) s,
         Ok ())
    end.
Proof.
  intros Href. unfold ResolveRefs.
  pose proof (Model_AnyRef_first_match fuel (ReferenceSchema_Name ref) m)
    as HA.
  rewrite Model_ResolveRefs_unfold. unfold ResolveRefs_body.
  rewrite Href, HA.
  destruct (first_match m (ReferenceSchema_Name ref)) as [[i x|i x|i x]|];
    try done.
  destruct (Model_Structure fuel (ReferenceSchema_Name ref) m) as [m1 r].
  by destruct r.
Qed.

Lemma ResolveRefs_reference_witness :
  ResolveRefs 1 (Sample.reference "DiagnosticSeverity") Sample.diagnostic
  = (Sample.diagnostic,
     Schema_with_Reference
       (Some {| ReferenceSchema_Kind := "reference";
                ReferenceSchema_Name := "DiagnosticSeverity";
                Found := Some {| AnyRef_Name := "DiagnosticSeverity";
                                 AnyRef_Structure := None;
                                 AnyRef_Enumeration := Some 0;
                                 AnyRef_TypeAlias := None |} |})
       (Sample.reference "DiagnosticSeverity"),
     Ok ()).
Proof.
  exact (ResolveRefs_reference 1 (Sample.reference "DiagnosticSeverity") _
           Sample.diagnostic eq_refl).
Defined.

(** C6 as stated fails: [Range] is a structure of the catalog, yet the
    reference to it does not resolve, with whatever fuel, because
    [m.Structure] resolves the properties of [Range] first and
    [Position] is missing. *)
Lemma reference_to_present_name_fails :
  (∃ d, first_match Sample.dangling "Range" = Some d)
  ∧ ∀ fuel,
      (ResolveRefs fuel (Sample.reference "Range") Sample.dangling).2 ≠ Ok ().
Proof.
  split; [by eexists|]. intros [|fuel]; [done|]. done.
Qed.

(** ** The decoder of schema nodes *)

Lemma set_string_keeps v current fl : keeps_error fl (set_string v current fl).
Proof. destruct v; simpl; auto. Qed.

Lemma set_interface_keeps v fl : keeps_error fl (set_interface v fl).
Proof. destruct v; simpl; auto. Qed.

Lemma set_Found_keeps v current fl : keeps_error fl (set_Found v current fl).
Proof. destruct v; simpl; auto. Qed.

Lemma set_Schema_keeps U v current fl :
  keeps_error fl (set_Schema U v current fl).
Proof.
  unfold set_Schema. repeat case_match; simpl; auto.
Qed.

Lemma set_elements_keeps U elements fl :
  keeps_error fl (set_elements U elements fl).
Proof.
  revert fl. induction elements as [|v rest IH]; intros fl; simpl; [done|].
  pose proof (set_Schema_keeps U v None fl) as H1.
  destruct (set_Schema U v None fl) as [s fl1|]; [|done].
  pose proof (IH fl1) as H2.
  destruct (set_elements U rest fl1); simpl in *; auto.
Qed.

Lemma set_Schemas_keeps U v current fl :
  keeps_error fl (set_Schemas U v current fl).
Proof.
  destruct v; simpl; auto.
  destruct current; simpl; [apply set_elements_keeps | done].
Qed.

Lemma into_keeps {A T : Type} (r : step A) (assign : A → T) fl r' :
  into r assign = Some r' → keeps_error fl r → keeps_error fl r'.
Proof. intros [= <-] H. by destruct r. Qed.

Local Ltac field_keeps :=
  repeat case_match; try done;
  let H := fresh in intros H; apply (into_keeps _ _ _ _ H);
  first [ apply set_string_keeps | apply set_interface_keeps
        | apply set_Found_keeps | apply set_Schema_keeps
        | apply set_Schemas_keeps ].

Lemma ArraySchema_field_keeps U : field_keeps_error (ArraySchema_field U).
Proof. intros name v t fl r. unfold ArraySchema_field. field_keeps. Qed.

Lemma ItemsSchema_field_keeps U : field_keeps_error (ItemsSchema_field U).
Proof. intros name v t fl r. unfold ItemsSchema_field. field_keeps. Qed.

Lemma MapSchema_field_keeps U : field_keeps_error (MapSchema_field U).
Proof. intros name v t fl r. unfold MapSchema_field. field_keeps. Qed.

Lemma ReferenceSchema_field_keeps : field_keeps_error ReferenceSchema_field.
Proof. intros name v t fl r. unfold ReferenceSchema_field. field_keeps. Qed.

Lemma BaseSchema_field_keeps : field_keeps_error BaseSchema_field.
Proof. intros name v t fl r. unfold BaseSchema_field. field_keeps. Qed.

Lemma StringLiteralSchema_field_keeps :
  field_keeps_error StringLiteralSchema_field.
Proof. intros name v t fl r. unfold StringLiteralSchema_field. field_keeps. Qed.

Lemma LiteralSchema_field_keeps : field_keeps_error LiteralSchema_field.
Proof. intros name v t fl r. unfold LiteralSchema_field. field_keeps. Qed.

Section Strict.

Context {T : Type} (field : string → JSON → T → flags → option (step T)).
Hypothesis Hkeeps : field_keeps_error field.

Lemma decode_members_keeps strict members t fl :
  keeps_error fl (decode_members field strict members t fl).
Proof.
  revert t fl. induction members as [|[name v] rest IH]; intros t fl; simpl;
    [done|].
  destruct (field (foldName name) v t fl) as [[t' fl'|e]|] eqn:E; [|done|].
  - pose proof (Hkeeps _ _ _ _ _ E) as H1. pose proof (IH t' fl') as H2.
    simpl in H1. destruct (decode_members _ _ _ _ _); simpl in *; auto.
  - pose proof (IH t (if strict then save_error fl else fl)) as H2.
    destruct (decode_members _ _ _ _ _); simpl in *; [|done].
    intros H. apply H2. by destruct strict.
Qed.

(** Strict decoding ends with an error as soon as one member selects
    no field. *)
Lemma decode_members_unknown members t fl name v :
  (name, v) ∈ members →
  (∀ v t fl, field (foldName name) v t fl = None) →
  match decode_members field true members t fl with
  | Next _ fl' => saved_error fl' = true
  | Abort _ => True
  end.
Proof.
  intros Hin Hnone. revert t fl.
  induction members as [|[name' v'] rest IH]; intros t fl.
  - by apply elem_of_nil in Hin.
  - apply elem_of_cons in Hin as [[= <- <-]|Hin]; simpl.
    + rewrite Hnone.
      pose proof (decode_members_keeps true rest t (save_error fl)) as H.
      destruct (decode_members _ _ _ _ _); simpl in *; auto.
    + destruct (field (foldName name') v' t fl) as [[t' fl'|e]|]; [|done|];
        by apply IH.
Qed.

Lemma unmarshalStrict_unknown members elem kind assign name v :
  (name, v) ∈ members →
  (∀ v t fl, field (foldName name) v t fl = None) →
  unmarshalStrict field (JObject members) elem kind assign
  = DecodeError (UnmarshalSchemaType kind).
Proof.
  intros Hin Hnone. unfold unmarshalStrict, decode_struct.
  pose proof (decode_members_unknown members elem clean name v Hin Hnone).
  destruct (decode_members _ _ _ _ _) as [a fl|e]; simpl; [|done].
  by rewrite H.
Qed.

End Strict.

(** Reading the discriminator never leaves the model. *)
Lemma decode_members_explore members kind fl :
  unmodelled fl = false →
  match decode_members explore_field false members kind fl with
  | Next _ fl' => unmodelled fl' = false
  | Abort _ => False
  end.
Proof.
  revert kind fl. induction members as [|[name v] rest IH]; intros kind fl Hfl;
    simpl; [done|].
  unfold explore_field at 1.
  destruct (String.eqb (foldName name) "KIND"); [|by apply IH].
  destruct v; simpl; by apply IH.
Qed.

Lemma explore_modelled (b : JSON) : explore b ≠ Unmodelled.
Proof.
  unfold explore, decode_struct. destruct b; simpl; try done.
  pose proof (decode_members_explore members EmptyString clean eq_refl) as H.
  destruct (decode_members _ _ _ _ _) as [a fl|]; [|done]. simpl.
  rewrite H. by destruct (saved_error fl).
Qed.

Lemma UnmarshalJSON_unfold (s : Schema) (b : JSON) :
  Schema_UnmarshalJSON s b = UnmarshalJSON_body Schema_UnmarshalJSON s b.
Proof. by destruct b. Qed.

(** The decoder by the discriminator it read. *)
Lemma UnmarshalJSON_unknown (s : Schema) (b : JSON) (kind : string) :
  explore b = Decoded kind → kind ∉ known_kinds →
  Schema_UnmarshalJSON s b = DecodeError (UnknownSchemaKind kind).
Proof.
  intros He Hk. rewrite UnmarshalJSON_unfold. unfold UnmarshalJSON_body.
  rewrite He.
  repeat (case_match;
          [match goal with H : String.eqb _ _ = true |- _ =>
             apply String.eqb_eq in H; subst; exfalso; apply Hk;
             unfold known_kinds; repeat constructor end|]).
  done.
Qed.

(** A fragment whose discriminator is none of the nine kinds. *)
Lemma UnmarshalJSON_not_known (s : Schema) (b : JSON) :
  (∀ kind, kind ∈ known_kinds → explore b ≠ Decoded kind) →
  (explore b = DecodeError JsonError
   ∧ Schema_UnmarshalJSON s b = DecodeError JsonError)
  ∨ (∃ kind, explore b = Decoded kind ∧ (kind ∉ known_kinds)
      ∧ Schema_UnmarshalJSON s b = DecodeError (UnknownSchemaKind kind)).
Proof.
  intros H. destruct (explore b) as [kind|e|] eqn:He.
  - right. exists kind. split; [done|].
    assert (kind ∉ known_kinds) as Hk by (intros Hin; by apply (H kind)).
    split; [done|]. by apply UnmarshalJSON_unknown.
  - left. assert (e = JsonError) as ->.
    { unfold explore, decode_struct in He.
      assert (∀ r : step string,
                 match r with Abort _ => False | _ => True end →
                 finish r = DecodeError e → e = JsonError) as Hf.
      { intros [a fl|e'] Hr; [|done]. simpl.
        destruct (saved_error fl), (unmodelled fl); congruence. }
      eapply Hf; [|exact He]. destruct b; try done.
      pose proof (decode_members_explore members EmptyString clean eq_refl).
      by destruct (decode_members _ _ _ _ _). }
    split; [done|]. rewrite UnmarshalJSON_unfold. unfold UnmarshalJSON_body.
    by rewrite He.
  - by destruct (explore_modelled b).
Qed.


(** C3, as amended.  Every schema node has the metadata fields of
    [BaseElement], but the decoder never fills them: a node that was
    decoded holds the metadata the receiving node held before the call
    (none, for a fresh node).  And for each of the nine kinds, a fragment
    of that kind with a member named as one of the five metadata fields
    (up to case) is rejected by the strict decoding of the variant. *)
Theorem UnmarshalJSON_metadata :
  (∀ s b s', Schema_UnmarshalJSON s b = Decoded s' →
             Schema_BaseElement s' = Schema_BaseElement s)
  ∧ (∀ s members kind name v,
       kind ∈ known_kinds →
       explore (JObject members) = Decoded kind →
       (name, v) ∈ members →
       foldName name ∈ foldName <$> metadata_members →
       Schema_UnmarshalJSON s (JObject members)
       = DecodeError (UnmarshalSchemaType kind)).
Proof.
  split.
  - intros s b s'. rewrite UnmarshalJSON_unfold. unfold UnmarshalJSON_body.
    destruct (explore b) as [kind| |]; [|done..].
    unfold unmarshalStrict.
    repeat case_match; try done; intros [= <-]; done.
  - intros s members kind name v Hkind He Hin Hname.
    rewrite UnmarshalJSON_unfold. unfold UnmarshalJSON_body. rewrite He.
    assert (∀ T (field : string → JSON → T → flags → option (step T)),
               field_keeps_error field →
               (∀ n, n ∈ foldName <$> metadata_members →
                     ∀ v t fl, field n v t fl = None) →
               ∀ elem assign,
                 unmarshalStrict field (JObject members) elem kind assign
                 = DecodeError (UnmarshalSchemaType kind)) as Hstrict.
    { intros T field Hk Hnone elem assign.
      eapply unmarshalStrict_unknown; eauto. }
    assert (∀ n, n ∈ foldName <$> metadata_members →
                 n = "SINCE" ∨ n = "PROPOSED" ∨ n = "DEPRECATED"
                 ∨ n = "DOCUMENTATION" ∨ n = "SINCETAGS") as Hmeta.
    { intros n Hn. apply list_elem_of_In in Hn. simpl in Hn. intuition. }
    apply list_elem_of_In in Hkind. simpl in Hkind.
    destruct Hkind as [<-|[<-|[<-|[<-|[<-|[<-|[<-|[<-|[<-|[]]]]]]]]]]; simpl;
      apply Hstrict;
      first [ apply ArraySchema_field_keeps | apply ItemsSchema_field_keeps
            | apply MapSchema_field_keeps | apply ReferenceSchema_field_keeps
            | apply BaseSchema_field_keeps
            | apply StringLiteralSchema_field_keeps
            | apply LiteralSchema_field_keeps
            | intros n Hn ???;
              destruct (Hmeta n Hn) as [->|[->|[->|[->| ->]]]]; reflexivity ].
Qed.

Lemma UnmarshalJSON_metadata_witness :
  Schema_UnmarshalJSON new_Schema SampleDocument.array_documented
  = DecodeError (UnmarshalSchemaType "array").
Proof.
  apply (proj2 UnmarshalJSON_metadata new_Schema _ "array" "documentation"
           (JString "The tags.")).
  - unfold known_kinds. repeat constructor.
  - reflexivity.
  - repeat constructor.
  - vm_compute. repeat constructor.
Defined.

(** C3 as stated fails: a base node whose fragment carries [since] is not
    decoded. *)
Lemma metadata_member_is_rejected :
  Schema_UnmarshalJSON new_Schema SampleDocument.base_since
  = DecodeError (UnmarshalSchemaType "base").
Proof. reflexivity. Qed.

(** ** The emitter *)

Lemma append_assoc (a b c : string) : (a +:+ b) +:+ c = a +:+ b +:+ c.
Proof.
  induction a as [|x a IH]; [done|].
  change (String x ((a +:+ b) +:+ c) = String x (a +:+ b +:+ c)).
  by rewrite IH.
Qed.

Lemma append_nil_r (a : string) : a +:+ EmptyString = a.
Proof.
  induction a as [|x a IH]; [done|].
  change (String x (a +:+ EmptyString) = String x a). by rewrite IH.
Qed.

Lemma extends_refl (out : string) : extends out out.
Proof. exists EmptyString. by rewrite append_nil_r. Qed.

Lemma extends_trans (a b c : string) : extends a b → extends b c → extends a c.
Proof. intros [x ->] [y ->]. exists (x +:+ y). by rewrite append_assoc. Qed.

Lemma extends_append (a b : string) : extends a (a +:+ b).
Proof. by exists b. Qed.

Section Emitter.

Variable ToGoPascal : string → string.
Variable m : Model.
Variable PrintStruct_ : nat → string → string * outcome unit.

Hypothesis PrintStruct_extends :
  ∀ s out, extends out (PrintStruct_ s out).1.

Lemma type_name_extends prop out :
  extends out (type_name m PrintStruct_ prop out).1.
Proof.
  unfold type_name. repeat case_match; simpl; try apply extends_refl.
  all: match goal with H : PrintStruct_ ?s ?o = _ |- _ =>
         pose proof (PrintStruct_extends s o) as He; by rewrite H in He end.
Qed.

Lemma fields_extends props types out :
  extends out (fields ToGoPascal m PrintStruct_ props types out).1.
Proof.
  revert types out. induction props as [|p rest IH]; intros types out; simpl.
  - apply extends_refl.
  - pose proof (type_name_extends p out) as H1.
    destruct (type_name m PrintStruct_ p out) as [out1 r].
    destruct r; simpl in *; try done.
    eapply extends_trans; [exact H1|apply IH].
Qed.

(** The loop on [l1 ++ l2] is the loop on [l1], then the loop on [l2]. *)
Lemma fields_app l1 l2 types out :
  fields ToGoPascal m PrintStruct_ (l1 ++ l2) types out
  = let '(out1, r) := fields ToGoPascal m PrintStruct_ l1 types out in
    match r with
    | Ok types1 => fields ToGoPascal m PrintStruct_ l2 types1 out1
    | _ => (out1, r)
    end.
Proof.
  revert types out. induction l1 as [|p rest IH]; intros types out; simpl;
    [done|].
  destruct (type_name m PrintStruct_ p out) as [out1 r].
  destruct r; simpl; auto.
Qed.

(** When the loop ends, [types] has one more entry per property, in the
    order of the properties, each made by [field] from the property's
    name. *)
Lemma fields_entries props types out out' types' :
  fields ToGoPascal m PrintStruct_ props types out = (out', Ok types') →
  ∃ typeNames, length typeNames = length props
               ∧ types' = types ++ entries ToGoPascal props typeNames.
Proof.
  revert types out. induction props as [|p rest IH]; intros types out; simpl.
  - intros [= <- <-]. exists []. by rewrite app_nil_r.
  - destruct (type_name m PrintStruct_ p out) as [out1 r].
    destruct r as [typeName| | |]; simpl; try done.
    intros H. apply IH in H as (tns & Hlen & ->).
    exists (typeName :: tns). split; [simpl; by rewrite Hlen|].
    by rewrite <- app_assoc.
Qed.

(** A property that is not of kind reference writes nothing. *)
Lemma type_name_no_reference prop out :
  (∀ ty, Property_Type prop = Some ty → Schema_Kind ty ≠ "reference") →
  (type_name m PrintStruct_ prop out).1 = out.
Proof.
  intros H. unfold type_name. destruct (Property_Type prop) as [ty|]; [|done].
  specialize (H ty eq_refl). apply String.eqb_neq in H. rewrite H.
  by repeat case_match.
Qed.

Lemma fields_no_reference props types out :
  (∀ p ty, p ∈ props → Property_Type p = Some ty →
           Schema_Kind ty ≠ "reference") →
  (fields ToGoPascal m PrintStruct_ props types out).1 = out.
Proof.
  revert types out. induction props as [|p rest IH]; intros types out H;
    simpl; [done|].
  pose proof (type_name_no_reference p out) as H1.
  destruct (type_name m PrintStruct_ p out) as [out1 r]. simpl in H1.
  rewrite H1 by (intros ty; apply H; left).
  destruct r; simpl; try done.
  apply IH. intros q ty Hq. apply H. by right.
Qed.

End Emitter.

Lemma PrintStruct_unfold ToGoPascal fuel m s out :
  PrintStruct ToGoPascal (S fuel) m s out
  = PrintStruct_body ToGoPascal m (PrintStruct ToGoPascal fuel m) s out.
Proof. done. Qed.

Lemma PrintStruct_extends ToGoPascal fuel m s out :
  extends out (PrintStruct ToGoPascal fuel m s out).1.
Proof.
  revert s out. induction fuel as [|fuel IH]; intros s out.
  - apply extends_refl.
  - rewrite PrintStruct_unfold. unfold PrintStruct_body.
    destruct (Structures m !! s) as [st|]; [|apply extends_refl].
    pose proof (fields_extends ToGoPascal m _ IH (Properties st) [] out) as H.
    destruct (fields _ _ _ _ _ _) as [out1 r]. simpl in H.
    destruct r; simpl; try done.
    eapply extends_trans; [exact H|apply extends_append].
Qed.

(** What a call of [PrintStruct] that returns has written last: the
    declaration of its structure, with one entry per property. *)
Lemma PrintStruct_declaration ToGoPascal fuel m s out out' :
  PrintStruct ToGoPascal fuel m s out = (out', Ok ()) →
  ∃ st before typeNames,
    Structures m !! s = Some st
    ∧ extends out before
    ∧ length typeNames = length (Properties st)
    ∧ out' = before +:+ declaration (Structure_Name st)
                          (entries ToGoPascal (Properties st) typeNames).
Proof.
  destruct fuel as [|fuel]; [done|].
  rewrite PrintStruct_unfold. unfold PrintStruct_body.
  destruct (Structures m !! s) as [st|]; [|done].
  pose proof (fields_extends ToGoPascal m _
                (PrintStruct_extends ToGoPascal fuel m) (Properties st) [] out)
    as Hext.
  destruct (fields _ _ _ _ _ _) as [out1 r] eqn:E. simpl in Hext.
  destruct r as [types| | |]; simpl; try done.
  intros [= <-]. apply fields_entries in E as (tns & Hlen & ->).
  by exists st, out1, tns.
Qed.

(** ** Induction on schema nodes *)

Section Schema_ind.

Variable P : Schema → Prop.

Hypothesis step : ∀ s,
  from_option (λ a, from_option P True (Element a)) True (Schema_Array s) →
  from_option (λ o, Forall (from_option P True) (Items o)) True
    (Schema_Or s) →
  from_option (λ o, Forall (from_option P True) (Items o)) True
    (Schema_And s) →
  from_option
    (λ mp, from_option P True (Key mp) ∧ from_option P True (Value mp))
    True (Schema_Map s) →
  from_option (λ o, Forall (from_option P True) (Items o)) True
    (Schema_Tuple s) →
  P s.

Fixpoint Schema_ind (s : Schema) : P s :=
  let through (p : option Schema) : from_option P True p :=
    match p with Some e => Schema_ind e | None => I end in
  let all :=
    fix all (l : list (option Schema)) : Forall (from_option P True) l :=
      match l with
      | [] => List.Forall_nil _
      | p :: l' => @List.Forall_cons _ _ p l' (through p) (all l')
      end in
  let items (o : option (ItemsSchemaOf Schema))
    : from_option (λ o, Forall (from_option P True) (Items o)) True o :=
    match o with Some x => all (Items x) | None => I end in
  step s
    match Schema_Array s as o
      return from_option (λ a, from_option P True (Element a)) True o
    with Some a => through (Element a) | None => I end
    (items (Schema_Or s))
    (items (Schema_And s))
    match Schema_Map s as o
      return from_option
               (λ mp, from_option P True (Key mp)
                      ∧ from_option P True (Value mp)) True o
    with
    | Some mp => conj (through (Key mp)) (through (Value mp))
    | None => I
    end
    (items (Schema_Tuple s)).

End Schema_ind.

(** ** The resolver on a node *)

Section Lookups.

Variable AnyRef_ : string → Model → Model * outcome AnyRef.

Lemma lookups_app l1 l2 m :
  lookups AnyRef_ (l1 ++ l2) m
  = let '(m1, r) := lookups AnyRef_ l1 m in
    if is_Ok r then lookups AnyRef_ l2 m1 else (m1, r).
Proof.
  revert m. induction l1 as [|[name|] l1 IH]; intros m; simpl; [done| |done].
  destruct (AnyRef_ name m) as [m1 found]. destruct found; simpl; auto.
Qed.

Lemma through_lookups p m :
  from_option (told_by_lookups AnyRef_) True p →
  let '(m', p', r) := through (Model_ResolveRefs AnyRef_) p m in
  (m', r) = lookups AnyRef_ (visited_through p) m
  ∧ erase <$> p' = erase <$> p.
Proof.
  destruct p as [s|]; simpl; [|done]. intros H. specialize (H m).
  destruct (Model_ResolveRefs AnyRef_ s m) as [[m' s'] r].
  destruct H as [<- He]. split; [done|]. simpl. by rewrite He.
Qed.

Lemma each_lookups items m :
  Forall (from_option (told_by_lookups AnyRef_) True) items →
  let '(m', items', r) := each (Model_ResolveRefs AnyRef_) items m in
  (m', r) = lookups AnyRef_ (concat (map visited_through items)) m
  ∧ fmap (M:=list) (fmap (M:=option) erase) items'
    = fmap (M:=list) (fmap (M:=option) erase) items.
Proof.
  intros H. revert m. induction H as [|p rest Hp _ IH]; intros m; simpl;
    [done|].
  rewrite lookups_app.
  pose proof (through_lookups p m Hp) as H1.
  destruct (through (Model_ResolveRefs AnyRef_) p m) as [[m1 p'] r].
  destruct H1 as [<- Hp']. destruct (is_Ok r) eqn:Hr.
  - specialize (IH m1).
    destruct (each (Model_ResolveRefs AnyRef_) rest m1) as [[m2 rest'] r2].
    destruct IH as [<- Hrest]. split; [done|]. csimpl. by rewrite Hp', Hrest.
  - split; [done|]. csimpl. by rewrite Hp'.
Qed.

Lemma each_of_lookups o m :
  from_option (λ o, Forall (from_option (told_by_lookups AnyRef_) True) (Items o))
    True o →
  let '(m', o', r) := each_of (Model_ResolveRefs AnyRef_) o m in
  (m', r)
  = lookups AnyRef_
      (from_option (λ o, concat (map visited_through (Items o))) [] o) m
  ∧ (λ o, {| ItemsSchema_Kind := ItemsSchema_Kind o;
             Items := fmap (M:=list) (fmap (M:=option) erase) (Items o) |})
      <$> o'
    = (λ o, {| ItemsSchema_Kind := ItemsSchema_Kind o;
               Items := fmap (M:=list) (fmap (M:=option) erase) (Items o) |})
        <$> o.
Proof.
  destruct o as [o|]; simpl; [|done]. intros H.
  pose proof (each_lookups (Items o) m H) as H1.
  destruct (each (Model_ResolveRefs AnyRef_) (Items o) m) as [[m' items] r].
  destruct H1 as [<- Hitems]. split; [done|]. simpl. by rewrite Hitems.
Qed.

Lemma key_value_lookups mp m :
  from_option
    (λ mp, from_option (told_by_lookups AnyRef_) True (Key mp)
           ∧ from_option (told_by_lookups AnyRef_) True (Value mp)) True mp →
  let '(m', mp', r) := key_value (Model_ResolveRefs AnyRef_) mp m in
  (m', r)
  = lookups AnyRef_
      (from_option (λ mp, visited_through (Key mp)
                          ++ visited_through (Value mp)) [] mp) m
  ∧ (λ mp, {| MapSchema_Kind := MapSchema_Kind mp;
              Key := erase <$> Key mp; Value := erase <$> Value mp |})
      <$> mp'
    = (λ mp, {| MapSchema_Kind := MapSchema_Kind mp;
                Key := erase <$> Key mp; Value := erase <$> Value mp |})
        <$> mp.
Proof.
  destruct mp as [mp|]; simpl; [|done]. intros [Hk Hv].
  rewrite lookups_app.
  pose proof (through_lookups (Key mp) m Hk) as H1.
  destruct (through (Model_ResolveRefs AnyRef_) (Key mp) m) as [[m1 k] r].
  destruct H1 as [<- Hk']. destruct (is_Ok r) eqn:Hr.
  - pose proof (through_lookups (Value mp) m1 Hv) as H2.
    destruct (through (Model_ResolveRefs AnyRef_) (Value mp) m1)
      as [[m2 v] r2].
    destruct H2 as [<- Hv']. split; [done|]. simpl. by rewrite Hk', Hv'.
  - split; [done|]. simpl. by rewrite Hk'.
Qed.

Lemma erase_unfold s :
  erase s
  = mkSchema (Schema_BaseElement s) (Schema_Kind s) (Schema_Base s)
      (ReferenceSchema_with_Found None <$> Schema_Reference s)
      ((λ a, {| ArraySchema_Kind := ArraySchema_Kind a;
                Element := erase <$> Element a |}) <$> Schema_Array s)
      ((λ o, {| ItemsSchema_Kind := ItemsSchema_Kind o;
                Items := fmap (M:=list) (fmap (M:=option) erase) (Items o) |})
         <$> Schema_Or s)
      ((λ o, {| ItemsSchema_Kind := ItemsSchema_Kind o;
                Items := fmap (M:=list) (fmap (M:=option) erase) (Items o) |})
         <$> Schema_And s)
      ((λ mp, {| MapSchema_Kind := MapSchema_Kind mp;
                 Key := erase <$> Key mp;
                 Value := erase <$> Value mp |}) <$> Schema_Map s)
      (Schema_StringLiteral s) (Schema_Literal s)
      ((λ o, {| ItemsSchema_Kind := ItemsSchema_Kind o;
                Items := fmap (M:=list) (fmap (M:=option) erase) (Items o) |})
         <$> Schema_Tuple s).
Proof. by destruct s. Qed.

Lemma visited_unfold s :
  visited s
  = match Schema_Reference s with
    | Some ref => [Some (ReferenceSchema_Name ref)]
    | None =>
    match Schema_Array s with
    | Some a => visited_through (Element a)
    | None =>
        from_option (λ o, concat (map visited_through (Items o))) []
          (Schema_Or s)
        ++ from_option (λ o, concat (map visited_through (Items o))) []
             (Schema_And s)
        ++ from_option
             (λ mp, visited_through (Key mp) ++ visited_through (Value mp))
             [] (Schema_Map s)
        ++ from_option (λ o, concat (map visited_through (Items o))) []
             (Schema_Tuple s)
    end
    end.
Proof. by destruct s. Qed.

Lemma ResolveRefs_lookups s : told_by_lookups AnyRef_ s.
Proof.
  induction s as [s Harr Hor Hand Hmap Htup] using Schema_ind. intros m.
  rewrite Model_ResolveRefs_unfold, visited_unfold. unfold ResolveRefs_body.
  destruct (Schema_Reference s) as [ref|] eqn:Eref.
  { simpl. destruct (AnyRef_ (ReferenceSchema_Name ref) m) as [m1 found].
    destruct found; simpl; (split; [done|]); try done.
    rewrite !erase_unfold. simpl. by rewrite Eref. }
  destruct (Schema_Array s) as [a|] eqn:Earr.
  { simpl in Harr. pose proof (through_lookups (Element a) m Harr) as H1.
    destruct (through (Model_ResolveRefs AnyRef_) (Element a) m)
      as [[m1 e] r].
    destruct H1 as [<- He]. split; [done|].
    rewrite !erase_unfold. simpl. by rewrite Earr, He. }
  rewrite lookups_app.
  pose proof (each_of_lookups (Schema_Or s) m Hor) as H1.
  destruct (each_of (Model_ResolveRefs AnyRef_) (Schema_Or s) m)
    as [[m1 o] r1].
  destruct H1 as [<- Ho]. destruct (is_Ok r1) eqn:Hr1.
  2:{ split; [done|]. rewrite !erase_unfold. simpl. by rewrite Ho, Eref, Earr. }
  rewrite lookups_app.
  pose proof (each_of_lookups (Schema_And s) m1 Hand) as H2.
  destruct (each_of (Model_ResolveRefs AnyRef_) (Schema_And s) m1)
    as [[m2 a] r2].
  destruct H2 as [<- Ha]. destruct (is_Ok r2) eqn:Hr2.
  2:{ split; [done|]. rewrite !erase_unfold. simpl.
      by rewrite Ho, Ha, Eref, Earr. }
  rewrite lookups_app.
  pose proof (key_value_lookups (Schema_Map s) m2 Hmap) as H3.
  destruct (key_value (Model_ResolveRefs AnyRef_) (Schema_Map s) m2)
    as [[m3 mp] r3].
  destruct H3 as [<- Hmp]. destruct (is_Ok r3) eqn:Hr3.
  2:{ split; [done|]. rewrite !erase_unfold. simpl.
      by rewrite Ho, Ha, Hmp, Eref, Earr. }
  pose proof (each_of_lookups (Schema_Tuple s) m3 Htup) as H4.
  destruct (each_of (Model_ResolveRefs AnyRef_) (Schema_Tuple s) m3)
    as [[m4 t] r4].
  destruct H4 as [<- Ht]. split; [done|].
  rewrite !erase_unfold. simpl. by rewrite Ho, Ha, Hmp, Ht, Eref, Earr.
Qed.

End Lookups.

(** ** The store under resolution *)

Lemma Structures_store i k ty m j :
  Structures (store_property_type i k ty m) !! j
  = if decide (i = j)
    then Structure_with_Properties (alter (Property_with_Type ty) k)
           <$> Structures m !! j
    else Structures m !! j.
Proof.
  unfold store_property_type; simpl. rewrite list_lookup_alter.
  by destruct (decide (i = j)) as [->|].
Qed.

Lemma property_type_store_ne i k ty m i' k' :
  (i, k) ≠ (i', k') →
  property_type (store_property_type i k ty m) i' k' = property_type m i' k'.
Proof.
  intros Hne. unfold property_type. rewrite Structures_store.
  destruct (decide (i = i')) as [->|]; [|done].
  destruct (Structures m !! i') as [st|]; simpl; [|done].
  rewrite list_lookup_alter_ne; [done|]. congruence.
Qed.

Lemma property_type_store_eq i k ty m :
  property_type (store_property_type i k ty m) i k
  = st ← Structures m !! i; _ ← Properties st !! k; ty.
Proof.
  unfold property_type. rewrite Structures_store, decide_True by done.
  destruct (Structures m !! i) as [st|]; simpl; [|done].
  rewrite list_lookup_alter_eq. by destruct (Properties st !! k).
Qed.

Lemma property_count_store i k ty m j :
  property_count (store_property_type i k ty m) j = property_count m j.
Proof.
  unfold property_count. rewrite Structures_store.
  destruct (decide (i = j)) as [->|]; [|done].
  destruct (Structures m !! j) as [st|]; simpl; [|done].
  by rewrite length_alter.
Qed.

Lemma property_type_erase m i k :
  property_type (erase_Model m) i k = erase <$> property_type m i k.
Proof.
  unfold property_type; simpl. rewrite list_lookup_fmap.
  destruct (Structures m !! i) as [st|]; simpl; [|done].
  rewrite list_lookup_fmap. by destruct (Properties st !! k).
Qed.

(** Writing back a node that differs by handles only changes handles only. *)
Lemma erase_store i k ty m :
  erase <$> ty = erase <$> property_type m i k →
  erase_Model (store_property_type i k ty m) = erase_Model m.
Proof.
  intros Hty. unfold erase_Model. simpl. f_equal.
  apply list_eq. intros j. rewrite !list_lookup_fmap, list_lookup_alter.
  destruct (decide (i = j)) as [<-|]; [|done].
  unfold property_type in Hty.
  destruct (Structures m !! i) as [st|]; simpl in *; [|done].
  f_equal. unfold erase_Structure; simpl. f_equal.
  apply list_eq. intros k'. rewrite !list_lookup_fmap, list_lookup_alter.
  destruct (decide (k = k')) as [<-|]; [|done].
  destruct (Properties st !! k) as [p|]; simpl in *; [|done].
  f_equal. unfold erase_Property, Property_with_Type; simpl. by rewrite Hty.
Qed.

Section Invariant.

Variable AnyRef_ : string → Model → Model * outcome AnyRef.

(** What every lookup keeps, the resolver keeps. *)
Lemma lookups_keeps (I : Model → Prop) l m :
  (∀ name m, I m → I (AnyRef_ name m).1) →
  I m → I (lookups AnyRef_ l m).1.
Proof.
  intros HA. revert m. induction l as [|[name|] l IH]; intros m Hm; simpl;
    [done| |done].
  pose proof (HA name m Hm) as H1.
  destruct (AnyRef_ name m) as [m1 found]. destruct found; simpl; auto.
Qed.

Lemma ResolveRefs_keeps (I : Model → Prop) s m :
  (∀ name m, I m → I (AnyRef_ name m).1) →
  I m → I (Model_ResolveRefs AnyRef_ s m).1.1.
Proof.
  intros HA Hm. pose proof (ResolveRefs_lookups AnyRef_ s m) as H.
  destruct (Model_ResolveRefs AnyRef_ s m) as [[m' s'] r]. destruct H as [H _].
  simpl. replace m' with (m', r).1 by done. rewrite H.
  by apply lookups_keeps.
Qed.

Lemma through_erase p m :
  erase <$> (through (Model_ResolveRefs AnyRef_) p m).1.2 = erase <$> p.
Proof.
  destruct p as [s|]; simpl; [|done].
  pose proof (ResolveRefs_lookups AnyRef_ s m) as H.
  destruct (Model_ResolveRefs AnyRef_ s m) as [[m' s'] r]. destruct H as [_ H].
  simpl. by rewrite H.
Qed.

Lemma through_keeps (I : Model → Prop) p m :
  (∀ name m, I m → I (AnyRef_ name m).1) →
  I m → I (through (Model_ResolveRefs AnyRef_) p m).1.1.
Proof.
  intros HA Hm. destruct p as [s|]; simpl; [|done].
  pose proof (ResolveRefs_keeps I s m HA Hm).
  by destruct (Model_ResolveRefs AnyRef_ s m) as [[m' s'] r].
Qed.

Hypothesis AnyRef_erase :
  ∀ name m, erase_Model (AnyRef_ name m).1 = erase_Model m.

Lemma resolve_property_erase i k m :
  erase_Model (resolve_property AnyRef_ i k m).1 = erase_Model m.
Proof.
  unfold resolve_property.
  pose proof (through_erase (property_type m i k) m) as H1.
  pose proof (through_keeps (λ m', erase_Model m' = erase_Model m)
                (property_type m i k) m) as H2.
  destruct (through _ _ _) as [[m1 ty] r]. simpl in *.
  rewrite <- H2; [|intros ?? <-; apply AnyRef_erase|done].
  apply erase_store.
  rewrite H1, <- !property_type_erase. f_equal. symmetry. apply H2; [|done].
  intros ?? <-. apply AnyRef_erase.
Qed.

Lemma resolve_properties_erase i k n m :
  erase_Model (resolve_properties AnyRef_ i k n m).1 = erase_Model m.
Proof.
  revert k m. induction n as [|n IH]; intros k m; simpl; [done|].
  pose proof (resolve_property_erase i k m) as H1.
  destruct (resolve_property AnyRef_ i k m) as [m1 r]. simpl in H1.
  destruct (is_Ok r); [|done]. by rewrite IH.
Qed.

End Invariant.

Lemma Model_AnyRef_erase Structure_ name m :
  (∀ name m, erase_Model (Structure_ name m).1 = erase_Model m) →
  erase_Model (Model_AnyRef Structure_ name m).1 = erase_Model m.
Proof.
  intros H. unfold Model_AnyRef. repeat case_match; simpl; try done.
  match goal with E : Structure_ ?n ?m = _ |- _ =>
    specialize (H n m); by rewrite E in H end.
Qed.

Lemma Model_Structure_erase fuel name m :
  erase_Model (Model_Structure fuel name m).1 = erase_Model m.
Proof.
  revert name m. induction fuel as [|fuel IH]; intros name m; simpl; [done|].
  destruct (scan Structure_Name (Structures m) name) as [i|]; [|done].
  pose proof (resolve_properties_erase (Model_AnyRef (Model_Structure fuel))
                (λ n m, Model_AnyRef_erase _ n m IH) i 0 (property_count m i) m)
    as H.
  by destruct (resolve_properties _ _ _ _ _).
Qed.

(** C9.  Resolution changes nothing in the catalog but the handles of
    reference nodes: however [m.Structure] or [m.ResolveRefs] ends, with
    a value, an error, a panic or out of fuel, the store it leaves and the
    node it leaves are, with the handles taken off, the store and the
    node it found. *)
Theorem resolution_writes_handles_only (fuel : nat) :
  (∀ name m, erase_Model (Model_Structure fuel name m).1 = erase_Model m)
  ∧ (∀ s m, erase_Model (ResolveRefs fuel s m).1.1 = erase_Model m
            ∧ erase (ResolveRefs fuel s m).1.2 = erase s).
Proof.
  split; [apply Model_Structure_erase|]. intros s m. unfold ResolveRefs. split.
  - apply (ResolveRefs_keeps _ (λ m', erase_Model m' = erase_Model m)); [|done].
    intros n m' <-. apply Model_AnyRef_erase, Model_Structure_erase.
  - pose proof (ResolveRefs_lookups (Model_AnyRef (Model_Structure fuel)) s m)
      as H.
    destruct (Model_ResolveRefs _ s m) as [[m' s'] r]. by destruct H.
Qed.

(** ** Unmapped kinds *)

(** C1 fails on the code.  A property of base kind [boolean], and a
    property of array kind, are emitted: the run returns, nothing is
    reported, and the declaration has a field with an empty type name. *)
Theorem unmapped_kind_is_emitted :
  run Sample.pascal 1 "Flagged" Sample.flagged
  = (Sample.flagged, declaration "Flagged" [field "On" EmptyString "on"],
     Ok ())
  ∧ run Sample.pascal 1 "Tagged" Sample.tagged
    = (Sample.tagged, declaration "Tagged" [field "Tags" EmptyString "tags"],
       Ok ())
  ∧ field "On" EmptyString "on"
    = "On  `json:" +:+ quote +:+ "on,omitempty" +:+ quote.
Proof. done. Qed.

(** ** The optional flag *)

Lemma Structures_with_Optional f m s :
  Structures (with_Optional f m) !! s
  = Structure_with_Properties
      (imap (λ k p, {| Property_BaseElement := Property_BaseElement p;
                       Property_Name := Property_Name p;
                       Property_Type := Property_Type p;
                       Optional := f s k |}))
    <$> Structures m !! s.
Proof. unfold with_Optional; simpl. by rewrite list_lookup_imap. Qed.

Lemma type_name_with_Optional f m P Q p p' out :
  (∀ s out, P s out = Q s out) →
  Property_Type p' = Property_Type p →
  type_name (with_Optional f m) P p' out = type_name m Q p out.
Proof.
  intros HPQ Hty. unfold type_name. rewrite Hty.
  destruct (Property_Type p) as [ty|]; [|done].
  destruct (String.eqb (Schema_Kind ty) "reference"); [|done].
  destruct (Schema_Reference ty) as [reference|]; [|done].
  destruct (Found reference) as [ref|]; [|done].
  destruct (AnyRef_Structure ref) as [structure|]; [|done].
  rewrite HPQ. destruct (Q structure out) as [out1 r].
  rewrite Structures_with_Optional.
  by destruct (Structures m !! structure).
Qed.

Lemma fields_with_Optional ToGoPascal f m P Q props props' types out :
  (∀ s out, P s out = Q s out) →
  Forall2 (λ p' p, Property_Name p' = Property_Name p
                   ∧ Property_Type p' = Property_Type p) props' props →
  fields ToGoPascal (with_Optional f m) P props' types out
  = fields ToGoPascal m Q props types out.
Proof.
  intros HPQ H. revert types out.
  induction H as [|p' p props' props [Hn Ht] _ IH]; intros types out; simpl;
    [done|].
  rewrite (type_name_with_Optional f m P Q p p' out HPQ Ht), Hn.
  destruct (type_name m Q p out) as [out1 r].
  destruct r; simpl; auto.
Qed.

Lemma PrintStruct_with_Optional ToGoPascal f fuel m s out :
  PrintStruct ToGoPascal fuel (with_Optional f m) s out
  = PrintStruct ToGoPascal fuel m s out.
Proof.
  revert s out. induction fuel as [|fuel IH]; intros s out; [done|].
  rewrite !PrintStruct_unfold. unfold PrintStruct_body.
  rewrite Structures_with_Optional.
  destruct (Structures m !! s) as [st|]; simpl; [|done].
  rewrite (fields_with_Optional ToGoPascal f m _
             (PrintStruct ToGoPascal fuel m) (Properties st)); [done|done|].
  apply Forall2_lookup. intros k. rewrite list_lookup_imap.
  destruct (Properties st !! k); by constructor.
Qed.


(** ** Order of the declarations *)

(** A structure none of whose properties is of kind reference is
    declared without anything written before its declaration. *)
Lemma PrintStruct_no_reference ToGoPascal fuel m b B out out' :
  Structures m !! b = Some B →
  (∀ q t, q ∈ Properties B → Property_Type q = Some t →
          Schema_Kind t ≠ "reference") →
  PrintStruct ToGoPascal fuel m b out = (out', Ok ()) →
  ∃ typeNames,
    length typeNames = length (Properties B)
    ∧ out' = out +:+ declaration (Structure_Name B)
                       (entries ToGoPascal (Properties B) typeNames).
Proof.
  intros HB Hno. destruct fuel as [|fuel]; [done|].
  rewrite PrintStruct_unfold. unfold PrintStruct_body. rewrite HB.
  pose proof (fields_no_reference ToGoPascal m (PrintStruct ToGoPascal fuel m)
                (Properties B) [] out Hno) as Hout.
  destruct (fields _ _ _ _ _ _) as [out1 r] eqn:E. simpl in Hout. subst out1.
  destruct r as [types| | |]; simpl; try done. intros [= <-].
  apply fields_entries in E as (tns & Hlen & ->). by exists tns.
Qed.


(** ** What depends on the catalog without its handles *)

Lemma scan_ext {A : Type} (f g : A → string) (l : list A) (name : string) :
  (∀ x, f x = g x) → scan f l name = scan g l name.
Proof.
  intros H. induction l as [|x l IH]; simpl; [done|]. by rewrite H, IH.
Qed.

Lemma scan_erase_Structures m name :
  scan Structure_Name (Structures (erase_Model m)) name
  = scan Structure_Name (Structures m) name.
Proof. simpl. rewrite scan_fmap. by apply scan_ext. Qed.

Lemma scan_erase_Enumerations m name :
  scan Enumeration_Name (Enumerations (erase_Model m)) name
  = scan Enumeration_Name (Enumerations m) name.
Proof. simpl. rewrite scan_fmap. by apply scan_ext. Qed.

Lemma scan_erase_TypeAliases m name :
  scan TypeAlias_Name (TypeAliases (erase_Model m)) name
  = scan TypeAlias_Name (TypeAliases m) name.
Proof. simpl. rewrite scan_fmap. by apply scan_ext. Qed.

Section SameCatalog.

Variables m m' : Model.
Hypothesis Hsame : erase_Model m' = erase_Model m.

Lemma same_Structures name :
  scan Structure_Name (Structures m') name
  = scan Structure_Name (Structures m) name.
Proof. by rewrite <- scan_erase_Structures, Hsame, scan_erase_Structures. Qed.

Lemma same_Enumerations name :
  scan Enumeration_Name (Enumerations m') name
  = scan Enumeration_Name (Enumerations m) name.
Proof. by rewrite <- scan_erase_Enumerations, Hsame, scan_erase_Enumerations. Qed.

Lemma same_TypeAliases name :
  scan TypeAlias_Name (TypeAliases m') name
  = scan TypeAlias_Name (TypeAliases m) name.
Proof. by rewrite <- scan_erase_TypeAliases, Hsame, scan_erase_TypeAliases. Qed.

Lemma same_property_type i k :
  erase <$> property_type m' i k = erase <$> property_type m i k.
Proof. by rewrite <- !property_type_erase, Hsame. Qed.

Lemma same_property_count i : property_count m' i = property_count m i.
Proof.
  assert (∀ x, property_count (erase_Model x) i = property_count x i) as H.
  { intros x. unfold property_count; simpl. rewrite list_lookup_fmap.
    destruct (Structures x !! i); simpl; [|done]. by rewrite length_fmap. }
  by rewrite <- H, Hsame, H.
Qed.

End SameCatalog.

(** The handle of a name by the three scans. *)
Lemma lookup_name_scans m name :
  lookup_name m name
  = match scan Structure_Name (Structures m) name with
    | Some i =>
        Some {| AnyRef_Name := name; AnyRef_Structure := Some i;
                AnyRef_Enumeration := None; AnyRef_TypeAlias := None |}
    | None =>
    match scan Enumeration_Name (Enumerations m) name with
    | Some i =>
        Some {| AnyRef_Name := name; AnyRef_Structure := None;
                AnyRef_Enumeration := Some i; AnyRef_TypeAlias := None |}
    | None =>
        (λ i, {| AnyRef_Name := name; AnyRef_Structure := None;
                 AnyRef_Enumeration := None; AnyRef_TypeAlias := Some i |})
        <$> scan TypeAlias_Name (TypeAliases m) name
    end
    end.
Proof.
  unfold lookup_name. rewrite first_match_scans.
  destruct (scan Structure_Name (Structures m) name) as [i|] eqn:E1.
  { by destruct (scan_Some _ _ _ _ E1) as (x & -> & _). }
  destruct (scan Enumeration_Name (Enumerations m) name) as [i|] eqn:E2.
  { by destruct (scan_Some _ _ _ _ E2) as (x & -> & _). }
  destruct (scan TypeAlias_Name (TypeAliases m) name) as [i|] eqn:E3; simpl;
    [|done].
  by destruct (scan_Some _ _ _ _ E3) as (x & -> & _).
Qed.

Lemma same_lookup_name m m' name :
  erase_Model m' = erase_Model m → lookup_name m' name = lookup_name m name.
Proof.
  intros H. rewrite !lookup_name_scans.
  by rewrite (same_Structures m m' H), (same_Enumerations m m' H),
       (same_TypeAliases m m' H).
Qed.

(** A handle [m.AnyRef] returns is the handle of the name's lookup. *)
Lemma Model_AnyRef_lookup_name fuel name m m' h :
  Model_AnyRef (Model_Structure fuel) name m = (m', Ok h) →
  lookup_name m name = Some h.
Proof.
  rewrite Model_AnyRef_first_match. unfold lookup_name.
  destruct (first_match m name) as [[i x|i x|i x]|]; simpl; try congruence.
  destruct (Model_Structure fuel name m) as [m1 r].
  destruct r; simpl; congruence.
Qed.

(** The reference at the top of a node, under erasure. *)
Lemma same_Reference s s' ref' :
  erase s' = erase s → Schema_Reference s' = Some ref' →
  ∃ ref, Schema_Reference s = Some ref
         ∧ ReferenceSchema_Name ref = ReferenceSchema_Name ref'.
Proof.
  intros He Href. apply (f_equal Schema_Reference) in He.
  rewrite !erase_unfold in He. simpl in He. rewrite Href in He.
  destruct (Schema_Reference s) as [ref|]; [|done].
  exists ref. split; [done|]. simpl in He. by injection He.
Qed.

Lemma same_Kind s s' : erase s' = erase s → Schema_Kind s' = Schema_Kind s.
Proof.
  intros He. apply (f_equal Schema_Kind) in He. by rewrite !erase_unfold in He.
Qed.

Lemma same_Base s s' : erase s' = erase s → Schema_Base s' = Schema_Base s.
Proof.
  intros He. apply (f_equal Schema_Base) in He. by rewrite !erase_unfold in He.
Qed.

Lemma visited_erase s : visited (erase s) = visited s.
Proof.
  induction s as [s Harr Hor Hand Hmap Htup] using Schema_ind.
  assert (∀ p, from_option (λ s, visited (erase s) = visited s) True p →
               visited_through (erase <$> p) = visited_through p) as Hthrough.
  { by intros [x|]. }
  assert (∀ l, Forall (from_option (λ s, visited (erase s) = visited s) True) l →
               concat (map visited_through
                         (fmap (M:=list) (fmap (M:=option) erase) l))
               = concat (map visited_through l)) as Hall.
  { intros l H. induction H as [|p l Hp _ IH]; csimpl; [done|].
    by rewrite IH, Hthrough. }
  rewrite (visited_unfold (erase s)), (visited_unfold s), erase_unfold. simpl.
  destruct (Schema_Reference s) as [ref|]; simpl; [done|].
  destruct (Schema_Array s) as [a|]; simpl in *; [by apply Hthrough|].
  f_equal; [|f_equal; [|f_equal]].
  - destruct (Schema_Or s); simpl in *; [by apply Hall|done].
  - destruct (Schema_And s); simpl in *; [by apply Hall|done].
  - destruct (Schema_Map s) as [mp|]; simpl in *; [|done].
    destruct Hmap. by rewrite !Hthrough.
  - destruct (Schema_Tuple s); simpl in *; [by apply Hall|done].
Qed.

Lemma same_visited p p' :
  erase <$> p' = erase <$> p → visited_through p' = visited_through p.
Proof.
  destruct p as [s|], p' as [s'|]; simpl; try done.
  intros [= H]. by rewrite <- visited_erase, H, visited_erase.
Qed.

Lemma kind_set_erase s : kind_set (erase s) = kind_set s.
Proof.
  unfold kind_set. rewrite erase_unfold. simpl.
  by destruct (Schema_Reference s).
Qed.

(** ** Links *)

Lemma resolves_to_refl m : resolves_to m m.
Proof. by split. Qed.

Lemma resolves_to_trans m1 m2 m3 :
  resolves_to m1 m2 → resolves_to m2 m3 → resolves_to m1 m3.
Proof. intros [E1 L1] [E2 L2]. split; [congruence|auto]. Qed.

(** What a call on a node does at the top of the node. *)
Lemma ResolveRefs_top AnyRef_ s m :
  match Schema_Reference s with
  | Some ref =>
      Model_ResolveRefs AnyRef_ s m
      = let '(m1, found) := AnyRef_ (ReferenceSchema_Name ref) m in
        (m1,
         match found with
         | Ok h =>
             Schema_with_Reference
               (Some (ReferenceSchema_with_Found (Some h) ref)) s
         | _ => s
         end,
         outcome_map (λ _, ()) found)
  | None => Schema_Reference (Model_ResolveRefs AnyRef_ s m).1.2 = None
  end.
Proof.
  destruct (Schema_Reference s) as [ref|] eqn:Eref.
  - rewrite Model_ResolveRefs_unfold. unfold ResolveRefs_body. rewrite Eref.
    destruct (AnyRef_ (ReferenceSchema_Name ref) m) as [m1 found].
    by destruct found.
  - pose proof (ResolveRefs_lookups AnyRef_ s m) as H.
    destruct (Model_ResolveRefs AnyRef_ s m) as [[m' s'] r].
    destruct H as [_ H]. simpl.
    destruct (Schema_Reference s') as [ref'|] eqn:E; [|done].
    destruct (same_Reference s s' ref' H E) as (ref & ? & _). congruence.
Qed.

(** Readiness is kept by resolution steps. *)
Lemma linked_with_resolves (R R' : nat → Prop) m m' i k :
  resolves_to m m' → (∀ j, R j → R' j) →
  linked_with R m i k → linked_with R' m' i k.
Proof.
  intros [He Hl] HR H s' ref' Hs' Href'.
  pose proof (same_property_type m m' He i k) as Hp. rewrite Hs' in Hp.
  destruct (property_type m i k) as [s|] eqn:Es; [|done].
  injection Hp as Hp.
  destruct (same_Reference s s' ref' Hp Href') as (ref & Href & Hname).
  destruct (H s ref Es Href) as (h & Hfound & Hlookup & Hready).
  assert (linked m i k) as Hlinked.
  { intros s0 ref0 Hs0 Href0. exists h. by simplify_eq. }
  destruct (Hl i k Hlinked s' ref' Hs' Href') as (h' & Hfound' & Hlookup').
  rewrite (same_lookup_name m m' _ He), <- Hname, Hlookup in Hlookup'.
  injection Hlookup' as <-. exists h.
  rewrite (same_lookup_name m m' _ He), <- Hname. auto.
Qed.

Lemma ready_resolves d m m' i : resolves_to m m' → ready d m i → ready d m' i.
Proof.
  intros Hres. revert i. induction d as [|d IH]; intros i; simpl; [done|].
  intros H k. eapply linked_with_resolves; [done| |apply H]. apply IH.
Qed.

Section Links.

Variable AnyRef_ : string → Model → Model * outcome AnyRef.

Hypothesis AnyRef_resolves : ∀ name m, resolves_to m (AnyRef_ name m).1.

Hypothesis AnyRef_lookup : ∀ name m m1 found,
  AnyRef_ name m = (m1, Ok found) → lookup_name m name = Some found.

(** The structures that the handles found lead to are ready [d] deep. *)
Variable d : nat.

Hypothesis AnyRef_ready : ∀ name m m1 found j,
  AnyRef_ name m = (m1, Ok found) → AnyRef_Structure found = Some j →
  ready d m1 j.

Lemma through_resolves p m :
  resolves_to m (through (Model_ResolveRefs AnyRef_) p m).1.1.
Proof.
  apply (through_keeps AnyRef_ (resolves_to m)); [|apply resolves_to_refl].
  intros name m' H. eapply resolves_to_trans; [exact H|apply AnyRef_resolves].
Qed.

(** After one turn of the loop the property is linked, if it was or if
    the turn went well. *)
Lemma resolve_property_linked i k m :
  linked m i k ∨ is_Ok (resolve_property AnyRef_ i k m).2 = true →
  linked (resolve_property AnyRef_ i k m).1 i k.
Proof.
  intros Hl. unfold resolve_property in *.
  pose proof (through_resolves (property_type m i k) m) as [He _].
  pose proof (through_erase AnyRef_ (property_type m i k) m) as Hty.
  destruct (through _ _ _) as [[m1 ty'] r] eqn:E. simpl in *.
  intros s' ref' Hs' Href'.
  rewrite property_type_store_eq in Hs'.
  assert (ty' = Some s') as ->.
  { destruct (Structures m1 !! i) as [st|]; simpl in Hs'; [|done].
    by destruct (Properties st !! k). }
  clear Hs'. rewrite (same_lookup_name m).
  2:{ rewrite erase_store; [done|]. by rewrite Hty, (same_property_type m m1). }
  destruct (property_type m i k) as [s|] eqn:Es; simpl in E; [|done].
  pose proof (ResolveRefs_top AnyRef_ s m) as Htop.
  destruct (Model_ResolveRefs AnyRef_ s m) as [[m1' s''] r'] eqn:E'.
  injection E as <- <- <-.
  destruct (Schema_Reference s) as [ref|] eqn:Eref; simpl in Htop;
    [|congruence].
  destruct (AnyRef_ (ReferenceSchema_Name ref) m) as [m2 found] eqn:EA.
  injection Htop as <- -> ->.
  destruct found as [h| | |]; simpl in *.
  - injection Href' as <-. exists h. split; [done|]. simpl. by eapply AnyRef_lookup.
  - destruct Hl as [Hl|]; [|done]. apply (Hl s); congruence.
  - destruct Hl as [Hl|]; [|done]. apply (Hl s); congruence.
  - destruct Hl as [Hl|]; [|done]. apply (Hl s); congruence.
Qed.

Lemma resolve_property_resolves i k m :
  resolves_to m (resolve_property AnyRef_ i k m).1.
Proof.
  split.
  { apply resolve_property_erase. intros name m'. apply AnyRef_resolves. }
  intros x k' Hl. destruct (decide ((i, k) = (x, k'))) as [[= <- <-]|Hne].
  { apply resolve_property_linked. by left. }
  unfold resolve_property.
  pose proof (through_resolves (property_type m i k) m) as [He Hlinked].
  pose proof (through_erase AnyRef_ (property_type m i k) m) as Hty.
  destruct (through _ _ _) as [[m1 ty'] r]. simpl in *.
  intros s ref. rewrite property_type_store_ne by done.
  rewrite (same_lookup_name m1).
  2:{ apply erase_store. by rewrite Hty, (same_property_type m m1). }
  by apply Hlinked.
Qed.

Lemma resolve_properties_resolves i k n m :
  resolves_to m (resolve_properties AnyRef_ i k n m).1.
Proof.
  revert k m. induction n as [|n IH]; intros k m; simpl;
    [apply resolves_to_refl|].
  pose proof (resolve_property_resolves i k m) as H1.
  destruct (resolve_property AnyRef_ i k m) as [m1 r]. simpl in H1.
  destruct (is_Ok r); [|done].
  eapply resolves_to_trans; [exact H1|apply IH].
Qed.

(** Writing back a node whose top is linked keeps what was linked. *)
Lemma store_resolves i k ty m :
  erase <$> ty = erase <$> property_type m i k →
  (∀ s ref, ty = Some s → Schema_Reference s = Some ref →
     ∃ h, Found ref = Some h
          ∧ lookup_name m (ReferenceSchema_Name ref) = Some h) →
  resolves_to m (store_property_type i k ty m).
Proof.
  intros Hty Htop. pose proof (erase_store i k ty m Hty) as He.
  split; [done|]. intros x k' Hl s ref.
  rewrite (same_lookup_name m) by done.
  destruct (decide ((i, k) = (x, k'))) as [[= <- <-]|Hne].
  - rewrite property_type_store_eq. intros Hs. apply Htop.
    destruct (Structures m !! i) as [st|]; simpl in Hs; [|done].
    by destruct (Properties st !! k).
  - rewrite property_type_store_ne by done. apply Hl.
Qed.

(** After a turn of the loop that went well the property is linked, and
    the structure its handle leads to is ready. *)
Lemma resolve_property_ready i k m :
  is_Ok (resolve_property AnyRef_ i k m).2 = true →
  linked_with (ready d (resolve_property AnyRef_ i k m).1)
    (resolve_property AnyRef_ i k m).1 i k.
Proof.
  unfold resolve_property.
  pose proof (through_resolves (property_type m i k) m) as [He _].
  pose proof (through_erase AnyRef_ (property_type m i k) m) as Hty.
  destruct (through _ _ _) as [[m1 ty'] r] eqn:E. simpl in *.
  intros Hr s' ref' Hs' Href'.
  rewrite property_type_store_eq in Hs'.
  assert (ty' = Some s') as ->.
  { destruct (Structures m1 !! i) as [st|]; simpl in Hs'; [|done].
    by destruct (Properties st !! k). }
  clear Hs'.
  assert (erase <$> Some s' = erase <$> property_type m1 i k) as Hty1.
  { by rewrite Hty, (same_property_type m m1). }
  rewrite (same_lookup_name m) by (by rewrite erase_store).
  destruct (property_type m i k) as [s|] eqn:Es; simpl in E; [|done].
  pose proof (ResolveRefs_top AnyRef_ s m) as Htop.
  destruct (Model_ResolveRefs AnyRef_ s m) as [[m1' s''] r'] eqn:E'.
  injection E as <- <- <-.
  destruct (Schema_Reference s) as [ref|] eqn:Eref; simpl in Htop;
    [|congruence].
  destruct (AnyRef_ (ReferenceSchema_Name ref) m) as [m2 found] eqn:EA.
  injection Htop as <- -> ->.
  destruct found as [h| | |]; try done. simpl in Href'.
  injection Href' as <-. exists h.
  pose proof (AnyRef_lookup _ _ _ _ EA) as Hlookup.
  split; [done|]. split; [done|]. intros j Hj.
  eapply ready_resolves; [|by eapply AnyRef_ready].
  apply store_resolves; [done|].
  intros s0 ref0 [= <-] [= <-]. exists h. split; [done|]. simpl.
  by rewrite (same_lookup_name m).
Qed.

Lemma resolve_properties_ready i k n m :
  is_Ok (resolve_properties AnyRef_ i k n m).2 = true →
  ∀ k', k ≤ k' < k + n →
    linked_with (ready d (resolve_properties AnyRef_ i k n m).1)
      (resolve_properties AnyRef_ i k n m).1 i k'.
Proof.
  revert k m. induction n as [|n IH]; intros k m; simpl; [lia|].
  pose proof (resolve_property_ready i k m) as H1.
  destruct (resolve_property AnyRef_ i k m) as [m1 r]. simpl in H1.
  destruct (is_Ok r) eqn:Hr; [|simpl; congruence].
  intros Hok k' Hk'. destruct (decide (k' = k)) as [->|Hne].
  - eapply linked_with_resolves;
      [apply resolve_properties_resolves
      |intros j; apply ready_resolves, resolve_properties_resolves
      |by apply H1].
  - apply IH; [done|lia].
Qed.

End Links.

Lemma Model_AnyRef_resolves Structure_ name m :
  (∀ name m, resolves_to m (Structure_ name m).1) →
  resolves_to m (Model_AnyRef Structure_ name m).1.
Proof.
  intros H. unfold Model_AnyRef.
  repeat case_match; simpl; try apply resolves_to_refl.
  match goal with E : Structure_ ?n ?m = _ |- _ =>
    specialize (H n m); by rewrite E in H end.
Qed.

(** Resolution keeps the catalog and the links that are there. *)
Lemma Model_Structure_resolves fuel name m :
  resolves_to m (Model_Structure fuel name m).1.
Proof.
  revert name m. induction fuel as [|fuel IH]; intros name m; simpl;
    [apply resolves_to_refl|].
  destruct (scan Structure_Name (Structures m) name) as [i|];
    [|apply resolves_to_refl].
  pose proof (resolve_properties_resolves (Model_AnyRef (Model_Structure fuel))
                (λ n m, Model_AnyRef_resolves _ n m IH)
                (Model_AnyRef_lookup_name fuel) i 0 (property_count m i) m)
    as H.
  by destruct (resolve_properties _ _ _ _ _).
Qed.

Lemma property_type_beyond m i k :
  property_count m i ≤ k → property_type m i k = None.
Proof.
  unfold property_count, property_type.
  destruct (Structures m !! i) as [st|]; simpl; [|done].
  intros H. by rewrite lookup_ge_None_2.
Qed.

(** The structure [m.Structure] returns is ready as deep as the fuel. *)
Lemma Model_Structure_ready fuel name m m' i :
  Model_Structure fuel name m = (m', Ok i) → ready fuel m' i.
Proof.
  revert name m m' i. induction fuel as [|fuel IH]; intros name m m' i; simpl;
    [done|].
  destruct (scan Structure_Name (Structures m) name) as [i'|]; [|done].
  pose proof (resolve_properties_ready (Model_AnyRef (Model_Structure fuel))
                (λ n m, Model_AnyRef_resolves _ n m
                          (Model_Structure_resolves fuel))
                (Model_AnyRef_lookup_name fuel) fuel) as Hready.
  pose proof (resolve_properties_resolves (Model_AnyRef (Model_Structure fuel))
                (λ n m, Model_AnyRef_resolves _ n m
                          (Model_Structure_resolves fuel))
                (Model_AnyRef_lookup_name fuel) i' 0 (property_count m i') m)
    as [He _].
  specialize (Hready) with (i := i') (k := 0) (n := property_count m i') (m := m).
  destruct (resolve_properties _ _ _ _ _) as [m1 r].
  destruct r as [[]| | |]; simpl in *; try done.
  intros [= <- <-] k.
  destruct (decide (k < property_count m i')) as [Hk|Hk].
  - apply Hready; [|done|lia].
    intros n m0 m2 found j. unfold Model_AnyRef.
    destruct (scan Structure_Name (Structures m0) n);
      [|repeat case_match; intros ??; by simplify_eq].
    destruct (Model_Structure fuel n m0) as [m3 r3] eqn:E3.
    destruct r3; simpl; try done. intros [= <- <-] [= <-]. by eapply IH.
  - intros s ref Hs. rewrite property_type_beyond in Hs; [done|].
    rewrite (same_property_count m m1 He). lia.
Qed.

(** ** Catalogs within a depth *)

Lemma forallb_ext {A : Type} (f g : A → bool) (l : list A) :
  (∀ x, x ∈ l → f x = g x) → forallb f l = forallb g l.
Proof.
  induction l as [|x l IH]; simpl; [done|]. intros H.
  rewrite H by left. rewrite IH; [done|]. intros y Hy. apply H. by right.
Qed.

Lemma forallb_fmap {A B : Type} (f : B → bool) (g : A → B) (l : list A) :
  forallb f (g <$> l) = forallb (f ∘ g) l.
Proof. induction l as [|x l IH]; csimpl; [done|]. by rewrite IH. Qed.

Lemma forallb_lookup {A : Type} (f : A → bool) (l : list A) i x :
  forallb f l = true → l !! i = Some x → f x = true.
Proof.
  intros H Hx. apply forallb_forall with (x := x) in H; [done|].
  apply list_elem_of_In. by eapply list_elem_of_lookup_2.
Qed.

Lemma within_unfold total d m i :
  within total (S d) m i
  = match Structures m !! i with
    | None => false
    | Some s =>
        forallb
          (λ p, forallb (lookup_within total d m)
                  (visited_through (Property_Type p))
                && (negb total
                    || from_option kind_set false (Property_Type p)))
          (Properties s)
    end.
Proof. done. Qed.

Lemma within_erase total d m i :
  within total d (erase_Model m) i = within total d m i.
Proof.
  revert i. induction d as [|d IH]; intros i; [done|].
  rewrite !within_unfold. simpl Structures. rewrite list_lookup_fmap.
  destruct (Structures m !! i) as [st|]; simpl; [|done].
  rewrite forallb_fmap. apply forallb_ext. intros p _. simpl.
  assert (visited_through (erase <$> Property_Type p)
          = visited_through (Property_Type p)) as ->.
  { destruct (Property_Type p); simpl; [apply visited_erase|done]. }
  f_equal.
  - apply forallb_ext. intros [name|] _; simpl; [|done].
    rewrite !scan_fmap.
    rewrite (scan_ext (Structure_Name ∘ erase_Structure) Structure_Name),
      (scan_ext (Enumeration_Name ∘ erase_Enumeration) Enumeration_Name),
      (scan_ext (TypeAlias_Name ∘ erase_TypeAlias) TypeAlias_Name) by done.
    destruct (scan Structure_Name (Structures m) name); [apply IH|done].
  - f_equal. destruct (Property_Type p); simpl; [apply kind_set_erase|done].
Qed.

Lemma same_within total d m m' i :
  erase_Model m' = erase_Model m → within total d m' i = within total d m i.
Proof. intros H. by rewrite <- within_erase, H, within_erase. Qed.

Lemma same_lookup_within total d m m' v :
  erase_Model m' = erase_Model m →
  lookup_within total d m' v = lookup_within total d m v.
Proof.
  intros H. destruct v as [name|]; simpl; [|done].
  rewrite (same_Structures m m' H), (same_Enumerations m m' H),
    (same_TypeAliases m m' H).
  destruct (scan Structure_Name (Structures m) name); [|done].
  by apply same_within.
Qed.

Lemma good_map total {A B : Type} (f : A → B) (r : outcome A) :
  good total r → good total (outcome_map f r).
Proof. unfold good. by destruct total, r. Qed.

Section Within.

Variable AnyRef_ : string → Model → Model * outcome AnyRef.
Variable total : bool.
Variable d : nat.
Variable m0 : Model.

Hypothesis AnyRef_erase :
  ∀ name m, erase_Model (AnyRef_ name m).1 = erase_Model m.

Hypothesis AnyRef_good : ∀ name m,
  erase_Model m = erase_Model m0 →
  lookup_within total d m0 (Some name) = true →
  good total (AnyRef_ name m).2.

Lemma lookups_good l m :
  erase_Model m = erase_Model m0 →
  forallb (lookup_within total d m0) l = true →
  good total (lookups AnyRef_ l m).2.
Proof.
  revert m. induction l as [|[name|] l IH]; intros m Hm Hl.
  - simpl. unfold good. by destruct total.
  - simpl in Hl. apply andb_prop in Hl as [H1 H2].
    pose proof (AnyRef_good name m Hm H1) as Hg.
    pose proof (AnyRef_erase name m) as He.
    change (lookups AnyRef_ (Some name :: l) m)
      with (let '(m1, found) := AnyRef_ name m in
            if is_Ok found then lookups AnyRef_ l m1
            else (m1, outcome_map (λ _, ()) found)).
    destruct (AnyRef_ name m) as [m1 found]. simpl in *.
    destruct (is_Ok found) eqn:Hok.
    + apply IH; [congruence|done].
    + simpl. by apply good_map.
  - simpl in *. apply andb_prop in Hl as [H1 _]. unfold good.
    by destruct total.
Qed.

Lemma resolve_property_good i k m :
  erase_Model m = erase_Model m0 →
  forallb (lookup_within total d m0) (visited_through (property_type m0 i k))
  = true →
  good total (resolve_property AnyRef_ i k m).2.
Proof.
  intros Hm Hl. unfold resolve_property.
  pose proof (through_lookups AnyRef_ (property_type m i k) m) as H.
  destruct (through _ _ _) as [[m1 ty] r]. simpl.
  destruct H as [H _].
  { destruct (property_type m i k); simpl; [apply ResolveRefs_lookups|done]. }
  replace r with (m1, r).2 by done. rewrite H.
  apply lookups_good; [done|].
  by rewrite (same_visited (property_type m0 i k))
    by apply (same_property_type m0 m Hm).
Qed.

Lemma resolve_properties_good i k n m :
  erase_Model m = erase_Model m0 →
  (∀ k', k ≤ k' < k + n →
     forallb (lookup_within total d m0)
       (visited_through (property_type m0 i k')) = true) →
  good total (resolve_properties AnyRef_ i k n m).2.
Proof.
  revert k m. induction n as [|n IH]; intros k m Hm Hl; simpl.
  { unfold good. by destruct total. }
  pose proof (resolve_property_good i k m Hm) as Hg.
  pose proof (resolve_property_erase AnyRef_ AnyRef_erase i k m) as He.
  destruct (resolve_property AnyRef_ i k m) as [m1 r]. simpl in *.
  destruct (is_Ok r) eqn:Hr.
  - apply IH; [congruence|]. intros k' Hk'. apply Hl. lia.
  - simpl. apply Hg, Hl. lia.
Qed.

End Within.

(** In a catalog within the depth [d] of the structure, [m.Structure]
    with fuel [d] or more ends well. *)
Lemma Model_Structure_good total d fuel m name i :
  d ≤ fuel →
  scan Structure_Name (Structures m) name = Some i →
  within total d m i = true →
  good total (Model_Structure fuel name m).2.
Proof.
  revert fuel m name i. induction d as [|d IH]; intros fuel m name i Hd Hi Hw;
    [done|].
  destruct fuel as [|fuel]; [lia|]. simpl. rewrite Hi.
  rewrite within_unfold in Hw.
  destruct (Structures m !! i) as [st|] eqn:Est; [|done].
  pose proof (resolve_properties_good (Model_AnyRef (Model_Structure fuel))
                total d m
                (λ n m, Model_AnyRef_erase _ n m (Model_Structure_erase fuel)))
    as H.
  specialize (H) with (i := i) (k := 0) (n := property_count m i) (m := m).
  destruct (resolve_properties _ _ _ _ _) as [m1 r]. simpl in *.
  apply good_map, H; [|done|].
  - intros n m' Hm'. simpl.
    unfold Model_AnyRef.
    rewrite (same_Structures m m' Hm'), (same_Enumerations m m' Hm'),
      (same_TypeAliases m m' Hm').
    destruct (scan Structure_Name (Structures m) n) as [j|] eqn:Ej.
    + intros Hj.
      pose proof (IH fuel m' n j ltac:(lia)) as Hg.
      rewrite (same_Structures m m' Hm'), (same_within _ _ m m' _ Hm') in Hg.
      specialize (Hg Ej Hj).
      destruct (Model_Structure fuel n m') as [m2 r2]. simpl in *.
      by apply good_map.
    + unfold good.
      destruct (scan Enumeration_Name (Enumerations m) n); simpl.
      { by destruct total. }
      destruct (scan TypeAlias_Name (TypeAliases m) n); simpl.
      { by destruct total. }
      by destruct total.
  - intros k' Hk'. unfold property_count, property_type in *. rewrite Est in *.
    simpl in *.
    destruct (Properties st !! k') as [p|] eqn:Ep; simpl.
    + pose proof (forallb_lookup _ _ _ _ Hw Ep) as Hp. simpl in Hp.
      by apply andb_prop in Hp as [Hp _].
    + apply lookup_ge_None in Ep. lia.
Qed.

(** ** Emission from a resolved store *)

Lemma first_match_Some m name d :
  first_match m name = Some d →
  match d with
  | IsStructure i s =>
      scan Structure_Name (Structures m) name = Some i
      ∧ Structures m !! i = Some s
  | IsEnumeration i e =>
      scan Structure_Name (Structures m) name = None
      ∧ Enumerations m !! i = Some e
  | IsTypeAlias i a =>
      scan Structure_Name (Structures m) name = None
      ∧ TypeAliases m !! i = Some a
  end.
Proof.
  rewrite first_match_scans.
  destruct (scan Structure_Name (Structures m) name) as [i|].
  { destruct (Structures m !! i) eqn:E; simpl; intros [= <-]; done. }
  destruct (scan Enumeration_Name (Enumerations m) name) as [i|].
  { destruct (Enumerations m !! i) eqn:E; simpl; intros [= <-]; done. }
  destruct (scan TypeAlias_Name (TypeAliases m) name) as [i|]; simpl; [|done].
  destruct (TypeAliases m !! i) eqn:E; simpl; intros [= <-]; done.
Qed.

Section Fields.

Variable ToGoPascal : string → string.
Variable m : Model.
Variable PrintStruct_ : nat → string → string * outcome unit.

(** The loop returns if the calls it makes do. *)
Lemma fields_returns props types out :
  (∀ p ty reference h j out,
     p ∈ props → Property_Type p = Some ty →
     Schema_Reference ty = Some reference → Found reference = Some h →
     AnyRef_Structure h = Some j → (PrintStruct_ j out).2 ≠ Diverge) →
  (fields ToGoPascal m PrintStruct_ props types out).2 ≠ Diverge.
Proof.
  revert types out. induction props as [|p rest IH]; intros types out H;
    simpl; [done|].
  assert ((type_name m PrintStruct_ p out).2 ≠ Diverge) as Hp.
  { unfold type_name. repeat case_match; simpl; try done.
    match goal with
    | E : PrintStruct_ ?j ?o = _ |- _ =>
        pose proof (H p _ _ _ j o ltac:(left) ltac:(eassumption)
                      ltac:(eassumption) ltac:(eassumption)
                      ltac:(eassumption)) as Hj;
        by rewrite E in Hj
    end. }
  destruct (type_name m PrintStruct_ p out) as [out1 r].
  destruct r; simpl in *; try done.
  apply IH. intros q ty reference h j out' Hq. apply H. by right.
Qed.

Variable d : nat.

Lemma type_name_emitted p out :
  emits_as_expected ToGoPascal m PrintStruct_ d p →
  type_name m PrintStruct_ p out
  = (out +:+ emitted_for ToGoPascal m d p,
     Ok (from_option (expected_type m) EmptyString (Property_Type p))).
Proof.
  intros (ty & Hty & Hset & Href). unfold type_name, emitted_for.
  rewrite Hty. simpl. unfold expected_type, referred.
  unfold kind_set in Hset. apply andb_prop in Hset as [Hr Hb].
  destruct (String.eqb (Schema_Kind ty) "reference") eqn:Ek.
  - simpl in Hr. apply bool_decide_eq_true in Hr as [reference Hreference].
    apply String.eqb_eq in Ek.
    destruct (Href Ek reference Hreference) as (h & Hfound & Hlookup & Hcall).
    rewrite Hreference, Hfound. simpl. unfold lookup_name in Hlookup.
    destruct (first_match m (ReferenceSchema_Name reference)) as [dfn|] eqn:Ed;
      [|done].
    injection Hlookup as <-. apply first_match_Some in Ed.
    destruct dfn as [j s|j e|j a]; simpl; destruct Ed as [_ Ed].
    + rewrite (Hcall j out eq_refl), Ed. done.
    + by rewrite Ed, append_nil_r.
    + by rewrite Ed, append_nil_r.
  - rewrite append_nil_r.
    destruct (String.eqb (Schema_Kind ty) "base") eqn:Eb; [|done].
    simpl in Hb. apply bool_decide_eq_true in Hb as [base ->].
    by destruct (String.eqb (BaseSchema_Name base) "string").
Qed.

Lemma fields_emitted props types out :
  (∀ p, p ∈ props → emits_as_expected ToGoPascal m PrintStruct_ d p) →
  fields ToGoPascal m PrintStruct_ props types out
  = (out +:+ String.concat EmptyString
               (map (emitted_for ToGoPascal m d) props),
     Ok (types ++ expected_fields ToGoPascal m props)).
Proof.
  revert types out. induction props as [|p rest IH]; intros types out H; simpl.
  { by rewrite append_nil_r, app_nil_r. }
  rewrite (type_name_emitted p out) by (apply H; left).
  rewrite IH by (intros q Hq; apply H; by right).
  f_equal.
  - rewrite append_assoc. f_equal.
    destruct (map (emitted_for ToGoPascal m d) rest) eqn:E; simpl.
    + by rewrite append_nil_r.
    + done.
  - by rewrite <- app_assoc.
Qed.

End Fields.

Lemma property_type_lookup m i k st p :
  Structures m !! i = Some st → Properties st !! k = Some p →
  property_type m i k = Property_Type p.
Proof. intros H1 H2. unfold property_type. by rewrite H1; simpl; rewrite H2. Qed.

(** From a ready store the emitter returns. *)
Lemma PrintStruct_ready_returns ToGoPascal d m i out :
  ready d m i → (PrintStruct ToGoPascal d m i out).2 ≠ Diverge.
Proof.
  revert i out. induction d as [|d IH]; intros i out Hr; [done|].
  rewrite PrintStruct_unfold. unfold PrintStruct_body.
  destruct (Structures m !! i) as [st|] eqn:Est; [|done].
  pose proof (fields_returns ToGoPascal m (PrintStruct ToGoPascal d m)
                (Properties st) [] out) as H.
  destruct (fields _ _ _ _ _ _) as [out1 r].
  destruct r; simpl in *; try done.
  intros _. apply H; [|done]. intros p ty reference h j out' Hp Hty Href Hfound Hj.
  apply IH. apply list_elem_of_lookup_1 in Hp as [k Hk].
  destruct (Hr k ty reference) as (h' & Hfound' & _ & Hready); [|done|].
  { by rewrite (property_type_lookup m i k st p). }
  apply Hready. congruence.
Qed.

Lemma emitted_unfold ToGoPascal m d i :
  emitted ToGoPascal m (S d) i
  = match Structures m !! i with
    | None => EmptyString
    | Some s =>
        String.concat EmptyString
          (map (emitted_for ToGoPascal m d) (Properties s))
        +:+ declaration (Structure_Name s)
              (expected_fields ToGoPascal m (Properties s))
    end.
Proof. done. Qed.

(** From a ready store over a total catalog the emitter writes the
    expected text. *)
Lemma PrintStruct_emitted ToGoPascal d m i out :
  within true d m i = true → ready d m i →
  PrintStruct ToGoPascal d m i out
  = (out +:+ emitted ToGoPascal m d i, Ok ()).
Proof.
  revert i out. induction d as [|d IH]; intros i out Hw Hr; [done|].
  rewrite within_unfold in Hw. rewrite emitted_unfold, PrintStruct_unfold.
  unfold PrintStruct_body.
  destruct (Structures m !! i) as [st|] eqn:Est; [|done].
  rewrite (fields_emitted ToGoPascal m _ d).
  { simpl. by rewrite append_assoc. }
  intros p Hp. apply list_elem_of_lookup_1 in Hp as [k Hk].
  pose proof (forallb_lookup _ _ _ _ Hw Hk) as Hcond. simpl in Hcond.
  apply andb_prop in Hcond as [Hvisited Hset].
  destruct (Property_Type p) as [ty|] eqn:Ety; [|done]. simpl in Hset.
  exists ty. split; [done|]. split; [done|].
  intros _ reference Hreference.
  destruct (Hr k ty reference) as (h & Hfound & Hlookup & Hready); [|done|].
  { by rewrite (property_type_lookup m i k st p). }
  exists h. split; [done|]. split; [done|]. intros j out' Hj.
  apply IH; [|by apply Hready].
  simpl in Hvisited. rewrite visited_unfold, Hreference in Hvisited.
  simpl in Hvisited. rewrite lookup_name_scans in Hlookup.
  destruct (scan Structure_Name (Structures m)
              (ReferenceSchema_Name reference)) as [j'|].
  - injection Hlookup as <-. simpl in Hj. injection Hj as <-.
    by apply andb_prop in Hvisited as [? _].
  - destruct (scan Enumeration_Name (Enumerations m) _).
    + by injection Hlookup as <-.
    + destruct (scan TypeAlias_Name (TypeAliases m) _); [|done].
      by injection Hlookup as <-.
Qed.

(** ** The expected text does not depend on handles *)

Lemma first_match_erase m name :
  first_match (erase_Model m) name = erase_definition <$> first_match m name.
Proof.
  rewrite !first_match_scans.
  rewrite scan_erase_Structures, scan_erase_Enumerations,
    scan_erase_TypeAliases.
  simpl Structures. simpl Enumerations. simpl TypeAliases.
  destruct (scan Structure_Name (Structures m) name) as [i|].
  { rewrite list_lookup_fmap. by destruct (Structures m !! i). }
  destruct (scan Enumeration_Name (Enumerations m) name) as [i|].
  { rewrite list_lookup_fmap. by destruct (Enumerations m !! i). }
  destruct (scan TypeAlias_Name (TypeAliases m) name) as [i|]; simpl; [|done].
  rewrite list_lookup_fmap. by destruct (TypeAliases m !! i).
Qed.

Lemma referred_erase m ty :
  referred (erase_Model m) (erase ty) = erase_definition <$> referred m ty.
Proof.
  unfold referred. rewrite erase_unfold. simpl.
  destruct (String.eqb (Schema_Kind ty) "reference"); [|done].
  destruct (Schema_Reference ty) as [ref|]; simpl; [|done].
  apply first_match_erase.
Qed.

Lemma expected_type_erase m ty :
  expected_type (erase_Model m) (erase ty) = expected_type m ty.
Proof.
  unfold expected_type. rewrite referred_erase.
  rewrite erase_unfold. simpl.
  destruct (String.eqb (Schema_Kind ty) "reference"); [|done].
  by destruct (referred m ty) as [[]|].
Qed.

Lemma map_fmap_ext {A B C : Type} (f : B → C) (g : A → B) (h : A → C)
    (l : list A) :
  (∀ x, f (g x) = h x) → map f (g <$> l) = map h l.
Proof.
  intros H. induction l as [|x l IH]; csimpl; [done|]. by rewrite H, IH.
Qed.

Lemma emitted_erase ToGoPascal m d i :
  emitted ToGoPascal (erase_Model m) d i = emitted ToGoPascal m d i.
Proof.
  revert i. induction d as [|d IH]; intros i; [done|].
  rewrite !emitted_unfold. simpl Structures. rewrite list_lookup_fmap.
  destruct (Structures m !! i) as [st|]; simpl; [|done].
  f_equal; [f_equal|f_equal].
  - apply map_fmap_ext. intros p. unfold emitted_for. simpl.
    destruct (Property_Type p) as [ty|]; simpl; [|done].
    rewrite referred_erase.
    destruct (referred m ty) as [[]|]; simpl; [apply IH|done..].
  - unfold expected_fields. apply map_fmap_ext. intros p. simpl.
    f_equal. destruct (Property_Type p); simpl; [apply expected_type_erase|done].
Qed.

Lemma same_emitted ToGoPascal m m' d i :
  erase_Model m' = erase_Model m →
  emitted ToGoPascal m' d i = emitted ToGoPascal m d i.
Proof. intros H. by rewrite <- emitted_erase, H, emitted_erase. Qed.

(** ** More depth, more fuel *)

Lemma forallb_impl {A : Type} (f g : A → bool) (l : list A) :
  (∀ x, f x = true → g x = true) → forallb f l = true → forallb g l = true.
Proof.
  intros Himpl. induction l as [|x l IH]; simpl; [done|].
  intros [Hx Hl]%andb_prop. apply andb_true_intro. auto.
Qed.

Lemma within_S total d m i :
  within total d m i = true → within total (S d) m i = true.
Proof.
  revert i. induction d as [|d IH]; intros i; [done|].
  rewrite (within_unfold total (S d)), (within_unfold total d).
  destruct (Structures m !! i) as [st|]; [|done].
  apply forallb_impl. intros p [H1 H2]%andb_prop. apply andb_true_intro.
  split; [|done]. revert H1. apply forallb_impl.
  intros [name|]; simpl; [|done].
  destruct (scan Structure_Name (Structures m) name); [apply IH|done].
Qed.

Lemma within_le total d d' m i :
  d ≤ d' → within total d m i = true → within total d' m i = true.
Proof.
  induction 1 as [|d' Hle IH]; [done|]. intros Hw. by apply within_S, IH.
Qed.

(** Within the depth of a total catalog the expected text is found. *)
Lemma emitted_S ToGoPascal m d i :
  within true d m i = true →
  emitted ToGoPascal m (S d) i = emitted ToGoPascal m d i.
Proof.
  revert i. induction d as [|d IH]; intros i; [done|].
  rewrite within_unfold, (emitted_unfold _ _ (S d)), (emitted_unfold _ _ d).
  destruct (Structures m !! i) as [st|]; [|done]. intros Hw.
  f_equal. f_equal. apply map_ext_in. intros p Hp%list_elem_of_In.
  apply list_elem_of_lookup_1 in Hp as [k Hk].
  pose proof (forallb_lookup _ _ _ _ Hw Hk) as Hcond. simpl in Hcond.
  apply andb_prop in Hcond as [Hvisited _].
  unfold emitted_for. destruct (Property_Type p) as [ty|]; simpl; [|done].
  unfold referred.
  destruct (String.eqb (Schema_Kind ty) "reference"); [|done].
  destruct (Schema_Reference ty) as [reference|] eqn:Eref; simpl; [|done].
  destruct (first_match m (ReferenceSchema_Name reference)) as [[j s| |]|]
    eqn:Ed; try done.
  apply first_match_Some in Ed as [Ed _]. apply IH.
  simpl in Hvisited. rewrite visited_unfold, Eref in Hvisited.
  simpl in Hvisited. rewrite Ed in Hvisited.
  by apply andb_prop in Hvisited as [? _].
Qed.

Lemma emitted_le ToGoPascal m d d' i :
  d ≤ d' → within true d m i = true →
  emitted ToGoPascal m d' i = emitted ToGoPascal m d i.
Proof.
  induction 1 as [|d' Hle IH]; [done|]. intros Hw.
  rewrite emitted_S; [by apply IH|]. by apply (within_le _ d).
Qed.

(** ** Resolution, then emission *)


Lemma Model_Structure_unfold fuel name m :
  Model_Structure (S fuel) name m
  = match scan Structure_Name (Structures m) name with
    | None => (m, Err (StructureNotFound name))
    | Some found =>
        let '(m1, r) :=
          resolve_properties (Model_AnyRef (Model_Structure fuel))
            found 0 (property_count m found) m in
        (m1, outcome_map (λ _, found) r)
    end.
Proof. done. Qed.

(** A turn of the loop on a reference whose lookup does not return. *)
Lemma resolve_property_diverges AnyRef_ i k m s ref :
  property_type m i k = Some s → Schema_Reference s = Some ref →
  AnyRef_ (ReferenceSchema_Name ref) m = (m, Diverge) →
  resolve_property AnyRef_ i k m = (store_property_type i k (Some s) m, Diverge).
Proof.
  intros Hs Href HA. unfold resolve_property. rewrite Hs. simpl.
  pose proof (ResolveRefs_top AnyRef_ s m) as H. rewrite Href, HA in H.
  by rewrite H.
Qed.

Lemma resolve_properties_unfold AnyRef_ i k n m :
  resolve_properties AnyRef_ i k (S n) m
  = let '(m1, r) := resolve_property AnyRef_ i k m in
    if is_Ok r then resolve_properties AnyRef_ i (S k) n m1 else (m1, r).
Proof. done. Qed.

Lemma selection_diverges fuel :
  Model_Structure fuel "SelectionRange" Sample.selection
  = (Sample.selection, Diverge).
Proof.
  induction fuel as [|fuel IH]; [done|].
  assert (Model_AnyRef (Model_Structure fuel) "SelectionRange" Sample.selection
          = (Sample.selection, Diverge)) as HA.
  { unfold Model_AnyRef.
    change (scan Structure_Name (Structures Sample.selection) "SelectionRange")
      with (Some 0).
    cbv beta iota. by rewrite IH. }
  rewrite Model_Structure_unfold.
  change (scan Structure_Name (Structures Sample.selection) "SelectionRange")
    with (Some 0).
  cbv beta iota.
  change (property_count Sample.selection 0) with 1.
  rewrite resolve_properties_unfold.
  by rewrite (resolve_property_diverges _ 0 0 Sample.selection
                (Sample.reference "SelectionRange") _ eq_refl eq_refl HA).
Qed.

(** C2 as stated fails: the structure refers to itself, and with
    whatever fuel its resolution has not returned. *)
Lemma self_reference_never_resolves :
  scan Structure_Name (Structures Sample.selection) "SelectionRange" = Some 0
  ∧ ∀ fuel, run Sample.pascal fuel "SelectionRange" Sample.selection
            = (Sample.selection, EmptyString, Diverge).
Proof. split; [done|]. intros fuel. unfold run. by rewrite selection_diverges. Qed.


(** C4, as amended.  For every structure of a catalog that is total
    within some depth [d] of it, that is: the references reachable from
    it name definitions of the catalog and nest less than [d] structures
    deep (no structure leads back to itself), no schema pointer on the way
    is nil, and the kind of a property's node names the pointer that is
    set, resolution followed by emission succeeds with fuel [d] or more.
    The text written ends with the declaration of the structure, which
    has exactly one field per property, in the order of the properties,
    each with the property's wire name as its tag and the type name
    expected for the kind of its node; before it come the declarations
    of the structures referred to. *)
Theorem resolve_then_emit (ToGoPascal : string → string) d m name i fuel :
  scan Structure_Name (Structures m) name = Some i →
  within true d m i = true →
  d ≤ fuel →
  ∃ m' st before,
    run ToGoPascal fuel name m = (m', emitted ToGoPascal m d i, Ok ())
    ∧ erase_Model m' = erase_Model m
    ∧ Structures m !! i = Some st
    ∧ emitted ToGoPascal m d i
      = before
        +:+ declaration (Structure_Name st)
              (map (λ p, field (ToGoPascal (Property_Name p))
                           (from_option (expected_type m) EmptyString
                              (Property_Type p))
                           (Property_Name p))
                 (Properties st)).
Proof.
  intros Hi Hw Hd. unfold run.
  pose proof (Model_Structure_good true d fuel m name i Hd Hi Hw) as Hg.
  pose proof (Model_Structure_erase fuel name m) as He.
  destruct (Model_Structure fuel name m) as [m1 r] eqn:E. simpl in Hg, He.
  destruct r as [diag| | |]; try done.
  pose proof (Model_Structure_found _ _ _ _ _ E) as Hfound.
  rewrite Hi in Hfound. injection Hfound as <-.
  rewrite (PrintStruct_emitted ToGoPascal fuel m1 i EmptyString).
  2:{ rewrite (same_within _ _ m m1 _ He). by apply (within_le _ d). }
  2:{ by apply (Model_Structure_ready _ _ _ _ _ E). }
  rewrite (same_emitted _ m m1 _ _ He), (emitted_le _ _ d fuel) by done.
  destruct d as [|d]; [done|].
  rewrite within_unfold in Hw. rewrite emitted_unfold.
  destruct (Structures m !! i) as [st|]; [|done].
  by exists m1, st,
       (String.concat EmptyString
          (map (emitted_for ToGoPascal m d) (Properties st))).
Qed.

Lemma resolve_then_emit_witness :
  ∃ m' st before,
    run Sample.pascal 2 "Diagnostic" Sample.diagnostic
    = (m', emitted Sample.pascal Sample.diagnostic 2 0, Ok ())
    ∧ erase_Model m' = erase_Model Sample.diagnostic
    ∧ Structures Sample.diagnostic !! 0 = Some st
    ∧ emitted Sample.pascal Sample.diagnostic 2 0
      = before
        +:+ declaration (Structure_Name st)
              (map (λ p, field (Sample.pascal (Property_Name p))
                           (from_option (expected_type Sample.diagnostic)
                              EmptyString (Property_Type p))
                           (Property_Name p))
                 (Properties st)).
Proof.
  apply (resolve_then_emit Sample.pascal 2 Sample.diagnostic "Diagnostic" 0 2);
    [reflexivity|reflexivity|lia].
Defined.

Lemma mutual_diverges fuel :
  Model_Structure fuel "Outer" Sample.mutual = (Sample.mutual, Diverge)
  ∧ Model_Structure fuel "Inner" Sample.mutual = (Sample.mutual, Diverge).
Proof.
  induction fuel as [|fuel [IH1 IH2]]; [done|].
  assert (Model_AnyRef (Model_Structure fuel) "Inner" Sample.mutual
          = (Sample.mutual, Diverge)) as HA1.
  { unfold Model_AnyRef.
    change (scan Structure_Name (Structures Sample.mutual) "Inner")
      with (Some 1).
    cbv beta iota. by rewrite IH2. }
  assert (Model_AnyRef (Model_Structure fuel) "Outer" Sample.mutual
          = (Sample.mutual, Diverge)) as HA2.
  { unfold Model_AnyRef.
    change (scan Structure_Name (Structures Sample.mutual) "Outer")
      with (Some 0).
    cbv beta iota. by rewrite IH1. }
  split; rewrite Model_Structure_unfold.
  - change (scan Structure_Name (Structures Sample.mutual) "Outer")
      with (Some 0).
    cbv beta iota. change (property_count Sample.mutual 0) with 1.
    rewrite resolve_properties_unfold.
    by rewrite (resolve_property_diverges _ 0 0 Sample.mutual
                  (Sample.reference "Inner") _ eq_refl eq_refl HA1).
  - change (scan Structure_Name (Structures Sample.mutual) "Inner")
      with (Some 1).
    cbv beta iota. change (property_count Sample.mutual 1) with 1.
    rewrite resolve_properties_unfold.
    by rewrite (resolve_property_diverges _ 1 0 Sample.mutual
                  (Sample.reference "Outer") _ eq_refl eq_refl HA2).
Qed.

(** C4 as stated fails: every name referred to from [Outer] is the name
    of a structure of the catalog, yet with whatever fuel resolution has
    not returned and nothing is emitted. *)
Lemma resolvable_names_without_result :
  (∃ inner outer, first_match Sample.mutual "Inner" = Some inner
                  ∧ first_match Sample.mutual "Outer" = Some outer)
  ∧ ∀ fuel, run Sample.pascal fuel "Outer" Sample.mutual
            = (Sample.mutual, EmptyString, Diverge).
Proof.
  split; [by eexists _, _|]. intros fuel. unfold run.
  by rewrite (proj1 (mutual_diverges fuel)).
Qed.

(** ** Unknown kinds below a node *)

Section JSON_ind.

Variable P : JSON → Prop.
Hypothesis P_null : P JNull.
Hypothesis P_bool : ∀ b, P (JBool b).
Hypothesis P_number : ∀ literal, P (JNumber literal).
Hypothesis P_string : ∀ s, P (JString s).
Hypothesis P_array : ∀ elements, Forall P elements → P (JArray elements).
Hypothesis P_object : ∀ members,
  Forall (λ member, P member.2) members → P (JObject members).

Fixpoint JSON_ind (b : JSON) : P b :=
  match b with
  | JNull => P_null
  | JBool x => P_bool x
  | JNumber x => P_number x
  | JString x => P_string x
  | JArray elements =>
      P_array elements
        ((fix all (l : list JSON) : Forall P l :=
            match l with
            | [] => List.Forall_nil _
            | v :: l' => @List.Forall_cons _ _ v l' (JSON_ind v) (all l')
            end) elements)
  | JObject members =>
      P_object members
        ((fix all (l : list (string * JSON))
            : Forall (λ member, P member.2) l :=
            match l with
            | [] => List.Forall_nil _
            | member :: l' =>
                @List.Forall_cons _ (λ member, P member.2) member l'
                  (JSON_ind member.2) (all l')
            end) members)
  end.

End JSON_ind.

Section Members.

Context {T : Type} (field : string → JSON → T → flags → option (step T)).
Variable strict : bool.
Variable Inv : T → Prop.
Variable Q : JSON → Prop.

Hypothesis field_Inv : ∀ name v t fl t' fl',
  Q v → Inv t → field name v t fl = Some (Next t' fl') → Inv t'.

(** What every member keeps, the whole object keeps. *)
Lemma decode_members_Inv members t fl t' fl' :
  Forall (λ member, Q member.2) members → Inv t →
  decode_members field strict members t fl = Next t' fl' → Inv t'.
Proof.
  intros Hm. revert t fl.
  induction Hm as [|[name v] rest Hv _ IH]; intros t fl Ht; simpl.
  { by intros [= <- <-]. }
  destruct (field (foldName name) v t fl) as [[t1 fl1|e]|] eqn:E; [|done|].
  - apply IH. by eapply field_Inv.
  - by apply IH.
Qed.

Lemma decode_struct_Inv b t t' :
  match b with
  | JObject members => Forall (λ member, Q member.2) members
  | _ => True
  end →
  Inv t → decode_struct field strict b t = Decoded t' → Inv t'.
Proof.
  intros Hb Ht. unfold decode_struct.
  assert (∀ r : step T, finish r = Decoded t' → ∃ fl, r = Next t' fl) as Hf.
  { intros [a fl|e]; simpl; [|done].
    destruct (saved_error fl), (unmodelled fl); try done.
    intros [= <-]. by exists fl. }
  intros [fl H]%Hf. destruct b; simplify_eq; try done.
  by eapply decode_members_Inv.
Qed.

End Members.

Lemma set_Schema_known v current fl e fl' :
  decodes_known v → from_option known_throughout true current = true →
  set_Schema Schema_UnmarshalJSON v current fl = Next e fl' →
  from_option known_throughout true e = true.
Proof.
  intros Hv Hc. unfold set_Schema.
  destruct v; try (by intros [= <- <-]);
    (destruct current as [c|]; [by intros [= <- <-]|]);
    match goal with
    | |- context [Schema_UnmarshalJSON new_Schema ?b] =>
        destruct (Schema_UnmarshalJSON new_Schema b) as [node| |] eqn:E;
        try done; intros [= <- <-]; try done; by apply Hv
    end.
Qed.

Lemma set_elements_known elements fl items fl' :
  Forall decodes_known elements →
  set_elements Schema_UnmarshalJSON elements fl = Next items fl' →
  forallb (from_option known_throughout true) items = true.
Proof.
  intros H. revert fl items fl'.
  induction H as [|v rest Hv _ IH]; intros fl items fl'; simpl.
  { by intros [= <- <-]. }
  destruct (set_Schema Schema_UnmarshalJSON v None fl) as [e fl1|] eqn:E1;
    [|done].
  destruct (set_elements Schema_UnmarshalJSON rest fl1) as [items1 fl2|] eqn:E2;
    [|done].
  intros [= <- <-]. simpl. apply andb_true_intro. split.
  - by apply (set_Schema_known v None fl e fl1 Hv eq_refl).
  - by eapply IH.
Qed.

Lemma set_Schemas_known v current fl items fl' :
  decodes_known_deep v →
  forallb (from_option known_throughout true) current = true →
  set_Schemas Schema_UnmarshalJSON v current fl = Next items fl' →
  forallb (from_option known_throughout true) items = true.
Proof.
  intros [_ Hv] Hc. unfold set_Schemas.
  destruct v; try (by intros [= <- <-]).
  destruct current; [|by intros [= <- <-]].
  by apply set_elements_known.
Qed.

Lemma known_throughout_unfold s :
  known_throughout s
  = bool_decide (Schema_Kind s ∈ known_kinds)
    && from_option (λ a, from_option known_throughout true (Element a)) true
         (Schema_Array s)
    && from_option
         (λ o, forallb (from_option known_throughout true) (Items o)) true
         (Schema_Or s)
    && from_option
         (λ o, forallb (from_option known_throughout true) (Items o)) true
         (Schema_And s)
    && from_option
         (λ mp, from_option known_throughout true (Key mp)
                && from_option known_throughout true (Value mp)) true
         (Schema_Map s)
    && from_option
         (λ o, forallb (from_option known_throughout true) (Items o)) true
         (Schema_Tuple s).
Proof. by destruct s. Qed.

Lemma into_Next {A T : Type} (r : step A) (assign : A → T) t' fl' :
  into r assign = Some (Next t' fl') →
  ∃ a, r = Next a fl' ∧ t' = assign a.
Proof. destruct r; simpl; intros [= <- <-]; eauto. Qed.

Lemma ArraySchema_field_known name v (t : ArraySchema) fl t' fl' :
  decodes_known_deep v →
  from_option known_throughout true (Element t) = true →
  ArraySchema_field Schema_UnmarshalJSON name v t fl = Some (Next t' fl') →
  from_option known_throughout true (Element t') = true.
Proof.
  intros [Hv _] Ht. unfold ArraySchema_field.
  repeat case_match; try done; intros (x & Hx & ->)%into_Next; simpl; [done|].
  by eapply set_Schema_known.
Qed.

Lemma ItemsSchema_field_known name v (t : ItemsSchemaOf Schema) fl t' fl' :
  decodes_known_deep v →
  forallb (from_option known_throughout true) (Items t) = true →
  ItemsSchema_field Schema_UnmarshalJSON name v t fl = Some (Next t' fl') →
  forallb (from_option known_throughout true) (Items t') = true.
Proof.
  intros Hv Ht. unfold ItemsSchema_field.
  repeat case_match; try done; intros (x & Hx & ->)%into_Next; simpl; [done|].
  by eapply set_Schemas_known.
Qed.

Lemma MapSchema_field_known name v (t : MapSchema) fl t' fl' :
  decodes_known_deep v →
  from_option known_throughout true (Key t)
  && from_option known_throughout true (Value t) = true →
  MapSchema_field Schema_UnmarshalJSON name v t fl = Some (Next t' fl') →
  from_option known_throughout true (Key t')
  && from_option known_throughout true (Value t') = true.
Proof.
  intros [Hv _] [Hk Hx]%andb_prop. unfold MapSchema_field.
  repeat case_match; try done; intros (x & Hset & ->)%into_Next; simpl;
    apply andb_true_intro; split; try done.
  all: eapply set_Schema_known; [exact Hv| |exact Hset]; assumption.
Qed.

(** A decoded node has known kinds throughout. *)
Lemma UnmarshalJSON_known b : decodes_known_deep b.
Proof.
  induction b as [| | | |elements IH|members IH] using JSON_ind;
    (split; [|try done]).
  6:{ eapply Forall_impl; [exact IH|]. by intros v [Hv _]. }
  all: intros node; rewrite UnmarshalJSON_unfold; unfold UnmarshalJSON_body.
  all: match goal with |- context [explore ?b] =>
         destruct (explore b) as [kind| |] eqn:He; [|done..] end.
  all: unfold unmarshalStrict.
  all: repeat (case_match; try done).
  all: repeat match goal with
         | H : String.eqb _ _ = true |- _ => apply String.eqb_eq in H; subst
         end.
  all: intros [= <-]; rewrite known_throughout_unfold; simpl.
  all: try done.
  all: rewrite ?andb_true_r.
  all: match goal with
       | H : decode_struct _ _ _ _ = Decoded _ |- _ => revert H
       end.
  - apply (decode_struct_Inv _ true
             (λ a : ArraySchema,
                from_option known_throughout true (Element a) = true)
             decodes_known_deep ArraySchema_field_known (JObject members)
             {| ArraySchema_Kind := EmptyString; Element := None |} _
             IH eq_refl).
  - apply (decode_struct_Inv _ true
             (λ o : ItemsSchemaOf Schema,
                forallb (from_option known_throughout true) (Items o) = true)
             decodes_known_deep ItemsSchema_field_known (JObject members)
             no_Items _ IH eq_refl).
  - apply (decode_struct_Inv _ true
             (λ o : ItemsSchemaOf Schema,
                forallb (from_option known_throughout true) (Items o) = true)
             decodes_known_deep ItemsSchema_field_known (JObject members)
             no_Items _ IH eq_refl).
  - apply (decode_struct_Inv _ true
             (λ mp : MapSchema,
                from_option known_throughout true (Key mp)
                && from_option known_throughout true (Value mp) = true)
             decodes_known_deep MapSchema_field_known (JObject members)
             {| MapSchema_Kind := EmptyString; Key := None; Value := None |} _
             IH eq_refl).
  - apply (decode_struct_Inv _ true
             (λ o : ItemsSchemaOf Schema,
                forallb (from_option known_throughout true) (Items o) = true)
             decodes_known_deep ItemsSchema_field_known (JObject members)
             no_Items _ IH eq_refl).
Qed.

(** C7.  A fragment whose discriminator is none of the nine kinds is
    rejected by [Schema_UnmarshalJSON] with an error, whatever node
    receives it: the error of the library if the discriminator cannot be
    read as a string, and else the unknown-kind error with the
    discriminator that was read.  The error of a node below is the error
    of the node above, so that a node which was decoded has one of the
    nine kinds at every node below it: a document with another
    discriminator at some schema node yields no catalog to resolve. *)
Theorem UnmarshalJSON_rejects_unknown_kind :
  (∀ s b,
     (∀ kind, kind ∈ known_kinds → explore b ≠ Decoded kind) →
     (explore b = DecodeError JsonError
      ∧ Schema_UnmarshalJSON s b = DecodeError JsonError)
     ∨ (∃ kind, explore b = Decoded kind ∧ (kind ∉ known_kinds)
         ∧ Schema_UnmarshalJSON s b = DecodeError (UnknownSchemaKind kind)))
  ∧ (∀ b s,
       Schema_UnmarshalJSON new_Schema b = Decoded s →
       known_throughout s = true).
Proof.
  split; [apply UnmarshalJSON_not_known|].
  intros b. apply UnmarshalJSON_known.
Qed.

Lemma UnmarshalJSON_rejects_unknown_kind_witness :
  Schema_UnmarshalJSON new_Schema
    (JObject [("kind", JString "enumeration"); ("name", JString "Kind")])
  = DecodeError (UnknownSchemaKind "enumeration").
Proof.
  destruct (proj1 UnmarshalJSON_rejects_unknown_kind new_Schema
              (JObject [("kind", JString "enumeration");
                        ("name", JString "Kind")]))
    as [[H _]|(kind & H1 & _ & H2)].
  - intros kind Hk He. vm_compute in He. injection He as <-.
    apply list_elem_of_In in Hk. simpl in Hk. intuition discriminate.
  - by vm_compute in H.
  - vm_compute in H1. by simplify_eq.
Defined.

(** A node below with an unknown kind: the array is not decoded. *)
Example unknown_kind_below :
  Schema_UnmarshalJSON new_Schema
    (JObject [("kind", JString "array");
              ("element", JObject [("kind", JString "set")])])
  = DecodeError (UnmarshalSchemaType "array").
Proof. reflexivity. Qed.

(** A fragment of the meta-model is decoded. *)
Example array_of_string_decoded :
  Schema_UnmarshalJSON new_Schema SampleDocument.array_of_string
  = Decoded
      (mkSchema no_BaseElement "array" None None
         (Some {| ArraySchema_Kind := "array";
                  Element := Some (Sample.base "string") |})
         None None None None None None).
Proof. reflexivity. Qed.

(** The catalog of section 8 of the specification: both fields carry
    the marker, the required one too. *)
Example position_emitted :
  run Sample.pascal 1 "Position" Sample.position
  = (Sample.position,
     "type Position struct {" +:+ newline
     +:+ tab +:+ "Line string `json:" +:+ quote +:+ "line,omitempty" +:+ quote
     +:+ newline
     +:+ tab +:+ "Character string `json:" +:+ quote +:+ "character,omitempty"
     +:+ quote +:+ newline
     +:+ "}" +:+ newline,
     Ok ()).
Proof. reflexivity. Qed.

(** ** The optional flag and resolution *)

Lemma scan_imap {A : Type} (name_of : A → string) (g : nat → A → A)
    (l : list A) (name : string) :
  (∀ i x, name_of (g i x) = name_of x) →
  scan name_of (imap g l) name = scan name_of l name.
Proof.
  revert g. induction l as [|x l IH]; intros g Hg; simpl; [done|].
  rewrite Hg. destruct (String.eqb (name_of x) name); [done|].
  rewrite IH; [done|]. intros i y. apply Hg.
Qed.

Section Optional.

Variable f : nat → nat → bool.

Lemma scan_with_Optional m name :
  scan Structure_Name (Structures (with_Optional f m)) name
  = scan Structure_Name (Structures m) name.
Proof. unfold with_Optional. simpl. by apply scan_imap. Qed.

Lemma property_type_with_Optional m i k :
  property_type (with_Optional f m) i k = property_type m i k.
Proof.
  unfold property_type. rewrite Structures_with_Optional.
  destruct (Structures m !! i) as [st|]; simpl; [|done].
  rewrite list_lookup_imap. by destruct (Properties st !! k).
Qed.

Lemma property_count_with_Optional m i :
  property_count (with_Optional f m) i = property_count m i.
Proof.
  unfold property_count. rewrite Structures_with_Optional.
  destruct (Structures m !! i) as [st|]; simpl; [|done].
  by rewrite length_imap.
Qed.

Lemma store_with_Optional i k ty m :
  store_property_type i k ty (with_Optional f m)
  = with_Optional f (store_property_type i k ty m).
Proof.
  unfold store_property_type, with_Optional, Model_with_Structures. simpl.
  f_equal. apply list_eq. intros j.
  rewrite list_lookup_alter, !list_lookup_imap, list_lookup_alter.
  destruct (decide (i = j)) as [<-|]; [|done].
  destruct (Structures m !! i) as [st|]; simpl; [|done].
  f_equal. unfold Structure_with_Properties. simpl. f_equal.
  apply list_eq. intros k'.
  rewrite list_lookup_alter, !list_lookup_imap, list_lookup_alter.
  destruct (decide (k = k')) as [<-|]; [|done].
  by destruct (Properties st !! k).
Qed.

Variable AnyRef_ : string → Model → Model * outcome AnyRef.

Hypothesis AnyRef_with_Optional : ∀ name m,
  AnyRef_ name (with_Optional f m)
  = ((with_Optional f (AnyRef_ name m).1), (AnyRef_ name m).2).

Lemma through_with_Optional p m :
  from_option
    (λ s, ∀ m, Model_ResolveRefs AnyRef_ s (with_Optional f m)
               = let '(m', s', r) := Model_ResolveRefs AnyRef_ s m in
                 (with_Optional f m', s', r)) True p →
  through (Model_ResolveRefs AnyRef_) p (with_Optional f m)
  = let '(m', p', r) := through (Model_ResolveRefs AnyRef_) p m in
    (with_Optional f m', p', r).
Proof.
  destruct p as [s|]; simpl; [|done]. intros H. rewrite H.
  by destruct (Model_ResolveRefs AnyRef_ s m) as [[m' s'] r].
Qed.

Lemma each_with_Optional items m :
  Forall
    (from_option
       (λ s, ∀ m, Model_ResolveRefs AnyRef_ s (with_Optional f m)
                  = let '(m', s', r) := Model_ResolveRefs AnyRef_ s m in
                    (with_Optional f m', s', r)) True) items →
  each (Model_ResolveRefs AnyRef_) items (with_Optional f m)
  = let '(m', items', r) := each (Model_ResolveRefs AnyRef_) items m in
    (with_Optional f m', items', r).
Proof.
  intros H. revert m. induction H as [|p rest Hp _ IH]; intros m; simpl;
    [done|].
  rewrite (through_with_Optional p m Hp).
  destruct (through (Model_ResolveRefs AnyRef_) p m) as [[m1 p'] r].
  destruct (is_Ok r); [|done]. rewrite IH.
  by destruct (each (Model_ResolveRefs AnyRef_) rest m1) as [[m2 rest'] r2].
Qed.

Lemma each_of_with_Optional o m :
  from_option
    (λ o, Forall
            (from_option
               (λ s, ∀ m, Model_ResolveRefs AnyRef_ s (with_Optional f m)
                          = let '(m', s', r) := Model_ResolveRefs AnyRef_ s m in
                            (with_Optional f m', s', r)) True) (Items o))
    True o →
  each_of (Model_ResolveRefs AnyRef_) o (with_Optional f m)
  = let '(m', o', r) := each_of (Model_ResolveRefs AnyRef_) o m in
    (with_Optional f m', o', r).
Proof.
  destruct o as [o|]; simpl; [|done]. intros H.
  rewrite (each_with_Optional (Items o) m H).
  by destruct (each (Model_ResolveRefs AnyRef_) (Items o) m) as [[m' items] r].
Qed.

Lemma key_value_with_Optional mp m :
  from_option
    (λ mp,
       from_option
         (λ s, ∀ m, Model_ResolveRefs AnyRef_ s (with_Optional f m)
                    = let '(m', s', r) := Model_ResolveRefs AnyRef_ s m in
                      (with_Optional f m', s', r)) True (Key mp)
       ∧ from_option
           (λ s, ∀ m, Model_ResolveRefs AnyRef_ s (with_Optional f m)
                      = let '(m', s', r) := Model_ResolveRefs AnyRef_ s m in
                        (with_Optional f m', s', r)) True (Value mp))
    True mp →
  key_value (Model_ResolveRefs AnyRef_) mp (with_Optional f m)
  = let '(m', mp', r) := key_value (Model_ResolveRefs AnyRef_) mp m in
    (with_Optional f m', mp', r).
Proof.
  destruct mp as [mp|]; simpl; [|done]. intros [Hk Hv].
  rewrite (through_with_Optional (Key mp) m Hk).
  destruct (through (Model_ResolveRefs AnyRef_) (Key mp) m) as [[m1 k] r].
  destruct (is_Ok r); [|done].
  rewrite (through_with_Optional (Value mp) m1 Hv).
  by destruct (through (Model_ResolveRefs AnyRef_) (Value mp) m1)
    as [[m2 v] r2].
Qed.

Lemma ResolveRefs_with_Optional s m :
  Model_ResolveRefs AnyRef_ s (with_Optional f m)
  = let '(m', s', r) := Model_ResolveRefs AnyRef_ s m in
    (with_Optional f m', s', r).
Proof.
  revert m. induction s as [s Harr Hor Hand Hmap Htup] using Schema_ind.
  intros m. rewrite !Model_ResolveRefs_unfold. unfold ResolveRefs_body.
  destruct (Schema_Reference s) as [ref|].
  { rewrite AnyRef_with_Optional.
    destruct (AnyRef_ (ReferenceSchema_Name ref) m) as [m1 found].
    by destruct found. }
  destruct (Schema_Array s) as [a|].
  { simpl in Harr. rewrite (through_with_Optional (Element a) m Harr).
    by destruct (through (Model_ResolveRefs AnyRef_) (Element a) m)
      as [[m1 e] r]. }
  rewrite (each_of_with_Optional (Schema_Or s) m Hor).
  destruct (each_of (Model_ResolveRefs AnyRef_) (Schema_Or s) m)
    as [[m1 o] r1].
  destruct (is_Ok r1); [|done].
  rewrite (each_of_with_Optional (Schema_And s) m1 Hand).
  destruct (each_of (Model_ResolveRefs AnyRef_) (Schema_And s) m1)
    as [[m2 a] r2].
  destruct (is_Ok r2); [|done].
  rewrite (key_value_with_Optional (Schema_Map s) m2 Hmap).
  destruct (key_value (Model_ResolveRefs AnyRef_) (Schema_Map s) m2)
    as [[m3 mp] r3].
  destruct (is_Ok r3); [|done].
  rewrite (each_of_with_Optional (Schema_Tuple s) m3 Htup).
  by destruct (each_of (Model_ResolveRefs AnyRef_) (Schema_Tuple s) m3)
    as [[m4 t] r4].
Qed.

Lemma resolve_property_with_Optional i k m :
  resolve_property AnyRef_ i k (with_Optional f m)
  = let '(m', r) := resolve_property AnyRef_ i k m in (with_Optional f m', r).
Proof.
  unfold resolve_property. rewrite property_type_with_Optional.
  rewrite through_with_Optional.
  2:{ destruct (property_type m i k); simpl; [|done].
      intros m'. apply ResolveRefs_with_Optional. }
  destruct (through _ _ m) as [[m1 ty] r]. by rewrite store_with_Optional.
Qed.

Lemma resolve_properties_with_Optional i k n m :
  resolve_properties AnyRef_ i k n (with_Optional f m)
  = let '(m', r) := resolve_properties AnyRef_ i k n m in
    (with_Optional f m', r).
Proof.
  revert k m. induction n as [|n IH]; intros k m; simpl; [done|].
  rewrite resolve_property_with_Optional.
  destruct (resolve_property AnyRef_ i k m) as [m1 r].
  destruct (is_Ok r); [apply IH|done].
Qed.

End Optional.

Lemma Model_Structure_with_Optional f fuel name m :
  Model_Structure fuel name (with_Optional f m)
  = let '(m', r) := Model_Structure fuel name m in (with_Optional f m', r).
Proof.
  revert name m. induction fuel as [|fuel IH]; intros name m; [done|].
  rewrite !Model_Structure_unfold, scan_with_Optional.
  destruct (scan Structure_Name (Structures m) name) as [i|]; [|done].
  rewrite property_count_with_Optional, resolve_properties_with_Optional.
  { by destruct (resolve_properties _ _ _ _ _). }
  intros n m'. unfold Model_AnyRef. rewrite scan_with_Optional.
  destruct (scan Structure_Name (Structures m') n).
  - rewrite IH. by destruct (Model_Structure fuel n m').
  - simpl. by repeat case_match.
Qed.

Lemma run_with_Optional ToGoPascal f fuel name m :
  run ToGoPascal fuel name (with_Optional f m)
  = let '(m', out, r) := run ToGoPascal fuel name m in
    (with_Optional f m', out, r).
Proof.
  unfold run. rewrite Model_Structure_with_Optional.
  destruct (Model_Structure fuel name m) as [m1 r].
  destruct r; try done. rewrite PrintStruct_with_Optional.
  by destruct (PrintStruct _ _ _ _ _).
Qed.

(** C10.  The optional flag is read neither by the resolver nor by the
    emitter: with the flags of all properties changed at will, a run
    writes the same text and ends the same way, and so does any call of
    [PrintStruct].  What a call that returns has written last is the
    declaration of its structure with one entry per property, and every
    entry made by [field] ends with the omit-when-empty marker and the
    closing quote of the tag: required properties carry it too. *)
Theorem omitempty_whatever_the_flag (ToGoPascal : string → string) :
  (∀ f fuel name m,
     run ToGoPascal fuel name (with_Optional f m)
     = let '(m', out, r) := run ToGoPascal fuel name m in
       (with_Optional f m', out, r))
  ∧ (∀ f fuel m s out,
       PrintStruct ToGoPascal fuel (with_Optional f m) s out
       = PrintStruct ToGoPascal fuel m s out)
  ∧ (∀ fuel m s out out',
       PrintStruct ToGoPascal fuel m s out = (out', Ok ()) →
       ∃ st before typeNames,
         Structures m !! s = Some st
         ∧ length typeNames = length (Properties st)
         ∧ out' = before +:+ declaration (Structure_Name st)
                               (entries ToGoPascal (Properties st) typeNames))
  ∧ (∀ key typeName name,
       field key typeName name
       = (key +:+ " " +:+ typeName +:+ " `json:" +:+ quote +:+ name)
         +:+ ",omitempty" +:+ quote).
Proof.
  split; [intros; apply run_with_Optional|].
  split; [intros; apply PrintStruct_with_Optional|]. split.
  - intros fuel m s out out' H.
    apply PrintStruct_declaration in H as (st & before & tns & ? & _ & ? & ?).
    by exists st, before, tns.
  - intros key typeName name. unfold field. by rewrite !append_assoc.
Qed.

Lemma omitempty_whatever_the_flag_witness :
  ∃ st before typeNames,
    Structures Sample.position !! 0 = Some st
    ∧ length typeNames = length (Properties st)
    ∧ declaration "Position"
        [field "Line" "string" "line"; field "Character" "string" "character"]
      = before +:+ declaration (Structure_Name st)
                     (entries Sample.pascal (Properties st) typeNames).
Proof.
  exact (proj1 (proj2 (proj2 (omitempty_whatever_the_flag Sample.pascal)))
           1 Sample.position 0 EmptyString _ eq_refl).
Defined.

(** ** When resolution returns a structure *)

Lemma is_Ok_map {A B : Type} (f : A → B) (r : outcome A) :
  is_Ok (outcome_map f r) = is_Ok r.
Proof. by destruct r. Qed.

Lemma forallb_seq_lookup {A : Type} (g : option A → bool) (l : list A) :
  forallb (λ k, g (l !! k)) (seq 0 (length l)) = forallb (λ x, g (Some x)) l.
Proof.
  induction l as [|x l IH]; [done|]. simpl. f_equal.
  rewrite <- IH, <- fmap_S_seq. rewrite forallb_fmap. by apply forallb_ext.
Qed.

Lemma resolvable_unfold d m i :
  resolvable (S d) m i
  = match Structures m !! i with
    | None => false
    | Some s =>
        forallb
          (λ p, forallb (lookup_resolvable (resolvable d m) m)
                  (visited_through (Property_Type p)))
          (Properties s)
    end.
Proof. done. Qed.

Lemma resolvable_erase d m i :
  resolvable d (erase_Model m) i = resolvable d m i.
Proof.
  revert i. induction d as [|d IH]; intros i; [done|].
  rewrite !resolvable_unfold. simpl Structures. rewrite list_lookup_fmap.
  destruct (Structures m !! i) as [st|]; simpl; [|done].
  rewrite forallb_fmap. apply forallb_ext. intros p _. simpl.
  assert (visited_through (erase <$> Property_Type p)
          = visited_through (Property_Type p)) as ->.
  { destruct (Property_Type p); simpl; [apply visited_erase|done]. }
  apply forallb_ext. intros [name|] _; simpl; [|done].
  rewrite !scan_fmap.
  rewrite (scan_ext (Structure_Name ∘ erase_Structure) Structure_Name),
    (scan_ext (Enumeration_Name ∘ erase_Enumeration) Enumeration_Name),
    (scan_ext (TypeAlias_Name ∘ erase_TypeAlias) TypeAlias_Name) by done.
  destruct (scan Structure_Name (Structures m) name); [apply IH|done].
Qed.

Lemma same_resolvable d m m' i :
  erase_Model m' = erase_Model m → resolvable d m' i = resolvable d m i.
Proof. intros H. by rewrite <- resolvable_erase, H, resolvable_erase. Qed.

Section Resolvable.

Variable AnyRef_ : string → Model → Model * outcome AnyRef.
Variable test : option string → bool.
Variable m0 : Model.

Hypothesis test_nil : test None = false.

Hypothesis AnyRef_erase :
  ∀ name m, erase_Model (AnyRef_ name m).1 = erase_Model m.

Hypothesis AnyRef_test : ∀ name m,
  erase_Model m = erase_Model m0 →
  is_Ok (AnyRef_ name m).2 = test (Some name).

Lemma lookups_test l m :
  erase_Model m = erase_Model m0 →
  is_Ok (lookups AnyRef_ l m).2 = forallb test l.
Proof.
  revert m. induction l as [|[name|] l IH]; intros m Hm; simpl; [done| |].
  - pose proof (AnyRef_test name m Hm) as Ht.
    pose proof (AnyRef_erase name m) as He.
    destruct (AnyRef_ name m) as [m1 found]. simpl in *. rewrite <- Ht.
    destruct (is_Ok found) eqn:Hok; simpl.
    + apply IH. congruence.
    + by rewrite is_Ok_map.
  - by rewrite test_nil.
Qed.

Lemma resolve_property_test i k m :
  erase_Model m = erase_Model m0 →
  is_Ok (resolve_property AnyRef_ i k m).2
  = forallb test (visited_through (property_type m0 i k)).
Proof.
  intros Hm. unfold resolve_property.
  pose proof (through_lookups AnyRef_ (property_type m i k) m) as H.
  destruct (through _ _ _) as [[m1 ty] r]. simpl.
  destruct H as [H _].
  { destruct (property_type m i k); simpl; [apply ResolveRefs_lookups|done]. }
  replace r with (m1, r).2 by done. rewrite H.
  rewrite lookups_test by done.
  by rewrite (same_visited (property_type m0 i k))
    by apply (same_property_type m0 m Hm).
Qed.

Lemma resolve_properties_test i k n m :
  erase_Model m = erase_Model m0 →
  is_Ok (resolve_properties AnyRef_ i k n m).2
  = forallb (λ k', forallb test (visited_through (property_type m0 i k')))
      (seq k n).
Proof.
  revert k m. induction n as [|n IH]; intros k m Hm; simpl; [done|].
  pose proof (resolve_property_test i k m Hm) as Ht.
  pose proof (resolve_property_erase AnyRef_ AnyRef_erase i k m) as He.
  destruct (resolve_property AnyRef_ i k m) as [m1 r]. simpl in *.
  rewrite <- Ht. destruct (is_Ok r) eqn:Hr; simpl; [|done].
  apply IH. congruence.
Qed.

End Resolvable.

Lemma Model_Structure_resolvable fuel name m :
  is_Ok (Model_Structure fuel name m).2
  = from_option (resolvable fuel m) false
      (scan Structure_Name (Structures m) name).
Proof.
  revert name m. induction fuel as [|fuel IH]; intros name m.
  { simpl. by destruct (scan _ _ _). }
  simpl Model_Structure.
  destruct (scan Structure_Name (Structures m) name) as [i|] eqn:Hi; [|done].
  change (from_option (resolvable (S fuel) m) false (Some i))
    with (resolvable (S fuel) m i).
  rewrite resolvable_unfold.
  pose proof (resolve_properties_test (Model_AnyRef (Model_Structure fuel))
                (lookup_resolvable (resolvable fuel m) m) m eq_refl
                (λ n m, Model_AnyRef_erase _ n m (Model_Structure_erase fuel)))
    as H.
  specialize (H) with (i := i) (k := 0) (n := property_count m i) (m := m).
  destruct (resolve_properties _ _ _ _ _) as [m1 r]. simpl in *.
  rewrite is_Ok_map, H; [| |done].
  - unfold property_count, property_type.
    destruct (Structures m !! i) as [st|] eqn:Est; simpl.
    + by rewrite (forallb_seq_lookup
                    (λ o, forallb (lookup_resolvable (resolvable fuel m) m)
                            (visited_through (o ≫= Property_Type)))).
    + apply scan_Some in Hi as (x & Hx & _). congruence.
  - intros n m' Hm'. simpl. unfold Model_AnyRef.
    rewrite (same_Structures m m' Hm'), (same_Enumerations m m' Hm'),
      (same_TypeAliases m m' Hm').
    destruct (scan Structure_Name (Structures m) n) as [j|] eqn:Ej.
    + pose proof (IH n m') as Hg.
      rewrite (same_Structures m m' Hm'), Ej in Hg. simpl in Hg.
      rewrite (same_resolvable _ m m' _ Hm') in Hg.
      destruct (Model_Structure fuel n m') as [m2 r2]. simpl in *.
      by rewrite is_Ok_map.
    + destruct (scan Enumeration_Name (Enumerations m) n); simpl; [done|].
      by destruct (scan TypeAlias_Name (TypeAliases m) n).
Qed.

(** X1.  [m.Structure(name)] returns a structure exactly when a
    structure bears the name and every lookup the resolver comes to from
    its properties can be answered: no pointer on the way is nil, every
    name is that of a definition of the catalog, and the structures
    among them are in turn resolvable, less deep than the recursion is
    allowed to go. *)
Theorem Structure_returns_iff_resolvable (fuel : nat) (name : string)
    (m : Model) :
  is_Ok (Model_Structure fuel name m).2
  = from_option (resolvable fuel m) false
      (scan Structure_Name (Structures m) name).
Proof. apply Model_Structure_resolvable. Qed.

(** A structure that reaches itself is resolvable at no depth. *)
Lemma resolvable_refers d m i j :
  resolvable (S d) m i = true → refers_to m i j → resolvable d m j = true.
Proof.
  rewrite resolvable_unfold. intros H (s & p & name & Hs & Hp & Hname & Hj).
  rewrite Hs in H.
  apply forallb_forall with (x := p) in H; [|by apply list_elem_of_In].
  apply forallb_forall with (x := Some name) in H; [|by apply list_elem_of_In].
  simpl in H. by rewrite Hj in H.
Qed.

Lemma reaches_trans m i j k : reaches m i j → reaches m j k → reaches m i k.
Proof.
  induction 1 as [i j H|i j j' H _ IH]; intros Hk.
  - by eapply reaches_more.
  - eapply reaches_more; [done|]. by apply IH.
Qed.

Lemma reaches_self_step m i :
  reaches m i i → ∃ j, refers_to m i j ∧ reaches m j j.
Proof.
  intros H. inversion H as [i' j Hr|i' j k Hr Hreach]; subst.
  - exists i. split; [done|]. by apply reaches_once.
  - exists j. split; [done|]. eapply reaches_trans; [done|]. by apply reaches_once.
Qed.

Lemma resolvable_acyclic d m i : reaches m i i → resolvable d m i = false.
Proof.
  revert i. induction d as [|d IH]; intros i Hi; [done|].
  destruct (reaches_self_step m i Hi) as (j & Hij & Hj).
  destruct (resolvable (S d) m i) eqn:E; [|done].
  pose proof (resolvable_refers d m i j E Hij) as Hd.
  by rewrite (IH j Hj) in Hd.
Qed.

(** X2.  A structure that reaches itself through the references the
    resolver follows, directly or through other structures, is never
    returned by [m.Structure], however deep the recursion is allowed to
    go: the call ends with the error or panic of an earlier lookup, or
    it does not end. *)
Theorem cyclic_structure_is_never_returned (m : Model) (name : string)
    (i : nat) :
  scan Structure_Name (Structures m) name = Some i →
  reaches m i i →
  ∀ fuel, is_Ok (Model_Structure fuel name m).2 = false.
Proof.
  intros Hi Hcycle fuel. rewrite Model_Structure_resolvable, Hi. simpl.
  by apply resolvable_acyclic.
Qed.

Lemma cyclic_structure_is_never_returned_witness :
  is_Ok (Model_Structure 1000 "Outer" Sample.mutual).2 = false.
Proof.
  apply (cyclic_structure_is_never_returned Sample.mutual "Outer" 0);
    [reflexivity|].
  apply (reaches_more _ 0 1 0); [|apply reaches_once].
  - eexists _, _, "Inner". split; [reflexivity|].
    split; [by apply list_elem_of_here|].
    split; [by apply list_elem_of_here|reflexivity].
  - eexists _, _, "Outer". split; [reflexivity|].
    split; [by apply list_elem_of_here|].
    split; [by apply list_elem_of_here|reflexivity].
Defined.

(** ** What the resolver has no pointer into *)

Section Keeps.

Variable AnyRef_ : string → Model → Model * outcome AnyRef.
Variable I : Model → Prop.

Hypothesis AnyRef_keeps : ∀ name m, I m → I (AnyRef_ name m).1.
Hypothesis store_keeps : ∀ i k ty m, I m → I (store_property_type i k ty m).

Lemma resolve_property_keeps i k m :
  I m → I (resolve_property AnyRef_ i k m).1.
Proof.
  intros Hm. unfold resolve_property.
  pose proof (through_keeps AnyRef_ I (property_type m i k) m AnyRef_keeps Hm)
    as H.
  destruct (through _ _ _) as [[m1 ty] r]. by apply store_keeps.
Qed.

Lemma resolve_properties_keeps i k n m :
  I m → I (resolve_properties AnyRef_ i k n m).1.
Proof.
  revert k m. induction n as [|n IH]; intros k m Hm; simpl; [done|].
  pose proof (resolve_property_keeps i k m Hm) as H1.
  destruct (resolve_property AnyRef_ i k m) as [m1 r]. simpl in H1.
  destruct (is_Ok r); [|done]. by apply IH.
Qed.

End Keeps.

Lemma Model_AnyRef_keeps (I : Model → Prop) Structure_ name m :
  (∀ name m, I m → I (Structure_ name m).1) →
  I m → I (Model_AnyRef Structure_ name m).1.
Proof.
  intros H Hm. unfold Model_AnyRef. repeat case_match; simpl; try done.
  match goal with E : Structure_ ?n ?m = _ |- _ =>
    specialize (H n m Hm); by rewrite E in H end.
Qed.

(** What every write of a property's type keeps, [m.Structure] keeps. *)
Lemma Model_Structure_keeps (I : Model → Prop) fuel name m :
  (∀ i k ty m, I m → I (store_property_type i k ty m)) →
  I m → I (Model_Structure fuel name m).1.
Proof.
  intros Hstore. revert name m.
  induction fuel as [|fuel IH]; intros name m Hm; simpl; [done|].
  destruct (scan Structure_Name (Structures m) name) as [i|]; [|done].
  pose proof (resolve_properties_keeps (Model_AnyRef (Model_Structure fuel)) I
                (λ n m, Model_AnyRef_keeps I _ n m IH) Hstore
                i 0 (property_count m i) m Hm) as H.
  by destruct (resolve_properties _ _ _ _ _).
Qed.

Lemma beside_property_types_store i k ty m :
  beside_property_types (store_property_type i k ty m)
  = beside_property_types m.
Proof.
  unfold beside_property_types, store_property_type, Model_with_Structures.
  simpl. f_equal. apply list_eq. intros j.
  rewrite !list_lookup_fmap, list_lookup_alter.
  destruct (decide (i = j)) as [<-|]; [|done].
  destruct (Structures m !! i) as [st|]; simpl; [|done].
  f_equal. unfold Structure_with_Properties; simpl. f_equal.
  apply list_eq. intros k'. rewrite !list_lookup_fmap, list_lookup_alter.
  destruct (decide (k = k')) as [<-|]; [|done].
  by destruct (Properties st !! k).
Qed.

(** X3.  The resolver writes nowhere but into the types of properties:
    whatever [m.Structure] or [m.ResolveRefs] does, the requests, the
    notifications, the enumerations and the type aliases of the catalog
    are afterwards exactly what they were, handles included, and so are
    the [Extends] and [Mixins] of every structure.  The references in
    those places are never resolved, not even for a structure or an alias
    that was looked up. *)
Theorem resolution_stays_in_property_types (fuel : nat) :
  (∀ name m,
     beside_property_types (Model_Structure fuel name m).1
     = beside_property_types m)
  ∧ (∀ s m,
       beside_property_types (ResolveRefs fuel s m).1.1
       = beside_property_types m)
  ∧ (∀ m m',
       beside_property_types m' = beside_property_types m →
       Requests m' = Requests m ∧ Notifications m' = Notifications m
       ∧ Enumerations m' = Enumerations m ∧ TypeAliases m' = TypeAliases m
       ∧ Extends <$> Structures m' = Extends <$> Structures m
       ∧ Mixins <$> Structures m' = Mixins <$> Structures m).
Proof.
  assert (∀ name m,
            beside_property_types (Model_Structure fuel name m).1
            = beside_property_types m) as HS.
  { intros name m.
    apply (Model_Structure_keeps
             (λ m', beside_property_types m' = beside_property_types m));
      [|done].
    intros i k ty m' <-. apply beside_property_types_store. }
  split; [done|]. split.
  - intros s m. unfold ResolveRefs.
    apply (ResolveRefs_keeps _
             (λ m', beside_property_types m' = beside_property_types m));
      [|done].
    intros n m' <-.
    apply (Model_AnyRef_keeps
             (λ m'', beside_property_types m'' = beside_property_types m'));
      [|done].
    intros n' m'' <-. apply HS.
  - intros m m' H. unfold beside_property_types, Model_with_Structures in H.
    injection H as Hmeta Hreq Hstr Hen Hnot Hal. repeat split; try done.
    + apply (f_equal (fmap Extends)) in Hstr.
      rewrite <- !list_fmap_compose in Hstr. exact Hstr.
    + apply (f_equal (fmap Mixins)) in Hstr.
      rewrite <- !list_fmap_compose in Hstr. exact Hstr.
Qed.

(** ** Emission before resolution *)

(** The loop over properties none of which is a reference: nothing is
    written, and it returns when each has its type set and, for the
    kind base, its [Base]. *)
Lemma fields_plain ToGoPascal m P props types out :
  (∀ q, q ∈ props →
     ∃ ty, Property_Type q = Some ty ∧ Schema_Kind ty ≠ "reference"
           ∧ (Schema_Kind ty = "base" → is_Some (Schema_Base ty))) →
  ∃ types', fields ToGoPascal m P props types out = (out, Ok types').
Proof.
  revert types. induction props as [|p rest IH]; intros types H; simpl.
  { by eexists. }
  destruct (H p) as (ty & Hty & Hk & Hb); [by left|].
  unfold type_name. rewrite Hty. apply String.eqb_neq in Hk. rewrite Hk.
  destruct (String.eqb (Schema_Kind ty) "base") eqn:Eb.
  - apply String.eqb_eq in Eb. destruct (Hb Eb) as [base ->].
    destruct (String.eqb (BaseSchema_Name base) "string");
      apply IH; intros q Hq; apply H; by right.
  - apply IH. intros q Hq. apply H. by right.
Qed.

(** X5.  [PrintStruct] on a structure whose references have not been
    resolved panics: at the first property of kind reference, when that
    reference holds no handle and the properties before it are plain
    (typed, not of kind reference, a base one with its [Base] set), the
    call panics with the message [ref not found: ] and the name, and has
    written nothing, not even the header of the declaration. *)
Theorem PrintStruct_unresolved_reference (ToGoPascal : string → string)
    (fuel : nat) (m : Model) (s : nat) (st : Structure)
    (before after : list Property) (p : Property) (ty : Schema)
    (ref : ReferenceSchema) (out : string) :
  Structures m !! s = Some st →
  Properties st = before ++ p :: after →
  (∀ q, q ∈ before →
     ∃ t, Property_Type q = Some t ∧ Schema_Kind t ≠ "reference"
          ∧ (Schema_Kind t = "base" → is_Some (Schema_Base t))) →
  Property_Type p = Some ty →
  Schema_Kind ty = "reference" →
  Schema_Reference ty = Some ref →
  Found ref = None →
  PrintStruct ToGoPascal (S fuel) m s out
  = (out, Panic (PanicMsg ("ref not found: " +:+ ReferenceSchema_Name ref))).
Proof.
  intros Hs Hprops Hbefore Hty Hkind Href Hfound.
  rewrite PrintStruct_unfold. unfold PrintStruct_body. rewrite Hs, Hprops.
  rewrite fields_app.
  destruct (fields_plain ToGoPascal m (PrintStruct ToGoPascal fuel m) before
              [] out Hbefore) as [types ->].
  simpl. unfold type_name. by rewrite Hty, Hkind, Href, Hfound.
Qed.

Lemma PrintStruct_unresolved_reference_witness :
  PrintStruct Sample.pascal 1 MoreSamples.text_edit 0 EmptyString
  = (EmptyString, Panic (PanicMsg "ref not found: Range")).
Proof.
  refine (PrintStruct_unresolved_reference Sample.pascal 0
            MoreSamples.text_edit 0 _
            [Sample.property "newText" (Sample.base "string") false] []
            _ _ _ EmptyString eq_refl eq_refl _ eq_refl eq_refl eq_refl
            eq_refl).
  intros q Hq. apply list_elem_of_singleton in Hq as ->.
  eexists. split; [reflexivity|]. split; [discriminate|]. by eexists.
Defined.

(** ** A structure referred to more than once *)

Lemma concat_empty_cons (x : string) (l : list string) :
  String.concat EmptyString (x :: l) = x +:+ String.concat EmptyString l.
Proof. destruct l; simpl; [by rewrite append_nil_r|done]. Qed.

Lemma concat_empty_app (l1 l2 : list string) :
  String.concat EmptyString (l1 ++ l2)
  = String.concat EmptyString l1 +:+ String.concat EmptyString l2.
Proof.
  induction l1 as [|x l1 IH]; [done|].
  change ((x :: l1) ++ l2) with (x :: (l1 ++ l2)).
  by rewrite !concat_empty_cons, IH, append_assoc.
Qed.

(** Two entries of a list, and what is around them. *)
Lemma lookup_two {A : Type} (l : list A) (k1 k2 : nat) (x1 x2 : A) :
  l !! k1 = Some x1 → l !! k2 = Some x2 → k1 < k2 →
  ∃ l1 l2 l3, l = l1 ++ x1 :: l2 ++ x2 :: l3.
Proof.
  intros H1 H2 Hlt.
  exists (take k1 l), (take (k2 - S k1) (drop (S k1) l)),
    (drop (S (k2 - S k1)) (drop (S k1) l)).
  rewrite take_drop_middle; [by rewrite take_drop_middle|].
  rewrite lookup_drop. by replace (S k1 + (k2 - S k1)) with k2 by lia.
Qed.

(** The run on a catalog that is total within the depth [d] of the
    structure asked for. *)
Lemma run_emitted ToGoPascal d m name i fuel :
  scan Structure_Name (Structures m) name = Some i →
  within true d m i = true →
  d ≤ fuel →
  run ToGoPascal fuel name m
  = ((Model_Structure fuel name m).1, emitted ToGoPascal m d i, Ok ()).
Proof.
  intros Hi Hw Hd. unfold run.
  pose proof (Model_Structure_good true d fuel m name i Hd Hi Hw) as Hg.
  pose proof (Model_Structure_erase fuel name m) as He.
  destruct (Model_Structure fuel name m) as [m1 r] eqn:E. simpl in Hg, He.
  destruct r as [diag| | |]; try done.
  pose proof (Model_Structure_found _ _ _ _ _ E) as Hfound.
  rewrite Hi in Hfound. injection Hfound as <-.
  rewrite (PrintStruct_emitted ToGoPascal fuel m1 i EmptyString).
  2:{ rewrite (same_within _ _ m m1 _ He). by apply (within_le _ d). }
  2:{ by apply (Model_Structure_ready _ _ _ _ _ E). }
  by rewrite (same_emitted _ m m1 _ _ He), (emitted_le _ _ d fuel) by done.
Qed.

(** What is written for a property that refers to a structure. *)
Lemma emitted_for_structure ToGoPascal m d p ty ref j sj :
  Property_Type p = Some ty →
  Schema_Kind ty = "reference" →
  Schema_Reference ty = Some ref →
  scan Structure_Name (Structures m) (ReferenceSchema_Name ref) = Some j →
  Structures m !! j = Some sj →
  emitted_for ToGoPascal m (S d) p
  = String.concat EmptyString
      (map (emitted_for ToGoPascal m d) (Properties sj))
    +:+ declaration (Structure_Name sj)
          (expected_fields ToGoPascal m (Properties sj)).
Proof.
  intros Hty Hkind Href Hj Hsj. unfold emitted_for. rewrite Hty.
  change (Some ty ≫= referred m) with (referred m ty).
  unfold referred. rewrite Hkind, String.eqb_refl, Href.
  change (Some ref ≫= λ ref0, first_match m (ReferenceSchema_Name ref0))
    with (first_match m (ReferenceSchema_Name ref)).
  rewrite first_match_scans, Hj, Hsj.
  change (IsStructure j <$> Some sj) with (Some (IsStructure j sj)).
  cbv beta iota. by rewrite emitted_unfold, Hsj.
Qed.

(** X6.  The emitter keeps no record of what it has declared: when two
    properties of the structure asked for refer to the same structure,
    in a catalog on which resolution and emission succeed, the text
    written holds the declaration of that structure twice, once for each
    of the two properties. *)
Theorem referenced_twice_is_declared_twice (ToGoPascal : string → string)
    (d fuel : nat) (m : Model) (name target : string) (i j k1 k2 : nat)
    (st sj : Structure) (p1 p2 : Property) (t1 t2 : Schema)
    (r1 r2 : ReferenceSchema) :
  scan Structure_Name (Structures m) name = Some i →
  within true (S (S d)) m i = true →
  S (S d) ≤ fuel →
  Structures m !! i = Some st →
  Properties st !! k1 = Some p1 →
  Properties st !! k2 = Some p2 →
  k1 < k2 →
  Property_Type p1 = Some t1 → Schema_Kind t1 = "reference" →
  Schema_Reference t1 = Some r1 → ReferenceSchema_Name r1 = target →
  Property_Type p2 = Some t2 → Schema_Kind t2 = "reference" →
  Schema_Reference t2 = Some r2 → ReferenceSchema_Name r2 = target →
  scan Structure_Name (Structures m) target = Some j →
  Structures m !! j = Some sj →
  ∃ a b c,
    (run ToGoPascal fuel name m).1.2
    = a +:+ declaration (Structure_Name sj)
              (expected_fields ToGoPascal m (Properties sj))
      +:+ b +:+ declaration (Structure_Name sj)
                  (expected_fields ToGoPascal m (Properties sj))
      +:+ c
    ∧ (run ToGoPascal fuel name m).2 = Ok ().
Proof.
  intros Hi Hw Hd Hst Hp1 Hp2 Hlt Ht1 Hk1 Hr1 Hn1 Ht2 Hk2 Hr2 Hn2 Hj Hsj.
  rewrite (run_emitted ToGoPascal (S (S d)) m name i fuel Hi Hw Hd).
  cbn [fst snd]. rewrite emitted_unfold, Hst.
  destruct (lookup_two _ _ _ _ _ Hp1 Hp2 Hlt) as (l1 & l2 & l3 & ->).
  subst target.
  rewrite map_app, concat_empty_app. rewrite map_cons, concat_empty_cons.
  rewrite map_app, concat_empty_app. rewrite map_cons, concat_empty_cons.
  rewrite (emitted_for_structure _ _ _ p1 t1 r1 j sj) by done.
  rewrite (emitted_for_structure _ _ _ p2 t2 r2 j sj) by congruence.
  exists (String.concat EmptyString
            (map (emitted_for ToGoPascal m (S d)) l1)
          +:+ String.concat EmptyString
                (map (emitted_for ToGoPascal m d) (Properties sj))),
    (String.concat EmptyString (map (emitted_for ToGoPascal m (S d)) l2)
     +:+ String.concat EmptyString
           (map (emitted_for ToGoPascal m d) (Properties sj))),
    (String.concat EmptyString (map (emitted_for ToGoPascal m (S d)) l3)
     +:+ declaration (Structure_Name st)
           (expected_fields ToGoPascal m
              (l1 ++ p1 :: l2 ++ p2 :: l3))).
  split; [|done]. by rewrite !append_assoc.
Qed.

Lemma referenced_twice_is_declared_twice_witness :
  ∃ a b c,
    (run Sample.pascal 2 "Range" MoreSamples.range).1.2
    = a +:+ declaration "Position"
              [field "Line" EmptyString "line";
               field "Character" EmptyString "character"]
      +:+ b +:+ declaration "Position"
                  [field "Line" EmptyString "line";
                   field "Character" EmptyString "character"]
      +:+ c
    ∧ (run Sample.pascal 2 "Range" MoreSamples.range).2 = Ok ().
Proof.
  eapply (referenced_twice_is_declared_twice Sample.pascal 0 2
            MoreSamples.range "Range" "Position" 0 1 0 1 _
           (Sample.structure "Position"
              [Sample.property "line" (Sample.base "uinteger") false;
               Sample.property "character" (Sample.base "uinteger") false])
           _ _ _ _ _ _);
    first [reflexivity|lia].
Defined.

(** ** The store after resolution *)

Lemma link_unfold m s :
  link m s
  = match Schema_Reference s with
    | Some ref =>
        Schema_with_Reference
          (Some (ReferenceSchema_with_Found
                   (lookup_name m (ReferenceSchema_Name ref)) ref)) s
    | None =>
    match Schema_Array s with
    | Some a =>
        Schema_with_Array
          (Some (ArraySchema_with_Element (link m <$> Element a) a)) s
    | None =>
        Schema_with_composites
          ((λ o, ItemsSchema_with_Items
                   (fmap (M:=list) (fmap (M:=option) (link m)) (Items o)) o)
             <$> Schema_Or s)
          ((λ o, ItemsSchema_with_Items
                   (fmap (M:=list) (fmap (M:=option) (link m)) (Items o)) o)
             <$> Schema_And s)
          ((λ mp, {| MapSchema_Kind := MapSchema_Kind mp;
                     Key := link m <$> Key mp;
                     Value := link m <$> Value mp |}) <$> Schema_Map s)
          ((λ o, ItemsSchema_with_Items
                   (fmap (M:=list) (fmap (M:=option) (link m)) (Items o)) o)
             <$> Schema_Tuple s)
          s
    end
    end.
Proof. by destruct s. Qed.

Lemma through_ext (f g : Schema → Schema) (p : option Schema) :
  from_option (λ s, f s = g s) True p → f <$> p = g <$> p.
Proof. destruct p; simpl; [by intros ->|done]. Qed.

Lemma items_ext (f g : Schema → Schema) (items : list (option Schema)) :
  Forall (from_option (λ s, f s = g s) True) items →
  fmap (M:=list) (fmap (M:=option) f) items
  = fmap (M:=list) (fmap (M:=option) g) items.
Proof.
  induction 1 as [|p rest Hp _ IH]; [done|]. csimpl.
  by rewrite IH, (through_ext f g p Hp).
Qed.

Lemma items_of_ext (f g : Schema → Schema) (o : option (ItemsSchemaOf Schema)) :
  from_option (λ o, Forall (from_option (λ s, f s = g s) True) (Items o))
    True o →
  (λ o, ItemsSchema_with_Items
          (fmap (M:=list) (fmap (M:=option) f) (Items o)) o) <$> o
  = (λ o, ItemsSchema_with_Items
            (fmap (M:=list) (fmap (M:=option) g) (Items o)) o) <$> o.
Proof. destruct o as [o|]; simpl; [|done]. intros H. by rewrite (items_ext f g). Qed.

(** The links depend on the catalog through its lookups only. *)
Lemma link_ext m m' s :
  (∀ name, lookup_name m' name = lookup_name m name) →
  link m' s = link m s.
Proof.
  intros Hl. induction s as [s Harr Hor Hand Hmap Htup] using Schema_ind.
  rewrite !link_unfold.
  destruct (Schema_Reference s) as [ref|]; [by rewrite Hl|].
  destruct (Schema_Array s) as [a|].
  { simpl in Harr. by rewrite (through_ext _ _ _ Harr). }
  rewrite (items_of_ext _ _ _ Hor), (items_of_ext _ _ _ Hand),
    (items_of_ext _ _ _ Htup).
  destruct (Schema_Map s) as [mp|]; simpl; [|done].
  destruct Hmap as [Hk Hv].
  by rewrite (through_ext _ _ _ Hk), (through_ext _ _ _ Hv).
Qed.

Lemma same_link m m' s :
  erase_Model m' = erase_Model m → link m' s = link m s.
Proof. intros H. apply link_ext. intros name. by apply same_lookup_name. Qed.

(** Linking again changes nothing. *)
Lemma link_link m s : link m (link m s) = link m s.
Proof.
  induction s as [s Harr Hor Hand Hmap Htup] using Schema_ind.
  rewrite (link_unfold m (link m s)), (link_unfold m s).
  destruct s as [b kind base ref arr o a mp sl l t]; simpl in *.
  destruct ref as [ref|]; [done|].
  destruct arr as [arr|]; simpl in *.
  { unfold Schema_with_Array, ArraySchema_with_Element; simpl.
    do 3 f_equal. destruct (Element arr); simpl in *; [by rewrite Harr|done]. }
  assert (∀ items : list (option Schema),
            Forall (from_option (λ s, link m (link m s) = link m s) True)
              items →
            fmap (M:=list) (fmap (M:=option) (link m))
              (fmap (M:=list) (fmap (M:=option) (link m)) items)
            = fmap (M:=list) (fmap (M:=option) (link m)) items) as Hitems.
  { induction 1 as [|p rest Hp _ IH]; [done|]. csimpl. rewrite IH.
    destruct p; simpl in *; [by rewrite Hp|done]. }
  unfold Schema_with_composites, ItemsSchema_with_Items; simpl. f_equal.
  - destruct o as [o|]; simpl in *; [|done]. by rewrite Hitems.
  - destruct a as [a|]; simpl in *; [|done]. by rewrite Hitems.
  - destruct mp as [mp|]; simpl in *; [|done]. destruct Hmap as [Hk Hv].
    do 2 f_equal.
    + destruct (Key mp); simpl in *; [by rewrite Hk|done].
    + destruct (Value mp); simpl in *; [by rewrite Hv|done].
  - destruct t as [t|]; simpl in *; [|done]. by rewrite Hitems.
Qed.

Section Linking.

Variable AnyRef_ : string → Model → Model * outcome AnyRef.
Variable m0 : Model.

Hypothesis AnyRef_erase :
  ∀ name m, erase_Model (AnyRef_ name m).1 = erase_Model m.

Hypothesis AnyRef_lookup : ∀ name m m1 found,
  AnyRef_ name m = (m1, Ok found) → lookup_name m name = Some found.

Lemma ResolveRefs_same_catalog s m :
  erase_Model m = erase_Model m0 →
  erase_Model (Model_ResolveRefs AnyRef_ s m).1.1 = erase_Model m0.
Proof.
  intros Hm.
  apply (ResolveRefs_keeps AnyRef_ (λ m', erase_Model m' = erase_Model m0));
    [|done].
  intros name m' <-. apply AnyRef_erase.
Qed.

Lemma through_links p m m' p' :
  from_option (links AnyRef_ m0) True p →
  erase_Model m = erase_Model m0 →
  through (Model_ResolveRefs AnyRef_) p m = (m', p', Ok ()) →
  p' = link m0 <$> p ∧ erase_Model m' = erase_Model m0.
Proof.
  destruct p as [s|]; simpl; [|done]. intros Hs Hm.
  pose proof (ResolveRefs_same_catalog s m Hm) as He.
  destruct (Model_ResolveRefs AnyRef_ s m) as [[m1 s1] r] eqn:E.
  intros [= <- <- ->]. split; [|done]. f_equal. exact (Hs _ _ _ Hm E).
Qed.

Lemma each_links items m m' items' :
  Forall (from_option (links AnyRef_ m0) True) items →
  erase_Model m = erase_Model m0 →
  each (Model_ResolveRefs AnyRef_) items m = (m', items', Ok ()) →
  items' = fmap (M:=list) (fmap (M:=option) (link m0)) items
  ∧ erase_Model m' = erase_Model m0.
Proof.
  intros H. revert m m' items'.
  induction H as [|p rest Hp _ IH]; intros m m' items' Hm; simpl.
  { by intros [= <- <-]. }
  pose proof (through_links p m) as H1.
  destruct (through (Model_ResolveRefs AnyRef_) p m) as [[m1 p'] r].
  destruct r as [[]| | |]; simpl; try done.
  destruct (H1 m1 p' Hp Hm eq_refl) as [-> Hm1].
  specialize (IH m1).
  destruct (each (Model_ResolveRefs AnyRef_) rest m1) as [[m2 rest'] r2].
  intros [= <- <- ->]. destruct (IH m2 rest' Hm1 eq_refl) as [-> Hm2].
  by csimpl.
Qed.

Lemma each_of_links o m m' o' :
  from_option (λ o, Forall (from_option (links AnyRef_ m0) True) (Items o)) True o →
  erase_Model m = erase_Model m0 →
  each_of (Model_ResolveRefs AnyRef_) o m = (m', o', Ok ()) →
  o' = (λ o, ItemsSchema_with_Items
               (fmap (M:=list) (fmap (M:=option) (link m0)) (Items o)) o)
         <$> o
  ∧ erase_Model m' = erase_Model m0.
Proof.
  destruct o as [o|]; simpl; [|by intros _ ? [= <- <-]]. intros H Hm.
  pose proof (each_links (Items o) m) as H1.
  destruct (each (Model_ResolveRefs AnyRef_) (Items o) m) as [[m1 items] r].
  intros [= <- <- ->]. by destruct (H1 m1 items H Hm eq_refl) as [-> Hm1].
Qed.

Lemma key_value_links mp m m' mp' :
  from_option
    (λ mp, from_option (links AnyRef_ m0) True (Key mp) ∧ from_option (links AnyRef_ m0) True (Value mp))
    True mp →
  erase_Model m = erase_Model m0 →
  key_value (Model_ResolveRefs AnyRef_) mp m = (m', mp', Ok ()) →
  mp' = (λ mp, {| MapSchema_Kind := MapSchema_Kind mp;
                  Key := link m0 <$> Key mp;
                  Value := link m0 <$> Value mp |}) <$> mp
  ∧ erase_Model m' = erase_Model m0.
Proof.
  destruct mp as [mp|]; simpl; [|by intros _ ? [= <- <-]]. intros [Hk Hv] Hm.
  pose proof (through_links (Key mp) m) as H1.
  destruct (through (Model_ResolveRefs AnyRef_) (Key mp) m) as [[m1 k] r].
  destruct r as [[]| | |]; simpl; try done.
  destruct (H1 m1 k Hk Hm eq_refl) as [-> Hm1].
  pose proof (through_links (Value mp) m1) as H2.
  destruct (through (Model_ResolveRefs AnyRef_) (Value mp) m1) as [[m2 v] r2].
  intros [= <- <- ->]. by destruct (H2 m2 v Hv Hm1 eq_refl) as [-> Hm2].
Qed.

Lemma ResolveRefs_links s : links AnyRef_ m0 s.
Proof.
  induction s as [s Harr Hor Hand Hmap Htup] using Schema_ind.
  intros m m' s' Hm.
  rewrite Model_ResolveRefs_unfold, link_unfold. unfold ResolveRefs_body.
  destruct (Schema_Reference s) as [ref|] eqn:Eref.
  { destruct (AnyRef_ (ReferenceSchema_Name ref) m) as [m1 found] eqn:EA.
    destruct found as [h| | |]; simpl; try done.
    intros [= <- <-].
    by rewrite <- (same_lookup_name m0 m _ Hm), (AnyRef_lookup _ _ _ _ EA). }
  destruct (Schema_Array s) as [a|] eqn:Earr.
  { simpl in Harr. pose proof (through_links (Element a) m) as H1.
    destruct (through (Model_ResolveRefs AnyRef_) (Element a) m)
      as [[m1 e] r].
    intros [= <- <- ->]. by destruct (H1 m1 e Harr Hm eq_refl) as [-> _]. }
  pose proof (each_of_links (Schema_Or s) m) as H1.
  destruct (each_of (Model_ResolveRefs AnyRef_) (Schema_Or s) m)
    as [[m1 o] r1].
  destruct r1 as [[]| | |]; simpl; try done.
  destruct (H1 m1 o Hor Hm eq_refl) as [-> Hm1].
  pose proof (each_of_links (Schema_And s) m1) as H2.
  destruct (each_of (Model_ResolveRefs AnyRef_) (Schema_And s) m1)
    as [[m2 a] r2].
  destruct r2 as [[]| | |]; simpl; try done.
  destruct (H2 m2 a Hand Hm1 eq_refl) as [-> Hm2].
  pose proof (key_value_links (Schema_Map s) m2) as H3.
  destruct (key_value (Model_ResolveRefs AnyRef_) (Schema_Map s) m2)
    as [[m3 mp] r3].
  destruct r3 as [[]| | |]; simpl; try done.
  destruct (H3 m3 mp Hmap Hm2 eq_refl) as [-> Hm3].
  pose proof (each_of_links (Schema_Tuple s) m3) as H4.
  destruct (each_of (Model_ResolveRefs AnyRef_) (Schema_Tuple s) m3)
    as [[m4 t] r4].
  intros [= <- <- ->]. by destruct (H4 m4 t Htup Hm3 eq_refl) as [-> _].
Qed.

End Linking.

Lemma settles_to_refl m : settles_to m m.
Proof. by split. Qed.

Lemma settles_to_trans m1 m2 m3 :
  settles_to m1 m2 → settles_to m2 m3 → settles_to m1 m3.
Proof. intros [E1 L1] [E2 L2]. split; [congruence|auto]. Qed.

Lemma settled_settles d m m' i : settles_to m m' → settled d m i → settled d m' i.
Proof.
  intros [He Hs]. revert i. induction d as [|d IH]; intros i; simpl; [done|].
  intros H k. destruct (H k) as [Hk Hnested]. split; [by apply Hs|].
  intros name j Hname Hj. apply IH, (Hnested name).
  - by rewrite (same_visited (property_type m' i k))
      by apply (same_property_type m' m (eq_sym He)).
  - by rewrite <- (same_Structures m m' He).
Qed.

(** Writing back the node that is there changes nothing. *)
Lemma store_same i k ty m :
  property_type m i k = Some ty → store_property_type i k (Some ty) m = m.
Proof.
  intros Hty. unfold store_property_type, Model_with_Structures.
  destruct m as [meta reqs structs enums nots aliases]; simpl in *. f_equal.
  apply list_eq. intros j. rewrite list_lookup_alter.
  destruct (decide (i = j)) as [<-|]; [|done].
  unfold property_type in Hty. simpl in Hty.
  destruct (structs !! i) as [st|]; simpl in *; [|done].
  f_equal. destruct st as [b n props doc ext mix]; simpl in *.
  unfold Structure_with_Properties; simpl. f_equal.
  apply list_eq. intros k'. rewrite list_lookup_alter.
  destruct (decide (k = k')) as [<-|]; [|done].
  destruct (props !! k) as [p|]; simpl in *; [|done].
  f_equal. destruct p; simpl in *. unfold Property_with_Type; simpl.
  by rewrite Hty.
Qed.

Section Settling.

Variable AnyRef_ : string → Model → Model * outcome AnyRef.
Variable d : nat.

Hypothesis AnyRef_erase :
  ∀ name m, erase_Model (AnyRef_ name m).1 = erase_Model m.

Hypothesis AnyRef_lookup : ∀ name m m1 found,
  AnyRef_ name m = (m1, Ok found) → lookup_name m name = Some found.

Hypothesis AnyRef_settles : ∀ name m m1 found,
  AnyRef_ name m = (m1, Ok found) →
  settles_to m m1
  ∧ ∀ j, scan Structure_Name (Structures m1) name = Some j → settled d m1 j.

Lemma lookups_settles l m m' :
  lookups AnyRef_ l m = (m', Ok ()) →
  settles_to m m'
  ∧ ∀ name j, Some name ∈ l →
      scan Structure_Name (Structures m') name = Some j → settled d m' j.
Proof.
  revert m. induction l as [|[name|] l IH]; intros m; simpl.
  - intros [= <-]. split; [apply settles_to_refl|].
    intros name j Hname. by apply elem_of_nil in Hname.
  - destruct (AnyRef_ name m) as [m1 found] eqn:EA.
    destruct found as [h| | |]; simpl; try done.
    intros Hrest. destruct (AnyRef_settles _ _ _ _ EA) as [H1 Hd].
    destruct (IH m1 Hrest) as [H2 Hl].
    split; [by eapply settles_to_trans|].
    intros name' j [[= ->]|Hname]%elem_of_cons Hj; [|by eapply Hl].
    eapply settled_settles; [exact H2|]. apply Hd.
    destruct H2 as [He _]. by rewrite <- (same_Structures m1 m' He).
  - done.
Qed.

Lemma resolve_property_settles i k m m' :
  resolve_property AnyRef_ i k m = (m', Ok ()) →
  settles_to m m'
  ∧ settled_at m' i k
  ∧ ∀ name j, Some name ∈ visited_through (property_type m' i k) →
      scan Structure_Name (Structures m') name = Some j → settled d m' j.
Proof.
  unfold resolve_property.
  destruct (property_type m i k) as [ty|] eqn:Ety; [|done]. simpl.
  pose proof (ResolveRefs_lookups AnyRef_ ty m) as Hl.
  pose proof (ResolveRefs_links AnyRef_ m AnyRef_erase AnyRef_lookup ty m)
    as Hlink.
  destruct (Model_ResolveRefs AnyRef_ ty m) as [[m1 ty'] r].
  destruct Hl as [Hl Hty]. intros [= <- ->].
  specialize (Hlink m1 ty' eq_refl eq_refl). subst ty'.
  symmetry in Hl. apply lookups_settles in Hl as [[He Hs] Hnested].
  assert (erase <$> Some (link m ty) = erase <$> property_type m1 i k) as Hty1.
  { simpl. by rewrite Hty, (same_property_type m m1 He), Ety. }
  pose proof (erase_store i k _ m1 Hty1) as He1.
  assert (property_type (store_property_type i k (Some (link m ty)) m1) i k
          = Some (link m ty)) as Hnew.
  { rewrite property_type_store_eq.
    pose proof (same_property_type m m1 He i k) as Hp.
    rewrite Ety in Hp. unfold property_type in Hp.
    destruct (Structures m1 !! i) as [st|]; simpl in *; [|done].
    by destruct (Properties st !! k). }
  assert (settled_at (store_property_type i k (Some (link m ty)) m1) i k)
    as Hat.
  { intros ty'. rewrite Hnew. intros [= <-].
    rewrite (same_link m) by congruence. apply link_link. }
  assert (settles_to m1 (store_property_type i k (Some (link m ty)) m1))
    as Hs1.
  { split; [done|]. intros i' k' H'.
    destruct (decide ((i, k) = (i', k'))) as [[= <- <-]|Hne]; [done|].
    intros ty'. rewrite property_type_store_ne by done.
    rewrite (same_link m1) by done. apply H'. }
  split; [by eapply settles_to_trans|]. split; [done|].
  intros name j Hname Hj. eapply settled_settles; [exact Hs1|].
  apply (Hnested name).
  - rewrite Hnew in Hname. simpl in Hname.
    by rewrite <- (visited_erase (link m ty)), Hty, visited_erase in Hname.
  - by rewrite <- (same_Structures m1 _ He1).
Qed.

Lemma resolve_properties_settles i k n m m' :
  resolve_properties AnyRef_ i k n m = (m', Ok ()) →
  settles_to m m'
  ∧ ∀ k', k ≤ k' < k + n →
      settled_at m' i k'
      ∧ ∀ name j, Some name ∈ visited_through (property_type m' i k') →
          scan Structure_Name (Structures m') name = Some j → settled d m' j.
Proof.
  revert k m. induction n as [|n IH]; intros k m; simpl.
  { intros [= <-]. split; [apply settles_to_refl|]. lia. }
  destruct (resolve_property AnyRef_ i k m) as [m1 r] eqn:E1.
  destruct r as [[]| | |]; simpl; try done.
  apply resolve_property_settles in E1 as (H1 & Hat & Hnested).
  intros Hrest. destruct (IH _ _ Hrest) as [H2 Hrange].
  split; [by eapply settles_to_trans|].
  intros k' Hk'. destruct (decide (k' = k)) as [->|Hne]; [|apply Hrange; lia].
  destruct H2 as [He Hs]. split; [by apply Hs|].
  intros name j Hname Hj.
  eapply settled_settles; [by split|]. apply (Hnested name).
  - by rewrite (same_visited (property_type m' i k))
      by apply (same_property_type m' m1 (eq_sym He)).
  - by rewrite <- (same_Structures m1 m' He).
Qed.

End Settling.

(** The structure [m.Structure] returns is settled as deep as the
    fuel. *)
Lemma Model_Structure_settled fuel name m m' i :
  Model_Structure fuel name m = (m', Ok i) →
  settles_to m m' ∧ settled fuel m' i.
Proof.
  revert name m m' i. induction fuel as [|fuel IH]; intros name m m' i; simpl;
    [done|].
  destruct (scan Structure_Name (Structures m) name) as [i'|]; [|done].
  pose proof (resolve_properties_settles (Model_AnyRef (Model_Structure fuel))
                fuel
                (λ n m, Model_AnyRef_erase _ n m (Model_Structure_erase fuel))
                (Model_AnyRef_lookup_name fuel)) as H.
  specialize (H) with (i := i') (k := 0) (n := property_count m i') (m := m).
  destruct (resolve_properties _ _ _ _ _) as [m1 r].
  destruct r as [[]| | |]; simpl in *; try done.
  intros [= <- <-]. destruct (H) with (m' := m1) as [Hs Hrange]; [|done|].
  { intros n m0 m2 found. unfold Model_AnyRef.
    destruct (scan Structure_Name (Structures m0) n) as [j|] eqn:Ej.
    - destruct (Model_Structure fuel n m0) as [m3 r3] eqn:E3.
      destruct r3 as [j'| | |]; simpl; try done. intros [= <- <-].
      destruct (IH _ _ _ _ E3) as [Hs3 Hd3]. split; [done|].
      intros j0 Hj0. pose proof (Model_Structure_found _ _ _ _ _ E3) as Hf.
      destruct Hs3 as [He3 _].
      rewrite (same_Structures m0 m3 He3) in Hj0. congruence.
    - repeat case_match; intros [= <- <-]; (split; [apply settles_to_refl|]);
        congruence. }
  split; [done|]. intros k.
  destruct (decide (k < property_count m i')) as [Hk|Hk].
  - apply Hrange. lia.
  - destruct Hs as [He _].
    assert (property_type m1 i' k = None) as Hnone.
    { apply property_type_beyond. rewrite (same_property_count m m1 He). lia. }
    split; [intros ty; by rewrite Hnone|]. rewrite Hnone.
    intros name0 j Hname. simpl in Hname.
    by apply list_elem_of_singleton in Hname.
Qed.

Section Fixed.

Variable AnyRef_ : string → Model → Model * outcome AnyRef.
Variable m : Model.

Hypothesis AnyRef_erase :
  ∀ name m, erase_Model (AnyRef_ name m).1 = erase_Model m.

Hypothesis AnyRef_lookup : ∀ name m m1 found,
  AnyRef_ name m = (m1, Ok found) → lookup_name m name = Some found.

(** Lookups each of which returns a handle and leaves the store as it
    is. *)
Lemma lookups_fixed l :
  (∀ v, v ∈ l → ∃ name h, v = Some name ∧ AnyRef_ name m = (m, Ok h)) →
  lookups AnyRef_ l m = (m, Ok ()).
Proof.
  induction l as [|v l IH]; intros H; [done|].
  destruct (H v) as (name & h & -> & EA); [by left|].
  simpl. rewrite EA. simpl. apply IH. intros v Hv. apply H. by right.
Qed.

Lemma resolve_property_fixed i k ty :
  property_type m i k = Some ty →
  link m ty = ty →
  (∀ v, v ∈ visited ty → ∃ name h, v = Some name ∧ AnyRef_ name m = (m, Ok h)) →
  resolve_property AnyRef_ i k m = (m, Ok ()).
Proof.
  intros Hty Hlink Hl. unfold resolve_property. rewrite Hty. simpl.
  pose proof (ResolveRefs_lookups AnyRef_ ty m) as H.
  pose proof (ResolveRefs_links AnyRef_ m AnyRef_erase AnyRef_lookup ty m)
    as Hlinks.
  destruct (Model_ResolveRefs AnyRef_ ty m) as [[m1 ty'] r].
  destruct H as [H _]. rewrite (lookups_fixed _ Hl) in H.
  injection H as -> ->. rewrite (Hlinks m ty' eq_refl eq_refl), Hlink.
  by rewrite store_same.
Qed.

Lemma resolve_properties_fixed i k n :
  (∀ k', k ≤ k' < k + n →
     ∃ ty, property_type m i k' = Some ty ∧ link m ty = ty
           ∧ ∀ v, v ∈ visited ty →
               ∃ name h, v = Some name ∧ AnyRef_ name m = (m, Ok h)) →
  resolve_properties AnyRef_ i k n m = (m, Ok ()).
Proof.
  revert k. induction n as [|n IH]; intros k H; simpl; [done|].
  destruct (H k) as (ty & Hty & Hlink & Hl); [lia|].
  rewrite (resolve_property_fixed i k ty Hty Hlink Hl). simpl.
  apply IH. intros k' Hk'. apply H. lia.
Qed.

End Fixed.

(** On a store where the structure is settled, [m.Structure] returns
    it and writes nothing that is not there. *)
Lemma Model_Structure_fixed fuel name m i :
  scan Structure_Name (Structures m) name = Some i →
  resolvable fuel m i = true →
  settled fuel m i →
  Model_Structure fuel name m = (m, Ok i).
Proof.
  revert name i. induction fuel as [|fuel IH]; intros name i Hi Hr Hs; [done|].
  simpl Model_Structure. rewrite Hi.
  rewrite resolvable_unfold in Hr.
  destruct (Structures m !! i) as [st|] eqn:Est; [|done].
  rewrite (resolve_properties_fixed (Model_AnyRef (Model_Structure fuel)) m
             (λ n m, Model_AnyRef_erase _ n m (Model_Structure_erase fuel))
             (Model_AnyRef_lookup_name fuel)); [done|].
  intros k Hk. unfold property_count in Hk. rewrite Est in Hk. simpl in Hk.
  destruct (Properties st !! k) as [p|] eqn:Ep;
    [|apply lookup_ge_None in Ep; lia].
  pose proof (forallb_lookup _ _ _ _ Hr Ep) as Hp. simpl in Hp.
  pose proof (property_type_lookup m i k st p Est Ep) as Hty.
  destruct (Hs k) as [Hat Hnested]. rewrite Hty in Hnested.
  destruct (Property_Type p) as [ty|] eqn:Ety; [|done].
  exists ty. split; [done|]. split; [by apply Hat|].
  intros v Hv. simpl in Hp, Hnested.
  apply forallb_forall with (x := v) in Hp; [|by apply list_elem_of_In].
  destruct v as [n|]; [|done]. simpl in Hp.
  assert (∃ h, Model_AnyRef (Model_Structure fuel) n m = (m, Ok h))
    as [h Hh]; [|by exists n, h].
  unfold Model_AnyRef.
  destruct (scan Structure_Name (Structures m) n) as [j|] eqn:Ej.
  - rewrite (IH n j Ej Hp (Hnested n j Hv Ej)). simpl. by eexists.
  - apply orb_prop in Hp as [He|Ha].
    + apply bool_decide_eq_true in He as [e He]. rewrite He. by eexists.
    + destruct (scan Enumeration_Name (Enumerations m) n); [by eexists|].
      apply bool_decide_eq_true in Ha as [a Ha]. rewrite Ha. by eexists.
Qed.

(** What is settled and resolvable at a structure is so at those it
    refers to. *)
Lemma settled_refers d m i j :
  settled (S d) m i → resolvable (S d) m i = true → refers_to m i j →
  settled d m j ∧ resolvable d m j = true.
Proof.
  intros Hs Hr Hij. split; [|by eapply resolvable_refers].
  destruct Hij as (s & p & name & Hst & Hp & Hname & Hj).
  apply list_elem_of_lookup_1 in Hp as [k Hk].
  destruct (Hs k) as [_ Hnested]. apply (Hnested name); [|done].
  by rewrite (property_type_lookup m i k s p).
Qed.

Lemma settled_reaches d m i j :
  settled d m i → resolvable d m i = true → reaches m i j →
  ∃ d', settled (S d') m j ∧ resolvable (S d') m j = true.
Proof.
  intros Hs Hr Hij. revert d Hs Hr.
  induction Hij as [i j Hij|i j k Hij _ IH]; intros d Hs Hr.
  - destruct d as [|d]; [done|].
    destruct (settled_refers d m i j Hs Hr Hij) as [Hs' Hr'].
    destruct d as [|d]; [done|]. by exists d.
  - destruct d as [|d]; [done|].
    destruct (settled_refers d m i j Hs Hr Hij) as [Hs' Hr'].
    by apply (IH d).
Qed.

(** X7.  When [m.Structure] has returned a structure, every reference
    the resolver comes to from a property of that structure, and from a
    property of any structure it reaches through such references, holds
    a handle in the store, and the handle is that of the first
    definition bearing the reference's name in the scan order. *)
Theorem Structure_leaves_references_linked (fuel : nat) (name : string)
    (m m' : Model) (i : nat) :
  Model_Structure fuel name m = (m', Ok i) →
  ∀ j, j = i ∨ reaches m' i j →
    ∀ k ty, property_type m' j k = Some ty → link m' ty = ty.
Proof.
  intros E. destruct (Model_Structure_settled _ _ _ _ _ E) as [[He _] Hs].
  pose proof (Model_Structure_resolvable fuel name m) as Hr.
  rewrite E, (Model_Structure_found _ _ _ _ _ E) in Hr. simpl in Hr.
  symmetry in Hr. rewrite <- (same_resolvable _ m m' _ He) in Hr.
  intros j [->|Hj] k ty Hty.
  - destruct fuel as [|fuel]; [done|]. by apply (Hs k).
  - destruct (settled_reaches _ _ _ _ Hs Hr Hj) as (d' & Hs' & _).
    by apply (Hs' k).
Qed.

(** X8.  Resolving again changes nothing: when [m.Structure] has
    returned a structure, a second call with the same name on the store
    the first call left returns the same structure and leaves the store
    exactly as it found it. *)
Theorem Structure_twice (fuel : nat) (name : string) (m m' : Model)
    (i : nat) :
  Model_Structure fuel name m = (m', Ok i) →
  Model_Structure fuel name m' = (m', Ok i).
Proof.
  intros E. destruct (Model_Structure_settled _ _ _ _ _ E) as [[He _] Hs].
  pose proof (Model_Structure_resolvable fuel name m) as Hr.
  pose proof (Model_Structure_found _ _ _ _ _ E) as Hi.
  rewrite E, Hi in Hr. simpl in Hr. symmetry in Hr.
  apply Model_Structure_fixed; [|by rewrite (same_resolvable _ m m' _ He)|done].
  by rewrite (same_Structures m m' He).
Qed.

Lemma Structure_leaves_references_linked_witness :
  ∃ ty, property_type MoreSamples.location_resolved 1 0 = Some ty
        ∧ link MoreSamples.location_resolved ty = ty.
Proof.
  eexists. split; [reflexivity|].
  refine (Structure_leaves_references_linked 3 "Location"
            MoreSamples.location MoreSamples.location_resolved 0 eq_refl
            1 (or_intror (reaches_once _ 0 1 _)) 0 _ eq_refl).
  eexists _, _, "Range". split; [reflexivity|].
  split; [apply list_elem_of_further, list_elem_of_here|].
  split; [apply list_elem_of_here|reflexivity].
Defined.

Lemma Structure_twice_witness :
  Model_Structure 3 "Location" MoreSamples.location_resolved
  = (MoreSamples.location_resolved, Ok 0).
Proof.
  exact (Structure_twice 3 "Location" MoreSamples.location
           MoreSamples.location_resolved 0 eq_refl).
Defined.

(** ** The shape of a decoded node *)

Lemma explore_field_kind name v kind fl :
  explore_field name v kind fl
  = if String.eqb name "KIND"
    then Some (Next (kind_after name v kind)
                 (match v with
                  | JString _ | JNull => fl
                  | _ => save_error fl
                  end))
    else None.
Proof.
  unfold explore_field, kind_after.
  destruct (String.eqb name "KIND"); [|done]. by destruct v.
Qed.

Section Discriminator.

Context {T : Type} (field : string → JSON → T → flags → option (step T)).
Variable kindof : T → string.
Hypothesis field_has_Kind : has_Kind field kindof.

(** The [Kind] of the variant agrees with the discriminator read from
    the same members. *)
Lemma decode_members_kind strict members t fl t' fl' fle k' fle' :
  decode_members field strict members t fl = Next t' fl' →
  decode_members explore_field false members (kindof t) fle = Next k' fle' →
  kindof t' = k'.
Proof.
  destruct field_has_Kind as [Hkind Hsome].
  revert t fl fle. induction members as [|[name v] rest IH]; intros t fl fle;
    simpl.
  { by intros [= <- <-] [= <- <-]. }
  rewrite explore_field_kind.
  destruct (field (foldName name) v t fl) as [[t1 fl1|e]|] eqn:E; [|done|].
  - pose proof (Hkind _ _ _ _ _ _ E) as H1.
    destruct (String.eqb (foldName name) "KIND") eqn:Ek.
    + rewrite <- H1. apply IH.
    + unfold kind_after in H1. rewrite Ek in H1. rewrite <- H1. apply IH.
  - destruct (String.eqb (foldName name) "KIND") eqn:Ek; [|apply IH].
    apply String.eqb_eq in Ek. rewrite Ek in E. by destruct (Hsome v t fl).
Qed.

Lemma decode_struct_kind b elem elem' kind :
  kindof elem = EmptyString →
  explore b = Decoded kind →
  decode_struct field true b elem = Decoded elem' →
  kindof elem' = kind.
Proof.
  intros Hfresh. unfold explore, decode_struct.
  assert (∀ A (r : step A) a, finish r = Decoded a → ∃ fl, r = Next a fl)
    as Hf.
  { intros A [a fl|e] a'; simpl; [|done].
    destruct (saved_error fl), (unmodelled fl); try done.
    intros [= <-]. by exists fl. }
  intros [fle He]%Hf [fl Hd]%Hf. destruct b; simplify_eq; try done.
  eapply decode_members_kind; [exact Hd|]. rewrite Hfresh. exact He.
Qed.

End Discriminator.

Lemma into_kind {A T : Type} (r : step A) (assign : A → T) t' fl' :
  into r assign = Some (Next t' fl') → ∃ a, r = Next a fl' ∧ t' = assign a.
Proof. destruct r as [a fl|e]; simpl; [|done]. intros [= <- <-]. by exists a. Qed.

Lemma set_string_value v current fl a fl' :
  set_string v current fl = Next a fl' →
  a = match v with JString x => x | _ => current end.
Proof. destruct v; simpl; by intros [= <- <-]. Qed.

Ltac has_Kind_tac :=
  split;
  [ intros name v t fl t' fl'; unfold kind_after;
    repeat match goal with
           | |- context [String.eqb name ?k] =>
               lazymatch goal with
               | H : String.eqb name k = _ |- _ => fail
               | _ => destruct (String.eqb name k) eqn:?
               end
           end;
    repeat match goal with
           | H : String.eqb name _ = true |- _ =>
               apply String.eqb_eq in H; subst name
           end;
    simpl; try done;
    intros (a & Ha & ->)%into_kind; simpl; try done;
    by apply set_string_value in Ha
  | intros v t fl; simpl; unfold into; done ].

Lemma ArraySchema_has_Kind U :
  has_Kind (ArraySchema_field U) ArraySchema_Kind.
Proof. unfold ArraySchema_field. has_Kind_tac. Qed.

Lemma ItemsSchema_has_Kind U :
  has_Kind (ItemsSchema_field U) ItemsSchema_Kind.
Proof. unfold ItemsSchema_field. has_Kind_tac. Qed.

Lemma MapSchema_has_Kind U : has_Kind (MapSchema_field U) MapSchema_Kind.
Proof. unfold MapSchema_field. has_Kind_tac. Qed.

Lemma ReferenceSchema_has_Kind :
  has_Kind ReferenceSchema_field ReferenceSchema_Kind.
Proof. unfold ReferenceSchema_field. has_Kind_tac. Qed.

Lemma BaseSchema_has_Kind : has_Kind BaseSchema_field BaseSchema_Kind.
Proof. unfold BaseSchema_field. has_Kind_tac. Qed.

Lemma StringLiteralSchema_has_Kind :
  has_Kind StringLiteralSchema_field StringLiteralSchema_Kind.
Proof. unfold StringLiteralSchema_field. has_Kind_tac. Qed.

Lemma LiteralSchema_has_Kind :
  has_Kind LiteralSchema_field LiteralSchema_Kind.
Proof. unfold LiteralSchema_field. has_Kind_tac. Qed.

Lemma unmarshalStrict_Decoded {T : Type}
    (field : string → JSON → T → flags → option (step T)) b elem kind assign
    s' :
  unmarshalStrict field b elem kind assign = Decoded s' →
  ∃ elem', decode_struct field true b elem = Decoded elem' ∧ s' = assign elem'.
Proof.
  unfold unmarshalStrict.
  destruct (decode_struct field true b elem) as [elem'| |]; try done.
  intros [= <-]. by exists elem'.
Qed.

Lemma UnmarshalJSON_shape s b s' :
  Schema_UnmarshalJSON s b = Decoded s' →
  explore b = Decoded (Schema_Kind s')
  ∧ variant_kind s' = Some (Schema_Kind s')
  ∧ other_variants (Schema_Kind s') s' = other_variants (Schema_Kind s') s.
Proof.
  rewrite UnmarshalJSON_unfold. unfold UnmarshalJSON_body.
  destruct (explore b) as [kind| |] eqn:He; try done.
  assert (∀ T (field : string → JSON → T → flags → option (step T)) kindof
            elem assign,
            has_Kind field kindof → kindof elem = EmptyString →
            unmarshalStrict field b elem kind assign = Decoded s' →
            ∃ elem', s' = assign elem' ∧ kindof elem' = kind) as Hvariant.
  { intros T field kindof elem assign Hf Hfresh
      (elem' & Hd & ->)%unmarshalStrict_Decoded.
    exists elem'. split; [done|].
    by apply (decode_struct_kind field kindof Hf b elem elem' kind). }
  destruct (String.eqb kind "array") eqn:E1.
  { intros (a & -> & Hk)%(Hvariant _ _ ArraySchema_Kind);
      [|apply ArraySchema_has_Kind|done].
    unfold variant_kind, other_variants. simpl. rewrite E1.
    apply String.eqb_eq in E1. by rewrite Hk. }
  destruct (String.eqb kind "or") eqn:E2.
  { intros (a & -> & Hk)%(Hvariant _ _ ItemsSchema_Kind);
      [|apply ItemsSchema_has_Kind|done].
    unfold variant_kind, other_variants. simpl. rewrite E1, E2.
    apply String.eqb_eq in E2. by rewrite Hk. }
  destruct (String.eqb kind "and") eqn:E3.
  { intros (a & -> & Hk)%(Hvariant _ _ ItemsSchema_Kind);
      [|apply ItemsSchema_has_Kind|done].
    unfold variant_kind, other_variants. simpl. rewrite E1, E2, E3.
    apply String.eqb_eq in E3. by rewrite Hk. }
  destruct (String.eqb kind "reference") eqn:E4.
  { intros (a & -> & Hk)%(Hvariant _ _ ReferenceSchema_Kind);
      [|apply ReferenceSchema_has_Kind|done].
    unfold variant_kind, other_variants. simpl. rewrite E1, E2, E3, E4.
    apply String.eqb_eq in E4. by rewrite Hk. }
  destruct (String.eqb kind "base") eqn:E5.
  { intros (a & -> & Hk)%(Hvariant _ _ BaseSchema_Kind);
      [|apply BaseSchema_has_Kind|done].
    unfold variant_kind, other_variants. simpl. rewrite E1, E2, E3, E4, E5.
    apply String.eqb_eq in E5. by rewrite Hk. }
  destruct (String.eqb kind "map") eqn:E6.
  { intros (a & -> & Hk)%(Hvariant _ _ MapSchema_Kind);
      [|apply MapSchema_has_Kind|done].
    unfold variant_kind, other_variants. simpl.
    rewrite E1, E2, E3, E4, E5, E6.
    apply String.eqb_eq in E6. by rewrite Hk. }
  destruct (String.eqb kind "stringLiteral") eqn:E7.
  { intros (a & -> & Hk)%(Hvariant _ _ StringLiteralSchema_Kind);
      [|apply StringLiteralSchema_has_Kind|done].
    unfold variant_kind, other_variants. simpl.
    rewrite E1, E2, E3, E4, E5, E6, E7.
    apply String.eqb_eq in E7. by rewrite Hk. }
  destruct (String.eqb kind "literal") eqn:E8.
  { intros (a & -> & Hk)%(Hvariant _ _ LiteralSchema_Kind);
      [|apply LiteralSchema_has_Kind|done].
    unfold variant_kind, other_variants. simpl.
    rewrite E1, E2, E3, E4, E5, E6, E7, E8.
    apply String.eqb_eq in E8. by rewrite Hk. }
  destruct (String.eqb kind "tuple") eqn:E9; [|done].
  intros (a & -> & Hk)%(Hvariant _ _ ItemsSchema_Kind);
    [|apply ItemsSchema_has_Kind|done].
  unfold variant_kind, other_variants. simpl.
  rewrite E1, E2, E3, E4, E5, E6, E7, E8, E9.
  apply String.eqb_eq in E9. by rewrite Hk.
Qed.

Lemma ReferenceSchema_field_no_handle name v (t : ReferenceSchema) fl t' fl' :
  True → Found t = None →
  ReferenceSchema_field name v t fl = Some (Next t' fl') → Found t' = None.
Proof.
  intros _ Ht. unfold ReferenceSchema_field.
  repeat case_match; try done; intros (x & Hx & ->)%into_Next; simpl;
    try done.
  unfold set_Found in Hx. destruct v; by simplify_eq.
Qed.

(** A reference that was decoded holds no handle. *)
Lemma UnmarshalJSON_no_handle b s ref :
  Schema_UnmarshalJSON new_Schema b = Decoded s →
  Schema_Reference s = Some ref → Found ref = None.
Proof.
  rewrite UnmarshalJSON_unfold. unfold UnmarshalJSON_body.
  destruct (explore b) as [kind| |] eqn:He; [|done..].
  unfold unmarshalStrict.
  repeat (case_match; try done); intros [= <-]; simpl; try done.
  intros [= <-].
  match goal with
  | H : decode_struct ReferenceSchema_field _ _ _ = Decoded _ |- _ =>
      revert H
  end.
  apply (decode_struct_Inv _ true (λ r : ReferenceSchema, Found r = None)
           (λ _, True) ReferenceSchema_field_no_handle); [|done].
  destruct b; try done. by apply Forall_forall.
Qed.

Ltac settle_kind kind k :=
  let E := fresh "E" in
  destruct (String.eqb kind k) eqn:E;
  [ apply String.eqb_eq in E; subst; simpl in *; simplify_eq;
    repeat match goal with
           | H : _ <$> ?x = Some _ |- _ => destruct x; simpl in *; [|done]
           end;
    rewrite ?bool_decide_eq_true_2 by done;
    rewrite ?bool_decide_eq_false_2 by (by intros [??]);
    try match goal with
        | Hf : ∀ ref, Some ?r = Some ref → Found ref = None |- _ =>
            rewrite (Hf r eq_refl)
        end;
    done
  | ].

Lemma UnmarshalJSON_just_decoded b s :
  Schema_UnmarshalJSON new_Schema b = Decoded s → just_decoded s = true.
Proof.
  intros H. destruct (UnmarshalJSON_shape _ _ _ H) as (_ & Hv & Ho).
  pose proof (UnmarshalJSON_no_handle b s) as Hf. specialize (Hf) with (1 := H).
  clear H. unfold just_decoded. rewrite Hv.
  rewrite (bool_decide_eq_true_2 (Some (Schema_Kind s) = Some (Schema_Kind s)))
    by done.
  destruct s as [meta kind base ref arr o a mp sl l t].
  unfold variant_kind in Hv. unfold other_variants in Ho. simpl in *.
  injection Ho as _ Hbase Href Harr Hor Hand Hmap Hsl Hl Ht.
  settle_kind kind "array". settle_kind kind "or". settle_kind kind "and".
  settle_kind kind "reference". settle_kind kind "base".
  settle_kind kind "map". settle_kind kind "stringLiteral".
  settle_kind kind "literal". settle_kind kind "tuple". done.
Qed.

Lemma everywhere_unfold P s :
  everywhere P s
  = P s
    && from_option (λ a, from_option (everywhere P) true (Element a)) true
         (Schema_Array s)
    && from_option
         (λ o, forallb (from_option (everywhere P) true) (Items o)) true
         (Schema_Or s)
    && from_option
         (λ o, forallb (from_option (everywhere P) true) (Items o)) true
         (Schema_And s)
    && from_option
         (λ mp, from_option (everywhere P) true (Key mp)
                && from_option (everywhere P) true (Value mp)) true
         (Schema_Map s)
    && from_option
         (λ o, forallb (from_option (everywhere P) true) (Items o)) true
         (Schema_Tuple s).
Proof. by destruct s. Qed.

Section Everywhere.

Variable P : Schema → bool.

Lemma set_Schema_everywhere v current fl e fl' :
  decodes_with P v → from_option (everywhere P) true current = true →
  set_Schema Schema_UnmarshalJSON v current fl = Next e fl' →
  from_option (everywhere P) true e = true.
Proof.
  intros Hv Hc. unfold set_Schema.
  destruct v; try (by intros [= <- <-]);
    (destruct current as [c|]; [by intros [= <- <-]|]);
    match goal with
    | |- context [Schema_UnmarshalJSON new_Schema ?b] =>
        destruct (Schema_UnmarshalJSON new_Schema b) as [node| |] eqn:E;
        try done; intros [= <- <-]; try done; by apply Hv
    end.
Qed.

Lemma set_elements_everywhere elements fl items fl' :
  Forall (decodes_with P) elements →
  set_elements Schema_UnmarshalJSON elements fl = Next items fl' →
  forallb (from_option (everywhere P) true) items = true.
Proof.
  intros H. revert fl items fl'.
  induction H as [|v rest Hv _ IH]; intros fl items fl'; simpl.
  { by intros [= <- <-]. }
  destruct (set_Schema Schema_UnmarshalJSON v None fl) as [e fl1|] eqn:E1;
    [|done].
  destruct (set_elements Schema_UnmarshalJSON rest fl1) as [items1 fl2|] eqn:E2;
    [|done].
  intros [= <- <-]. simpl. apply andb_true_intro. split.
  - by apply (set_Schema_everywhere v None fl e fl1 Hv eq_refl).
  - by eapply IH.
Qed.

Lemma set_Schemas_everywhere v current fl items fl' :
  decodes_with_deep P v →
  forallb (from_option (everywhere P) true) current = true →
  set_Schemas Schema_UnmarshalJSON v current fl = Next items fl' →
  forallb (from_option (everywhere P) true) items = true.
Proof.
  intros [_ Hv] Hc. unfold set_Schemas.
  destruct v; try (by intros [= <- <-]).
  destruct current; [|by intros [= <- <-]].
  by apply set_elements_everywhere.
Qed.

Lemma ArraySchema_field_everywhere name v (t : ArraySchema) fl t' fl' :
  decodes_with_deep P v →
  from_option (everywhere P) true (Element t) = true →
  ArraySchema_field Schema_UnmarshalJSON name v t fl = Some (Next t' fl') →
  from_option (everywhere P) true (Element t') = true.
Proof.
  intros [Hv _] Ht. unfold ArraySchema_field.
  repeat case_match; try done; intros (x & Hx & ->)%into_Next; simpl; [done|].
  by eapply set_Schema_everywhere.
Qed.

Lemma ItemsSchema_field_everywhere name v (t : ItemsSchemaOf Schema) fl t'
    fl' :
  decodes_with_deep P v →
  forallb (from_option (everywhere P) true) (Items t) = true →
  ItemsSchema_field Schema_UnmarshalJSON name v t fl = Some (Next t' fl') →
  forallb (from_option (everywhere P) true) (Items t') = true.
Proof.
  intros Hv Ht. unfold ItemsSchema_field.
  repeat case_match; try done; intros (x & Hx & ->)%into_Next; simpl; [done|].
  by eapply set_Schemas_everywhere.
Qed.

Lemma MapSchema_field_everywhere name v (t : MapSchema) fl t' fl' :
  decodes_with_deep P v →
  from_option (everywhere P) true (Key t)
  && from_option (everywhere P) true (Value t) = true →
  MapSchema_field Schema_UnmarshalJSON name v t fl = Some (Next t' fl') →
  from_option (everywhere P) true (Key t')
  && from_option (everywhere P) true (Value t') = true.
Proof.
  intros [Hv _] [Hk Hx]%andb_prop. unfold MapSchema_field.
  repeat case_match; try done; intros (x & Hset & ->)%into_Next; simpl;
    apply andb_true_intro; split; try done.
  all: eapply set_Schema_everywhere; [exact Hv| |exact Hset]; assumption.
Qed.

Hypothesis decoded_P :
  ∀ b s, Schema_UnmarshalJSON new_Schema b = Decoded s → P s = true.

(** What holds of every node decoded from a fresh one holds everywhere
    in a node decoded from a fresh one. *)
Lemma UnmarshalJSON_everywhere b : decodes_with_deep P b.
Proof.
  induction b as [| | | |elements IH|members IH] using JSON_ind;
    (split; [|try done]).
  6:{ eapply Forall_impl; [exact IH|]. by intros v [Hv _]. }
  all: intros node Hnode; pose proof (decoded_P _ _ Hnode) as Htop;
    revert Hnode Htop.
  all: rewrite UnmarshalJSON_unfold; unfold UnmarshalJSON_body.
  all: match goal with |- context [explore ?b] =>
         destruct (explore b) as [kind| |] eqn:He; [|done..] end.
  all: unfold unmarshalStrict.
  all: repeat (case_match; try done).
  all: repeat match goal with
         | H : String.eqb _ _ = true |- _ => apply String.eqb_eq in H; subst
         end.
  all: intros [= <-] Htop; rewrite everywhere_unfold, Htop; simpl.
  all: try done.
  all: rewrite ?andb_true_r.
  all: match goal with
       | H : decode_struct _ _ _ _ = Decoded _ |- _ => revert H
       end.
  - apply (decode_struct_Inv _ true
             (λ a : ArraySchema,
                from_option (everywhere P) true (Element a) = true)
             (decodes_with_deep P) ArraySchema_field_everywhere
             (JObject members)
             {| ArraySchema_Kind := EmptyString; Element := None |} _
             IH eq_refl).
  - apply (decode_struct_Inv _ true
             (λ o : ItemsSchemaOf Schema,
                forallb (from_option (everywhere P) true) (Items o) = true)
             (decodes_with_deep P) ItemsSchema_field_everywhere
             (JObject members) no_Items _ IH eq_refl).
  - apply (decode_struct_Inv _ true
             (λ o : ItemsSchemaOf Schema,
                forallb (from_option (everywhere P) true) (Items o) = true)
             (decodes_with_deep P) ItemsSchema_field_everywhere
             (JObject members) no_Items _ IH eq_refl).
  - apply (decode_struct_Inv _ true
             (λ mp : MapSchema,
                from_option (everywhere P) true (Key mp)
                && from_option (everywhere P) true (Value mp) = true)
             (decodes_with_deep P) MapSchema_field_everywhere
             (JObject members)
             {| MapSchema_Kind := EmptyString; Key := None; Value := None |} _
             IH eq_refl).
  - apply (decode_struct_Inv _ true
             (λ o : ItemsSchemaOf Schema,
                forallb (from_option (everywhere P) true) (Items o) = true)
             (decodes_with_deep P) ItemsSchema_field_everywhere
             (JObject members) no_Items _ IH eq_refl).
Qed.

End Everywhere.

Lemma just_decoded_no_handle s ref :
  just_decoded s = true → Schema_Reference s = Some ref → Found ref = None.
Proof.
  unfold just_decoded. intros H Href. rewrite Href in H.
  apply andb_prop in H as [_ H]. simpl in H.
  apply negb_true_iff, bool_decide_eq_false in H.
  destruct (Found ref) as [h|]; [|done]. destruct H. by exists h.
Qed.

Lemma just_decoded_kind_set s : just_decoded s = true → kind_set s = true.
Proof.
  unfold just_decoded, kind_set. intros H.
  repeat (apply andb_prop in H as [H ?]).
  apply andb_true_intro. split.
  - destruct (String.eqb (Schema_Kind s) "reference"); simpl; [|done].
    by destruct (bool_decide (is_Some (Schema_Reference s))).
  - destruct (String.eqb (Schema_Kind s) "base"); simpl; [|done].
    by destruct (bool_decide (is_Some (Schema_Base s))).
Qed.

(** A node with one variant everywhere holds no handle. *)
Lemma everywhere_unresolved s :
  everywhere just_decoded s = true → erase s = s.
Proof.
  induction s as [s Harr Hor Hand Hmap Htup] using Schema_ind.
  rewrite everywhere_unfold, erase_unfold. intros H.
  apply andb_prop in H as [H Ht]. apply andb_prop in H as [H Hm].
  apply andb_prop in H as [H Ha]. apply andb_prop in H as [H Ho].
  apply andb_prop in H as [Htop He].
  assert (∀ items : list (option Schema),
            Forall (from_option
                      (λ s, everywhere just_decoded s = true → erase s = s)
                      True) items →
            forallb (from_option (everywhere just_decoded) true) items = true →
            fmap (M:=list) (fmap (M:=option) erase) items = items) as Hitems.
  { induction 1 as [|p rest Hp _ IH]; [done|]. simpl.
    intros [H1 H2]%andb_prop. csimpl. f_equal; [|by apply IH].
    destruct p; simpl in *; [by rewrite Hp|done]. }
  assert (∀ o : option (ItemsSchemaOf Schema),
            from_option
              (λ o, Forall (from_option
                              (λ s, everywhere just_decoded s = true
                                    → erase s = s) True) (Items o)) True o →
            from_option
              (λ o, forallb (from_option (everywhere just_decoded) true)
                      (Items o)) true o = true →
            (λ o, {| ItemsSchema_Kind := ItemsSchema_Kind o;
                     Items := fmap (M:=list) (fmap (M:=option) erase)
                                (Items o) |}) <$> o = o) as Hof.
  { intros [o|]; simpl; [|done]. intros H1 H2. rewrite (Hitems _ H1 H2).
    by destruct o. }
  pose proof (just_decoded_no_handle s) as Hfound.
  destruct s as [meta kind base ref arr o a mp sl l t]; simpl in *.
  f_equal.
  - destruct ref as [r|]; simpl; [|done].
    specialize (Hfound r Htop eq_refl). destruct r; simpl in *. by subst.
  - destruct arr as [x|]; simpl in *; [|done]. destruct x as [k e]; simpl in *.
    do 2 f_equal. destruct e; simpl in *; [by rewrite Harr|done].
  - by apply Hof.
  - by apply Hof.
  - destruct mp as [x|]; simpl in *; [|done]. destruct x as [k key val].
    simpl in *. apply andb_prop in Hm as [Hk Hv]. destruct Hmap as [IHk IHv].
    do 2 f_equal.
    + destruct key; simpl in *; [by rewrite IHk|done].
    + destruct val; simpl in *; [by rewrite IHv|done].
  - by apply Hof.
Qed.

(** X9.  [UnmarshalJSON] sets the discriminator of its receiver and the
    one variant pointer that the discriminator names, and nothing else:
    the variant struct it sets carries the same discriminator in its own
    [Kind] field, and the metadata and the eight other variant pointers
    of the receiver are left as they were, so that a receiver that held
    another variant still holds it. *)
Theorem UnmarshalJSON_sets_one_variant :
  ∀ s b s',
    Schema_UnmarshalJSON s b = Decoded s' →
    explore b = Decoded (Schema_Kind s')
    ∧ variant_kind s' = Some (Schema_Kind s')
    ∧ other_variants (Schema_Kind s') s' = other_variants (Schema_Kind s') s.
Proof. apply UnmarshalJSON_shape. Qed.

Lemma UnmarshalJSON_sets_one_variant_witness :
  explore SampleDocument.array_of_string
  = Decoded (Schema_Kind MoreDocuments.array_over_reference)
  ∧ variant_kind MoreDocuments.array_over_reference
    = Some (Schema_Kind MoreDocuments.array_over_reference)
  ∧ other_variants (Schema_Kind MoreDocuments.array_over_reference)
      MoreDocuments.array_over_reference
    = other_variants (Schema_Kind MoreDocuments.array_over_reference)
        (Sample.reference "Range").
Proof.
  exact (UnmarshalJSON_sets_one_variant (Sample.reference "Range")
           SampleDocument.array_of_string MoreDocuments.array_over_reference
           eq_refl).
Defined.


(** ** The emitter on a writer *)

Lemma PrintStruct_to_unfold {W E : Type} (Write : string → W → W * option E)
    ToGoPascal fuel m s w :
  PrintStruct_to Write ToGoPascal (S fuel) m s w
  = PrintStruct_to_body W E Write ToGoPascal m
      (PrintStruct_to Write ToGoPascal fuel m) s w.
Proof. done. Qed.

Lemma lines_to_buffer (types : list string) (w : string) :
  lines_to string Empty_set buffer_Write types w
  = (w +:+ String.concat EmptyString (map (λ t, tab +:+ t +:+ newline) types),
     inl (Ok ())).
Proof.
  revert w. induction types as [|t rest IH]; intros w.
  { simpl. by rewrite append_nil_r. }
  change (lines_to string Empty_set buffer_Write (t :: rest) w)
    with (lines_to string Empty_set buffer_Write rest
            (w +:+ (tab +:+ t +:+ newline))).
  rewrite IH, map_cons, concat_empty_cons. by rewrite !append_assoc.
Qed.

Section Buffer.

Variable ToGoPascal : string → string.
Variable m : Model.
Variable PrintStruct_ : nat → string → string * outcome unit.
Variable PrintStruct_to_ :
  nat → string → string * (outcome unit + Empty_set).

Hypothesis PrintStruct_agrees : ∀ s out,
  PrintStruct_to_ s out = let '(out', r) := PrintStruct_ s out in (out', inl r).

Lemma type_name_to_buffer prop out :
  type_name_to string Empty_set m PrintStruct_to_ prop out
  = let '(out', r) := type_name m PrintStruct_ prop out in (out', inl r).
Proof.
  unfold type_name_to, type_name.
  destruct (Property_Type prop) as [ty|]; [|done].
  destruct (String.eqb (Schema_Kind ty) "reference").
  - destruct (Schema_Reference ty) as [reference|]; [|done].
    destruct (Found reference) as [ref|]; [|done].
    destruct (AnyRef_Structure ref) as [structure|].
    + rewrite PrintStruct_agrees.
      destruct (PrintStruct_ structure out) as [out1 r].
      destruct r as [[]| | |]; try done.
      by destruct (Structures m !! structure).
    + repeat case_match; done.
  - repeat case_match; done.
Qed.

Lemma fields_to_buffer props types out :
  fields_to string Empty_set ToGoPascal m PrintStruct_to_ props types out
  = let '(out', r) := fields ToGoPascal m PrintStruct_ props types out in
    (out', inl r).
Proof.
  revert types out. induction props as [|p rest IH]; intros types out; simpl;
    [done|].
  rewrite type_name_to_buffer.
  destruct (type_name m PrintStruct_ p out) as [out1 r].
  destruct r as [typeName| | |]; first [apply IH|done].
Qed.

End Buffer.

Lemma PrintStruct_to_buffer ToGoPascal fuel m s out :
  PrintStruct_to buffer_Write ToGoPascal fuel m s out
  = let '(out', r) := PrintStruct ToGoPascal fuel m s out in (out', inl r).
Proof.
  revert s out. induction fuel as [|fuel IH]; intros s out; [done|].
  rewrite PrintStruct_to_unfold, PrintStruct_unfold.
  unfold PrintStruct_to_body, PrintStruct_body.
  destruct (Structures m !! s) as [st|]; [|done].
  rewrite (fields_to_buffer ToGoPascal m (PrintStruct ToGoPascal fuel m)
             (PrintStruct_to buffer_Write ToGoPascal fuel m) IH).
  destruct (fields _ _ _ _ _ _) as [out1 r].
  destruct r as [types| | |]; try done.
  unfold pp_p at 1. unfold buffer_Write at 1. rewrite lines_to_buffer.
  unfold pp_p, buffer_Write, declaration. by rewrite !append_assoc.
Qed.

(** X11.  What reaches the writer is the text: on a writer that takes
    every [Write] and keeps what it is given, [PrintStruct] and [run]
    leave the text that the emitter is said to write and end the same
    way, and no call of [p] panics. *)
Theorem writes_make_the_text (ToGoPascal : string → string) (fuel : nat) :
  (∀ m s out,
     PrintStruct_to buffer_Write ToGoPascal fuel m s out
     = let '(out', r) := PrintStruct ToGoPascal fuel m s out in
       (out', inl r))
  ∧ (∀ name m,
       run_to buffer_Write ToGoPascal fuel name m EmptyString
       = let '(m', out, r) := run ToGoPascal fuel name m in (m', out, inl r)).
Proof.
  split; [intros; apply PrintStruct_to_buffer|].
  intros name m. unfold run_to, run.
  destruct (Model_Structure fuel name m) as [m1 r].
  destruct r as [diag| | |]; try done.
  rewrite PrintStruct_to_buffer. by destruct (PrintStruct _ _ _ _ _).
Qed.

Section Failing.

Variables W E : Type.
Variable Write : string → W → W * option E.
Variable ToGoPascal : string → string.
Variable m : Model.
Variable PrintStruct_ : nat → W → W * (outcome unit + E).

(** The state [w'] is the one a call of [Write] left when it returned
    the error [e]. *)
Hypothesis PrintStruct_failed : ∀ s w w' e,
  PrintStruct_ s w = (w', inr e) → ∃ text w0, Write text w0 = (w', Some e).

Lemma pp_p_failed text w w' e :
  pp_p W E Write text w = (w', inr e) → Write text w = (w', Some e).
Proof.
  unfold pp_p. destruct (Write text w) as [w1 [e1|]]; by intros [= <- <-].
Qed.

Lemma type_name_to_failed prop w w' e :
  type_name_to W E m PrintStruct_ prop w = (w', inr e) →
  ∃ text w0, Write text w0 = (w', Some e).
Proof.
  unfold type_name_to. repeat case_match; try done.
  intros [= <- <-]. by eapply PrintStruct_failed.
Qed.

Lemma fields_to_failed props types w w' e :
  fields_to W E ToGoPascal m PrintStruct_ props types w = (w', inr e) →
  ∃ text w0, Write text w0 = (w', Some e).
Proof.
  revert types w. induction props as [|p rest IH]; intros types w; simpl;
    [done|].
  destruct (type_name_to W E m PrintStruct_ p w) as [w1 r] eqn:E1.
  destruct r as [[typeName| | |]|e1]; try done.
  - apply IH.
  - intros [= <- <-]. by eapply type_name_to_failed.
Qed.

Lemma lines_to_failed types w w' e :
  lines_to W E Write types w = (w', inr e) →
  ∃ text w0, Write text w0 = (w', Some e).
Proof.
  revert w. induction types as [|t rest IH]; intros w; simpl; [done|].
  destruct (pp_p W E Write (tab +:+ t +:+ newline) w) as [w1 r] eqn:E1.
  destruct r as [[[]| | |]|e1]; try done.
  - apply IH.
  - intros [= <- <-]. apply pp_p_failed in E1. by eexists _, _.
Qed.

Lemma PrintStruct_to_body_failed s w w' e :
  PrintStruct_to_body W E Write ToGoPascal m PrintStruct_ s w = (w', inr e) →
  ∃ text w0, Write text w0 = (w', Some e).
Proof.
  unfold PrintStruct_to_body.
  destruct (Structures m !! s) as [st|]; [|done].
  destruct (fields_to _ _ _ _ _ _ _ _) as [w1 r] eqn:E1.
  destruct r as [[types| | |]|e1]; try done.
  2:{ intros [= <- <-]. by eapply fields_to_failed. }
  destruct (pp_p W E Write _ w1) as [w2 r2] eqn:E2.
  destruct r2 as [[[]| | |]|e2]; try done.
  2:{ intros [= <- <-]. apply pp_p_failed in E2. by eexists _, _. }
  destruct (lines_to W E Write types w2) as [w3 r3] eqn:E3.
  destruct r3 as [[[]| | |]|e3]; try done.
  2:{ intros [= <- <-]. by eapply lines_to_failed. }
  intros E4. apply pp_p_failed in E4. by eexists _, _.
Qed.

End Failing.

(** X12.  When a [Write] returns an error, [PrintStruct] panics with
    that error and writes nothing more: a call that ends with the panic
    of a writer's error [e] leaves the writer in the state in which some
    call of [Write] left it when it returned [e]; and so does [run]. *)
Theorem write_error_stops_the_emitter {W E : Type}
    (Write : string → W → W * option E) (ToGoPascal : string → string)
    (fuel : nat) :
  (∀ m s w w' e,
     PrintStruct_to Write ToGoPascal fuel m s w = (w', inr e) →
     ∃ text w0, Write text w0 = (w', Some e))
  ∧ (∀ name m w m' w' e,
       run_to Write ToGoPascal fuel name m w = (m', w', inr e) →
       ∃ text w0, Write text w0 = (w', Some e)).
Proof.
  assert (∀ fuel m s w w' e,
            PrintStruct_to Write ToGoPascal fuel m s w = (w', inr e) →
            ∃ text w0, Write text w0 = (w', Some e)) as H.
  { clear fuel. intros fuel m. induction fuel as [|fuel IH]; intros s w w' e;
      [done|].
    rewrite PrintStruct_to_unfold. by apply PrintStruct_to_body_failed. }
  split; [apply H|]. intros name m w m' w' e. unfold run_to.
  destruct (Model_Structure fuel name m) as [m1 r].
  destruct r as [diag| | |]; try done.
  destruct (PrintStruct_to Write ToGoPascal fuel m1 diag w) as [w1 r'] eqn:E1.
  intros [= <- <- ->]. by eapply H.
Qed.

Lemma write_error_stops_the_emitter_witness :
  ∃ text w0,
    log_Write (λ w _, bool_decide (length w < 2)) text w0
    = ([tab +:+ field "Line" EmptyString "line" +:+ newline;
        "type Position struct {" +:+ newline],
       Some (tab +:+ field "Character" EmptyString "character" +:+ newline)).
Proof.
  refine (proj1 (write_error_stops_the_emitter
                   (log_Write (λ w _, bool_decide (length w < 2)))
                   Sample.pascal 1)
            MoreSamples.range 1 [] _ _ _).
  reflexivity.
Defined.

(** ** From the resolver to the emitter *)





(** ** Completion of a run *)

(** C2, as amended.  When no chain of more than [d] structures, each
    holding a reference to the next, starts at the requested structure
    (so none of them leads back to itself), resolution and the emission
    after it run to completion or fail: with fuel [d] or more the run
    ends with a value, an error or a panic, never out of fuel.  A name
    that no structure bears is reported at once.  Whenever resolution
    has returned a structure, emission from it returns with the same
    fuel.  And a structure that reaches itself through the references
    the resolver follows, directly or through other structures, is never
    returned, however deep the recursion is allowed to go: resolution
    ends with the error or panic of an earlier lookup, or it does not
    end, and the run does not complete with a declaration. *)
Theorem run_completes (ToGoPascal : string → string) :
  (∀ d m name i fuel,
     scan Structure_Name (Structures m) name = Some i →
     within false d m i = true → d ≤ fuel →
     (run ToGoPascal fuel name m).2 ≠ Diverge)
  ∧ (∀ m name fuel,
       scan Structure_Name (Structures m) name = None →
       run ToGoPascal (S fuel) name m
       = (m, EmptyString, Err (StructureNotFound name)))
  ∧ (∀ fuel name m m' i out,
       Model_Structure fuel name m = (m', Ok i) →
       (PrintStruct ToGoPascal fuel m' i out).2 ≠ Diverge)
  ∧ (∀ m name i,
       scan Structure_Name (Structures m) name = Some i →
       reaches m i i →
       ∀ fuel,
         is_Ok (Model_Structure fuel name m).2 = false
         ∧ (run ToGoPascal fuel name m).1.2 = EmptyString
         ∧ is_Ok (run ToGoPascal fuel name m).2 = false).
Proof.
  split; [|split; [|split]].
  - intros d m name i fuel Hi Hw Hd. unfold run.
    pose proof (Model_Structure_good false d fuel m name i Hd Hi Hw) as Hg.
    destruct (Model_Structure fuel name m) as [m1 r] eqn:E. simpl in Hg.
    destruct r as [diag| | |]; simpl; try done.
    pose proof (PrintStruct_ready_returns ToGoPascal fuel m1 diag EmptyString
                  (Model_Structure_ready _ _ _ _ _ E)) as Hp.
    by destruct (PrintStruct _ _ _ _ _).
  - intros m name fuel Hn. unfold run. simpl. by rewrite Hn.
  - intros fuel name m m' i out E.
    by apply PrintStruct_ready_returns, (Model_Structure_ready _ _ _ _ _ E).
  - intros m name i Hi Hcycle fuel.
    assert (is_Ok (Model_Structure fuel name m).2 = false) as Hno.
    { rewrite Model_Structure_resolvable, Hi. simpl.
      by apply resolvable_acyclic. }
    split; [done|]. unfold run.
    destruct (Model_Structure fuel name m) as [m1 r].
    by destruct r.
Qed.

Lemma run_completes_witness :
  (run Sample.pascal 2 "Diagnostic" Sample.diagnostic).2 ≠ Diverge
  ∧ is_Ok (run Sample.pascal 7 "Outer" Sample.mutual).2 = false.
Proof.
  split.
  - apply (proj1 (run_completes Sample.pascal) 2 Sample.diagnostic
             "Diagnostic" 0 2); [reflexivity|reflexivity|lia].
  - refine (proj2 (proj2 (proj2 (proj2 (proj2 (run_completes Sample.pascal)))
                            Sample.mutual "Outer" 0 eq_refl _ 7))).
    apply (reaches_more _ 0 1 0); [|apply reaches_once].
    + eexists _, _, "Inner". split; [reflexivity|].
      split; [by apply list_elem_of_here|].
      split; [by apply list_elem_of_here|reflexivity].
    + eexists _, _, "Outer". split; [reflexivity|].
      split; [by apply list_elem_of_here|].
      split; [by apply list_elem_of_here|reflexivity].
Defined.

(** ** Order of the declarations, after resolution *)



(** ** Documents the model of the library covers *)

Lemma set_string_modelled v current fl a fl' :
  set_string v current fl = Next a fl' → unmodelled fl' = unmodelled fl.
Proof. destruct v; simpl; by intros [= <- <-]. Qed.

Lemma set_Schema_covered v fl e fl' :
  covered v → unmodelled fl = false →
  set_Schema Schema_UnmarshalJSON v None fl = Next e fl' →
  unmodelled fl' = false.
Proof.
  intros Hv Hfl. unfold set_Schema. specialize (Hv new_Schema).
  destruct v; try (by intros [= <- <-]);
    match goal with
    | |- context [Schema_UnmarshalJSON new_Schema ?b] =>
        destruct (Schema_UnmarshalJSON new_Schema b) as [node| |];
        try done; by intros [= <- <-]
    end.
Qed.

Lemma set_elements_covered elements fl items fl' :
  Forall covered elements → unmodelled fl = false →
  set_elements Schema_UnmarshalJSON elements fl = Next items fl' →
  unmodelled fl' = false.
Proof.
  intros H. revert fl items fl'.
  induction H as [|v rest Hv _ IH]; intros fl items fl' Hfl; simpl.
  { by intros [= <- <-]. }
  destruct (set_Schema Schema_UnmarshalJSON v None fl) as [e fl1|] eqn:E1;
    [|done].
  apply set_Schema_covered in E1; [|done..].
  destruct (set_elements Schema_UnmarshalJSON rest fl1) as [items1 fl2|] eqn:E2;
    [|done].
  intros [= <- <-]. by eapply IH.
Qed.

Lemma set_Schemas_covered v fl items fl' :
  covered_deep v → unmodelled fl = false →
  set_Schemas Schema_UnmarshalJSON v [] fl = Next items fl' →
  unmodelled fl' = false.
Proof.
  intros [_ Hv] Hfl. unfold set_Schemas.
  destruct v; try (by intros [= <- <-]). by apply set_elements_covered.
Qed.

Section Covered.

Context {T : Type} (field : string → JSON → T → flags → option (step T)).
Variable strict : bool.

(** What the members still to come need of the struct. *)
Variable ok : list string → T → Prop.

Hypothesis ok_skip : ∀ name rest t, ok (name :: rest) t → ok rest t.

Hypothesis field_covered : ∀ name rest v t fl t' fl',
  name ∉ rest → name ≠ "FOUND" → covered_deep v →
  ok (name :: rest) t → unmodelled fl = false →
  field name v t fl = Some (Next t' fl') →
  ok rest t' ∧ unmodelled fl' = false.

Lemma decode_members_covered members t fl t' fl' :
  NoDup (member_names members) →
  "FOUND" ∉ member_names members →
  Forall (λ member, covered_deep member.2) members →
  ok (member_names members) t → unmodelled fl = false →
  decode_members field strict members t fl = Next t' fl' →
  unmodelled fl' = false.
Proof.
  intros Hnd Hfound Hm. revert t fl Hnd Hfound.
  induction Hm as [|[name v] rest Hv _ IH]; intros t fl Hnd Hfound Hok Hfl;
    simpl.
  { by intros [= <- <-]. }
  simpl in Hnd, Hfound, Hok, Hv.
  apply NoDup_cons in Hnd as [Hnotin Hnd].
  apply not_elem_of_cons in Hfound as [Hne Hfound].
  destruct (field (foldName name) v t fl) as [[t1 fl1|e]|] eqn:E; [|done|].
  - destruct (field_covered _ _ _ _ _ _ _ Hnotin (not_eq_sym Hne) Hv Hok Hfl E)
      as [Hok1 Hfl1].
    by apply IH.
  - apply IH; try done. { by eapply ok_skip. } by destruct strict.
Qed.

Lemma decode_struct_covered b t :
  match b with
  | JObject members =>
      NoDup (member_names members) ∧ ("FOUND" ∉ member_names members)
      ∧ Forall (λ member, covered_deep member.2) members
      ∧ ok (member_names members) t
  | _ => True
  end →
  decode_struct field strict b t ≠ Unmodelled.
Proof.
  intros Hb. unfold decode_struct.
  assert (∀ r : step T,
            match r with Next _ fl => unmodelled fl = false | _ => True end →
            finish r ≠ Unmodelled) as Hf.
  { intros [a fl|e]; simpl; [|done]. intros ->. by destruct (saved_error fl). }
  apply Hf. destruct b; try done.
  destruct Hb as (Hnd & Hfound & Hm & Hok).
  pose proof (decode_members_covered members t clean) as H.
  destruct (decode_members field strict members t clean) as [t' fl'|]; [|done].
  by apply (H t' fl').
Qed.

End Covered.

Lemma ArraySchema_field_covered name rest v (t : ArraySchema) fl t' fl' :
  name ∉ rest → name ≠ "FOUND" → covered_deep v →
  ("ELEMENT" ∈ name :: rest → Element t = None) → unmodelled fl = false →
  ArraySchema_field Schema_UnmarshalJSON name v t fl = Some (Next t' fl') →
  ("ELEMENT" ∈ rest → Element t' = None) ∧ unmodelled fl' = false.
Proof.
  intros Hnotin _ [Hv _] Hok Hfl. unfold ArraySchema_field.
  destruct (String.eqb name "KIND") eqn:E1.
  { intros (a & Ha & ->)%into_Next. simpl.
    split; [intros ?; apply Hok; by right|].
    by rewrite (set_string_modelled _ _ _ _ _ Ha). }
  destruct (String.eqb name "ELEMENT") eqn:E2; [|done].
  apply String.eqb_eq in E2. subst name.
  rewrite Hok by left. intros (a & Ha & ->)%into_Next.
  split; [done|]. by eapply set_Schema_covered.
Qed.

Lemma ItemsSchema_field_covered name rest v (t : ItemsSchemaOf Schema) fl t'
    fl' :
  name ∉ rest → name ≠ "FOUND" → covered_deep v →
  ("ITEMS" ∈ name :: rest → Items t = []) → unmodelled fl = false →
  ItemsSchema_field Schema_UnmarshalJSON name v t fl = Some (Next t' fl') →
  ("ITEMS" ∈ rest → Items t' = []) ∧ unmodelled fl' = false.
Proof.
  intros Hnotin _ Hv Hok Hfl. unfold ItemsSchema_field.
  destruct (String.eqb name "KIND") eqn:E1.
  { intros (a & Ha & ->)%into_Next. simpl.
    split; [intros ?; apply Hok; by right|].
    by rewrite (set_string_modelled _ _ _ _ _ Ha). }
  destruct (String.eqb name "ITEMS") eqn:E2; [|done].
  apply String.eqb_eq in E2. subst name.
  rewrite Hok by left. intros (a & Ha & ->)%into_Next.
  split; [done|]. by eapply set_Schemas_covered.
Qed.

Lemma MapSchema_field_covered name rest v (t : MapSchema) fl t' fl' :
  name ∉ rest → name ≠ "FOUND" → covered_deep v →
  ("KEY" ∈ name :: rest → Key t = None)
  ∧ ("VALUE" ∈ name :: rest → Value t = None) →
  unmodelled fl = false →
  MapSchema_field Schema_UnmarshalJSON name v t fl = Some (Next t' fl') →
  (("KEY" ∈ rest → Key t' = None) ∧ ("VALUE" ∈ rest → Value t' = None))
  ∧ unmodelled fl' = false.
Proof.
  intros Hnotin _ [Hv _] [Hk Hx] Hfl. unfold MapSchema_field.
  destruct (String.eqb name "KIND") eqn:E1.
  { intros (a & Ha & ->)%into_Next. simpl.
    split; [split; intros ?; [apply Hk|apply Hx]; by right|].
    by rewrite (set_string_modelled _ _ _ _ _ Ha). }
  destruct (String.eqb name "KEY") eqn:E2.
  { apply String.eqb_eq in E2. subst name.
    rewrite Hk by left. intros (a & Ha & ->)%into_Next. simpl.
    split; [split; [done|intros ?; apply Hx; by right]|].
    by eapply set_Schema_covered. }
  destruct (String.eqb name "VALUE") eqn:E3; [|done].
  apply String.eqb_eq in E3. subst name.
  rewrite Hx by left. intros (a & Ha & ->)%into_Next. simpl.
  split; [split; [intros ?; apply Hk; by right|done]|].
  by eapply set_Schema_covered.
Qed.

Lemma ReferenceSchema_field_covered name (rest : list string) v (t : ReferenceSchema) fl t'
    fl' :
  name ∉ rest → name ≠ "FOUND" → covered_deep v →
  True → unmodelled fl = false →
  ReferenceSchema_field name v t fl = Some (Next t' fl') →
  True ∧ unmodelled fl' = false.
Proof.
  intros _ Hne _ _ Hfl. unfold ReferenceSchema_field.
  apply String.eqb_neq in Hne. rewrite Hne.
  repeat case_match; try done; intros (a & Ha & ->)%into_Next;
    (split; [done|]); by rewrite (set_string_modelled _ _ _ _ _ Ha).
Qed.

Lemma BaseSchema_field_covered name (rest : list string) v (t : BaseSchema) fl t' fl' :
  name ∉ rest → name ≠ "FOUND" → covered_deep v →
  True → unmodelled fl = false →
  BaseSchema_field name v t fl = Some (Next t' fl') →
  True ∧ unmodelled fl' = false.
Proof.
  intros _ _ _ _ Hfl. unfold BaseSchema_field.
  repeat case_match; try done; intros (a & Ha & ->)%into_Next;
    (split; [done|]); by rewrite (set_string_modelled _ _ _ _ _ Ha).
Qed.

Lemma StringLiteralSchema_field_covered name (rest : list string) v
    (t : StringLiteralSchema)
    fl t' fl' :
  name ∉ rest → name ≠ "FOUND" → covered_deep v →
  True → unmodelled fl = false →
  StringLiteralSchema_field name v t fl = Some (Next t' fl') →
  True ∧ unmodelled fl' = false.
Proof.
  intros _ _ _ _ Hfl. unfold StringLiteralSchema_field.
  repeat case_match; try done; intros (a & Ha & ->)%into_Next;
    (split; [done|]); by rewrite (set_string_modelled _ _ _ _ _ Ha).
Qed.

Lemma LiteralSchema_field_covered name (rest : list string) v
    (t : LiteralSchema) fl t' fl' :
  name ∉ rest → name ≠ "FOUND" → covered_deep v →
  True → unmodelled fl = false →
  LiteralSchema_field name v t fl = Some (Next t' fl') →
  True ∧ unmodelled fl' = false.
Proof.
  intros _ _ _ _ Hfl. unfold LiteralSchema_field.
  repeat case_match; try done; intros (a & Ha & ->)%into_Next;
    (split; [done|]).
  - by rewrite (set_string_modelled _ _ _ _ _ Ha).
  - unfold set_interface in Ha. destruct v; by simplify_eq.
Qed.

Lemma unmarshalStrict_covered {T : Type}
    (field : string → JSON → T → flags → option (step T)) b elem kind assign :
  decode_struct field true b elem ≠ Unmodelled →
  unmarshalStrict field b elem kind assign ≠ Unmodelled.
Proof.
  unfold unmarshalStrict. by destruct (decode_struct field true b elem).
Qed.

(** The decoder has an answer for every plain document. *)
Lemma UnmarshalJSON_covered b : plain b = true → covered_deep b.
Proof.
  induction b as [| | | |elements IH|members IH] using JSON_ind; intros Hb.
  1-4: split; [|done]; intros node; rewrite UnmarshalJSON_unfold; done.
  - split.
    + intros node. rewrite UnmarshalJSON_unfold. done.
    + simpl in Hb. apply Forall_forall. intros v Hv.
      rewrite Forall_forall in IH. apply IH; [done|].
      apply forallb_forall with (x := v) in Hb; [done|].
      by apply list_elem_of_In.
  - split; [|done]. intros node.
    simpl in Hb. apply andb_prop in Hb as [Hb Hvalues].
    apply andb_prop in Hb as [Hnd Hfound].
    apply bool_decide_eq_true in Hnd.
    apply negb_true_iff, bool_decide_eq_false in Hfound.
    assert (Forall (λ member, covered_deep member.2) members) as Hm.
    { apply Forall_forall. intros member Hmember.
      rewrite Forall_forall in IH. apply IH; [done|].
      apply forallb_forall with (x := member) in Hvalues; [done|].
      by apply list_elem_of_In. }
    rewrite UnmarshalJSON_unfold. unfold UnmarshalJSON_body.
    destruct (explore (JObject members)) as [kind| |] eqn:He;
      [|done|by destruct (explore_modelled (JObject members))].
    repeat case_match; try done; apply unmarshalStrict_covered.
    + apply (decode_struct_covered _ true
               (λ names (t : ArraySchema),
                  "ELEMENT" ∈ names → Element t = None));
        [by intros ??? Hskip ?; apply Hskip; right
        |apply ArraySchema_field_covered|done].
    + apply (decode_struct_covered _ true
               (λ names (t : ItemsSchemaOf Schema),
                  "ITEMS" ∈ names → Items t = []));
        [by intros ??? Hskip ?; apply Hskip; right
        |apply ItemsSchema_field_covered|done].
    + apply (decode_struct_covered _ true
               (λ names (t : ItemsSchemaOf Schema),
                  "ITEMS" ∈ names → Items t = []));
        [by intros ??? Hskip ?; apply Hskip; right
        |apply ItemsSchema_field_covered|done].
    + apply (decode_struct_covered _ true (λ _ (_ : ReferenceSchema), True));
        [done|apply ReferenceSchema_field_covered|done].
    + apply (decode_struct_covered _ true (λ _ (_ : BaseSchema), True));
        [done|apply BaseSchema_field_covered|done].
    + apply (decode_struct_covered _ true
               (λ names (t : MapSchema),
                  ("KEY" ∈ names → Key t = None)
                  ∧ ("VALUE" ∈ names → Value t = None)));
        [by intros ??? [Hs1 Hs2]; split; intros ?; [apply Hs1|apply Hs2]; right
        |apply MapSchema_field_covered|done].
    + apply (decode_struct_covered _ true
               (λ _ (_ : StringLiteralSchema), True));
        [done|apply StringLiteralSchema_field_covered|done].
    + apply (decode_struct_covered _ true (λ _ (_ : LiteralSchema), True));
        [done|apply LiteralSchema_field_covered|done].
    + apply (decode_struct_covered _ true
               (λ names (t : ItemsSchemaOf Schema),
                  "ITEMS" ∈ names → Items t = []));
        [by intros ??? Hskip ?; apply Hskip; right
        |apply ItemsSchema_field_covered|done].
Qed.

(** X10.  What the decoder hands to the resolver.  For every document
    in which no object has two members with the same name up to case or
    a member named [found], the decoder of schema nodes has an answer, a
    node or an error: the two cases the model of the library leaves out
    (a [Found] member other than null, and a member that fills again a
    pointer or a slice of schema nodes which an earlier member of the
    same object has filled, where the library decodes into the nodes
    already there and can leave a node with two variants) do not arise.
    And a node decoded into a fresh node has, at the node and at every
    node below it, exactly the variant its discriminator names, with the
    same discriminator in it, and no handle in any reference; so the
    node is its own erasure, and its kind names a pointer that is set,
    as the emitter needs. *)
Theorem decoded_node_is_unresolved :
  (∀ b, plain b = true → ∀ s, Schema_UnmarshalJSON s b ≠ Unmodelled)
  ∧ (∀ b s,
       Schema_UnmarshalJSON new_Schema b = Decoded s →
       everywhere just_decoded s = true ∧ erase s = s ∧ kind_set s = true).
Proof.
  split; [intros b Hb; by apply UnmarshalJSON_covered|].
  intros b s H.
  pose proof (proj1 (UnmarshalJSON_everywhere just_decoded
                       UnmarshalJSON_just_decoded b) s H) as He.
  split; [done|]. split; [by apply everywhere_unresolved|].
  apply just_decoded_kind_set. rewrite everywhere_unfold in He.
  do 5 (apply andb_prop in He as [He _]). done.
Qed.

Lemma decoded_node_is_unresolved_witness :
  Schema_UnmarshalJSON new_Schema SampleDocument.array_of_string ≠ Unmodelled
  ∧ everywhere just_decoded (Sample.array (Sample.base "string")) = true
  ∧ erase (Sample.array (Sample.base "string"))
    = Sample.array (Sample.base "string")
  ∧ kind_set (Sample.array (Sample.base "string")) = true.
Proof.
  split.
  - apply (proj1 decoded_node_is_unresolved SampleDocument.array_of_string).
    by vm_compute.
  - exact (proj2 decoded_node_is_unresolved SampleDocument.array_of_string _
             eq_refl).
Defined.
